(** * Size-aware batching downloader: process_small_files.py

    A shallow embedding of the Python module [process_small_files.py]
    (path parser, size-aware grouping, group transfer, worker-pool driver)
    and the properties its design document states about it.

    Conventions of the embedding.
    - A Python [str] is a Stdlib [string]; a [bytes] value is a list of
      [ascii] octets.
    - A Python [int] is a [Z] (unbounded, as in Python).
    - A raised exception is the left injection of a sum: a computation of
      type [A] that may raise has type [exn + A].
    - Code that touches the local file system threads a [World] through; the
      world that a raising statement leaves behind is kept, because Python
      does not undo side effects when an exception unwinds. *)

From Stdlib Require Import ZArith String Ascii List Bool Lia.
From stdpp Require Import base option list gmap strings.

Open Scope Z_scope.
Open Scope string_scope.
Open Scope list_scope.

(** ** Exceptions *)

(** The subclasses of Python's [Exception] that the modelled code and the
    library calls it makes can raise. *)
Inductive exn : Type :=
  | ValueError (msg : string)
  | KeyError (key : string)
  | FileNotFoundError (path : string)
  | FileExistsError (path : string)
  | NotADirectoryError (path : string)
  | IsADirectoryError (path : string)
  | OSError (msg : string).

(** [try_ A] is a computation that returns an [A] or raises. *)
Definition try_ (A : Type) : Type := (exn + A)%type.

Definition is_ok {A} (r : try_ A) : bool :=
  match r with inr _ => true | inl _ => false end.

(** ** The remote store handle ([gcsfs.GCSFileSystem])

    The [fs] object is an external collaborator. The module only calls
    [fs.ls], [fs.info] and [fs.open]; each may raise.  A remote file opened
    for reading is described by its content and, optionally, the index of
    the [read] call on which the connection breaks. *)
Record RemoteFile : Type := {
  rf_content : list ascii;
  rf_fault : option (nat * exn)
}.

Record GCSFileSystem : Type := {
  fs_ls : string -> try_ (list string);
  fs_info_size : string -> try_ Z;      (* fs.info(path)['size'] *)
  fs_open_rb : string -> try_ RemoteFile (* fs.open(path, 'rb') *)
}.

(** ** Object lister *)

(** [def list_blobs(fs, bucket_name, prefix):
       return fs.ls(f"{bucket_name}/{prefix}")] *)
Definition list_blobs (fs : GCSFileSystem) (bucket_name prefix : string)
    : try_ (list string) :=
  fs_ls fs (bucket_name ++ "/" ++ prefix)%string.

(** ** Size oracle and grouping engine *)

(** [def get_blob_size(fs, blob_path): return fs.info(blob_path)['size']] *)
Definition get_blob_size (fs : GCSFileSystem) (blob_path : string) : try_ Z :=
  fs_info_size fs blob_path.

(** The three loop variables of [group_blobs_by_size]. *)
Record group_state : Type := {
  grouped_blobs : list (list string);
  current_group : list string;
  current_size : Z
}.

(** One iteration of the [for blob in blobs] loop, once the size is known. *)
Definition group_step (max_size_bytes : Z) (st : group_state)
    (blob : string) (blob_size : Z) : group_state :=
  let st1 :=
    if current_size st + blob_size >? max_size_bytes
    then {| grouped_blobs := grouped_blobs st ++ [current_group st];
            current_group := [];
            current_size := 0 |}
    else st in
  {| grouped_blobs := grouped_blobs st1;
     current_group := current_group st1 ++ [blob];
     current_size := current_size st1 + blob_size |}.

(** The loop itself; a failing size lookup unwinds out of it. *)
Fixpoint group_loop (fs : GCSFileSystem) (max_size_bytes : Z)
    (blobs : list string) (st : group_state) : try_ group_state :=
  match blobs with
  | [] => inr st
  | blob :: rest =>
      match get_blob_size fs blob with
      | inl e => inl e
      | inr blob_size =>
          group_loop fs max_size_bytes rest
            (group_step max_size_bytes st blob blob_size)
      end
  end.

Definition group_init : group_state :=
  {| grouped_blobs := []; current_group := []; current_size := 0 |}.

(** [if current_group: grouped_blobs.append(current_group)] *)
Definition group_finish (st : group_state) : list (list string) :=
  match current_group st with
  | [] => grouped_blobs st
  | _ :: _ => grouped_blobs st ++ [current_group st]
  end.

Definition group_blobs_by_size (fs : GCSFileSystem) (blobs : list string)
    (max_size_mb : Z) : try_ (list (list string)) :=
  let max_size_bytes := max_size_mb * 1024 * 1024 in
  match group_loop fs max_size_bytes blobs group_init with
  | inl e => inl e
  | inr st => inr (group_finish st)
  end.

(** *** The greedy algorithm of the design document

    The design document's section "Grouping Engine" describes the pass in
    words.  [greedy_*] follows those words: the current group is closed
    before an insertion only when the budget would be exceeded AND the
    current group is non-empty. *)
Definition greedy_step (max_group_bytes : Z) (st : group_state)
    (object : string) (object_size : Z) : group_state :=
  let st1 :=
    if (current_size st + object_size >? max_group_bytes)
       && negb (bool_decide (current_group st = []))
    then {| grouped_blobs := grouped_blobs st ++ [current_group st];
            current_group := [];
            current_size := 0 |}
    else st in
  {| grouped_blobs := grouped_blobs st1;
     current_group := current_group st1 ++ [object];
     current_size := current_size st1 + object_size |}.

Fixpoint greedy_loop (fs : GCSFileSystem) (max_group_bytes : Z)
    (objects : list string) (st : group_state) : try_ group_state :=
  match objects with
  | [] => inr st
  | object :: rest =>
      match get_blob_size fs object with
      | inl e => inl e
      | inr object_size =>
          greedy_loop fs max_group_bytes rest
            (greedy_step max_group_bytes st object object_size)
      end
  end.

Definition greedy_group (fs : GCSFileSystem) (objects : list string)
    (max_group_bytes : Z) : try_ (list (list string)) :=
  match greedy_loop fs max_group_bytes objects group_init with
  | inl e => inl e
  | inr st => inr (group_finish st)
  end.

(** Total size of a group, as the size oracle reports it. *)
Fixpoint group_total (fs : GCSFileSystem) (group : list string) : try_ Z :=
  match group with
  | [] => inr 0
  | blob :: rest =>
      match get_blob_size fs blob, group_total fs rest with
      | inr s, inr t => inr (s + t)
      | inl e, _ => inl e
      | _, inl e => inl e
      end
  end.


(** The members seen so far, in order: closed groups, then the open one. *)
Definition members (st : group_state) : list string :=
  concat (grouped_blobs st) ++ current_group st.

(** A group is within budget when its total is known and does not exceed
    the budget. *)
Definition within_budget (fs : GCSFileSystem) (max_size_bytes : Z)
    (g : list string) : Prop :=
  exists t, group_total fs g = inr t /\ t <= max_size_bytes.

(** Loop invariant for the size bound: the running size is the total of the
    open group, every closed group is within budget, and the open group is
    either still the initial empty one or within budget. *)
Definition bounded (fs : GCSFileSystem) (max_size_bytes : Z)
    (st : group_state) : Prop :=
  group_total fs (current_group st) = inr (current_size st)
  /\ Forall (within_budget fs max_size_bytes) (grouped_blobs st)
  /\ (current_group st = [] \/ current_size st <= max_size_bytes).

(** Without any assumption on the budget, a group may exceed it only when it
    is a single object that is itself larger than the budget. *)
Definition budget_or_oversized (fs : GCSFileSystem) (max_size_bytes : Z)
    (g : list string) : Prop :=
  within_budget fs max_size_bytes g
  \/ exists blob s, g = [blob] /\ get_blob_size fs blob = inr s
                    /\ max_size_bytes < s.

(** The matching loop invariant. *)
Definition loose_bounded (fs : GCSFileSystem) (max_size_bytes : Z)
    (st : group_state) : Prop :=
  group_total fs (current_group st) = inr (current_size st)
  /\ Forall (budget_or_oversized fs max_size_bytes) (grouped_blobs st)
  /\ (current_size st <= max_size_bytes
      \/ exists blob, current_group st = [blob]
                      /\ max_size_bytes < current_size st).

(** A state whose list of closed groups has one more group in front. *)
Definition push_front (g : list string) (st : group_state) : group_state :=
  {| grouped_blobs := g :: grouped_blobs st;
     current_group := current_group st;
     current_size := current_size st |}.

Definition try_map {A B} (f : A -> B) (r : try_ A) : try_ B :=
  match r with inl e => inl e | inr a => inr (f a) end.

(** ** Python [str] methods used by the module and by the library code it
    calls.  Characters are Stdlib [ascii] values, that is code points 0 to
    255. *)
Module pystr.

(** [c in chars] *)
Fixpoint contains (c : ascii) (chars : string) : bool :=
  match chars with
  | EmptyString => false
  | String d rest => Ascii.eqb c d || contains c rest
  end.

(** [s.startswith(p)] *)
Fixpoint startswith (s p : string) {struct p} : bool :=
  match p with
  | EmptyString => true
  | String c p' =>
      match s with
      | EmptyString => false
      | String d s' => Ascii.eqb d c && startswith s' p'
      end
  end.

(** [s.endswith(p)] for a one-character [p] *)
Fixpoint endswith_char (s : string) (c : ascii) : bool :=
  match s with
  | EmptyString => false
  | String d EmptyString => Ascii.eqb d c
  | String _ rest => endswith_char rest c
  end.

(** [s.lstrip(chars)]: drops every leading character that is in [chars]. *)
Fixpoint lstrip (chars s : string) : string :=
  match s with
  | EmptyString => EmptyString
  | String c rest => if contains c chars then lstrip chars rest else s
  end.

(** [s.rstrip(chars)] for a one-character [chars] *)
Fixpoint rstrip_char (c : ascii) (s : string) : string :=
  match s with
  | EmptyString => EmptyString
  | String d rest =>
      match rstrip_char c rest with
      | EmptyString => if Ascii.eqb d c then EmptyString
                       else String d EmptyString
      | kept => String d kept
      end
  end.

(** [s.replace(c, '')]: every occurrence of [c] removed *)
Fixpoint remove (c : ascii) (s : string) : string :=
  match s with
  | EmptyString => EmptyString
  | String d rest =>
      if Ascii.eqb d c then remove c rest else String d (remove c rest)
  end.

(** [s.find(c, start)] for a one-character [c]; [None] stands for [-1]. *)
Fixpoint find (c : ascii) (s : string) (start : nat) : option nat :=
  match s with
  | EmptyString => None
  | String d rest =>
      match start with
      | O => if Ascii.eqb d c then Some O else S <$> find c rest O
      | S k => S <$> find c rest k
      end
  end.

(** [s.rfind(c)] for a one-character [c]; [None] stands for [-1]. *)
Fixpoint rfind (c : ascii) (s : string) : option nat :=
  match s with
  | EmptyString => None
  | String d rest =>
      match rfind c rest with
      | Some i => Some (S i)
      | None => if Ascii.eqb d c then Some O else None
      end
  end.

(** [s[:n]] and [s[n:]] for [n >= 0] *)
Fixpoint take (n : nat) (s : string) : string :=
  match n, s with
  | S k, String c rest => String c (take k rest)
  | _, _ => EmptyString
  end.

Fixpoint drop (n : nat) (s : string) : string :=
  match n, s with
  | S k, String _ rest => drop k rest
  | _, _ => s
  end.

(** [s[a:b]] for [0 <= a], [0 <= b] *)
Definition slice (a b : nat) (s : string) : string := take (b - a) (drop a s).

(** [s.split(c, 1)] when [c in s]: the text before and after the first [c];
    when [c] is absent the first component is [s]. *)
Fixpoint split1 (c : ascii) (s : string) : string * string :=
  match s with
  | EmptyString => (EmptyString, EmptyString)
  | String d rest =>
      if Ascii.eqb d c then (EmptyString, rest)
      else let '(before, after) := split1 c rest in (String d before, after)
  end.

(** [s.split(c)]: always at least one piece. *)
Fixpoint split (c : ascii) (s : string) : list string :=
  match s with
  | EmptyString => [EmptyString]
  | String d rest =>
      if Ascii.eqb d c then EmptyString :: split c rest
      else match split c rest with
           | piece :: pieces => String d piece :: pieces
           | [] => [String d EmptyString]
           end
  end.

(** [sep.join(pieces)] *)
Fixpoint join (sep : string) (pieces : list string) : string :=
  match pieces with
  | [] => EmptyString
  | [piece] => piece
  | piece :: rest => (piece ++ sep ++ join sep rest)%string
  end.

Definition is_ascii_upper (c : ascii) : bool :=
  let n := nat_of_ascii c in ((65 <=? n) && (n <=? 90))%nat.

Definition is_ascii_lower (c : ascii) : bool :=
  let n := nat_of_ascii c in ((97 <=? n) && (n <=? 122))%nat.

Definition is_ascii_digit (c : ascii) : bool :=
  let n := nat_of_ascii c in ((48 <=? n) && (n <=? 57))%nat.

(** [s.lower()] on the ASCII letters *)
Definition lower_char (c : ascii) : ascii :=
  if is_ascii_upper c then ascii_of_nat (nat_of_ascii c + 32) else c.

Fixpoint lower (s : string) : string :=
  match s with
  | EmptyString => EmptyString
  | String c rest => String (lower_char c) (lower rest)
  end.

Fixpoint all_chars (p : ascii -> bool) (s : string) : bool :=
  match s with
  | EmptyString => true
  | String c rest => p c && all_chars p rest
  end.

End pystr.

(** ** [urllib.parse]: [urlsplit] and [urlparse] (CPython 3)

    Two parts of [urlsplit] depend on library modules that are not
    modelled.
    - [_checknetloc] rejects a non-ASCII netloc whose NFKC normal form
      contains one of [/?#@:].  No code point up to 255 has such a normal
      form, so for the strings of this model the check never raises and is
      left out.
    - [_check_bracketed_netloc] (releases from 3.11.4 on) validates, with
      the [ipaddress] module, a netloc that contains both [[] and []].  It
      is the parameter [check_bracketed_netloc]; earlier releases behave as
      the instance that always returns. *)
Module urllib_parse.

Record ParseResult : Type := {
  scheme : string;
  netloc : string;
  path : string;
  params : string;
  query : string;
  fragment : string
}.

Definition uses_params : list string :=
  [EmptyString; "ftp"; "hdl"; "prospero"; "http"; "imap"; "https"; "shttp"; "rtsp";
   "rtspu"; "sip"; "sips"; "mms"; "sftp"; "tel"].

(** [scheme_chars]: ASCII letters, digits and [+-.] *)
Definition scheme_char (c : ascii) : bool :=
  pystr.is_ascii_lower c || pystr.is_ascii_upper c || pystr.is_ascii_digit c
  || pystr.contains c "+-.".

(** [_WHATWG_C0_CONTROL_OR_SPACE]: code points 0 to 32 *)
Definition C0_CONTROL_OR_SPACE : string :=
  string_of_list_ascii (map ascii_of_nat (seq 0 33)).

(** [_UNSAFE_URL_BYTES_TO_REMOVE = ['\t', '\r', '\n']] *)
Definition remove_unsafe_bytes (url : string) : string :=
  pystr.remove "010"%char (pystr.remove "013"%char (pystr.remove "009"%char url)).

(** [_splitnetloc(url, start)]: the netloc ends at the earliest of [/?#],
    or at the end of [url] when none occurs from [start] on. *)
Definition netloc_end (url : string) (start : nat) : nat :=
  fold_left
    (fun delim c =>
       match pystr.find c url start with
       | Some wdelim => Nat.min delim wdelim
       | None => delim
       end)
    ["/"%char; "?"%char; "#"%char] (String.length url).

Definition splitnetloc (url : string) (start : nat) : string * string :=
  let delim := netloc_end url start in
  (pystr.slice start delim url, pystr.drop delim url).

(** [_splitparams(url)] *)
Definition splitparams (url : string) : string * string :=
  let cut i := (pystr.take i url, pystr.drop (S i) url) in
  match pystr.rfind "/"%char url with
  | Some slash =>
      match pystr.find ";"%char url slash with
      | Some i => cut i
      | None => (url, EmptyString)
      end
  | None =>
      match pystr.find ";"%char url 0 with
      | Some i => cut i
      | None => (pystr.take (String.length url - 1) url, url)
      end
  end.

Section urlsplit.
Variable check_bracketed_netloc : string -> try_ unit.

(** The scheme prefix, when the text before the first colon is a scheme. *)
Definition split_scheme (url : string) : string * string :=
  match pystr.find ":"%char url 0 with
  | Some (S _ as i) =>
      if pystr.all_chars
           (fun c => pystr.is_ascii_lower c || pystr.is_ascii_upper c)
           (pystr.take 1 url)
         && pystr.all_chars scheme_char (pystr.take i url)
      then (pystr.lower (pystr.take i url), pystr.drop (S i) url)
      else (EmptyString, url)
  | _ => (EmptyString, url)
  end.

(** The netloc part: present when the rest begins with two slashes. *)
Definition split_authority (url : string) : try_ (string * string) :=
  if String.eqb (pystr.take 2 url) "//" then
    let '(netloc, url) := splitnetloc url 2 in
    let has_open := pystr.contains "["%char netloc in
    let has_close := pystr.contains "]"%char netloc in
    if (has_open && negb has_close) || (has_close && negb has_open)
    then inl (ValueError "Invalid IPv6 URL")
    else if has_open && has_close
    then match check_bracketed_netloc netloc with
         | inl e => inl e
         | inr _ => inr (netloc, url)
         end
    else inr (netloc, url)
  else inr (EmptyString, url).

(** [urlsplit(url)]; the result's [params] is left empty. *)
Definition urlsplit (url : string) : try_ ParseResult :=
  let url := pystr.lstrip C0_CONTROL_OR_SPACE url in
  let url := remove_unsafe_bytes url in
  let '(scheme, url) := split_scheme url in
  match split_authority url with
  | inl e => inl e
  | inr (netloc, url) =>
      let '(url, fragment) :=
        if pystr.contains "#"%char url then pystr.split1 "#"%char url
        else (url, EmptyString) in
      let '(url, query) :=
        if pystr.contains "?"%char url then pystr.split1 "?"%char url
        else (url, EmptyString) in
      inr {| scheme := scheme; netloc := netloc; path := url;
             params := EmptyString; query := query; fragment := fragment |}
  end.

(** [urlparse(url)] *)
Definition urlparse (url : string) : try_ ParseResult :=
  match urlsplit url with
  | inl e => inl e
  | inr r =>
      if existsb (String.eqb (scheme r)) uses_params
         && pystr.contains ";"%char (path r)
      then let '(url, params) := splitparams (path r) in
           inr {| scheme := scheme r; netloc := netloc r; path := url;
                  params := params; query := query r;
                  fragment := fragment r |}
      else inr r
  end.

End urlsplit.

(** Releases before 3.11.4: a netloc with both brackets is accepted. *)
Definition accept_bracketed_netloc (netloc : string) : try_ unit := inr tt.

End urllib_parse.

(** ** Path parser *)

Section PathParser.
Variable check_bracketed_netloc : string -> try_ unit.

Definition parse_gcs_path (gcs_path : string) : try_ (string * string) :=
  if negb (pystr.startswith gcs_path "gs://")
  then inl (ValueError ("Invalid GCS path: " ++ gcs_path)%string)
  else
    match urllib_parse.urlparse check_bracketed_netloc gcs_path with
    | inl e => inl e
    | inr parsed_url =>
        let bucket_name := urllib_parse.netloc parsed_url in
        let prefix := pystr.lstrip "/" (urllib_parse.path parsed_url) in
        inr (bucket_name, prefix)
    end.

End PathParser.

(** *** The result of [parse_gcs_path], read off the input text

    [span_until stop s] cuts [s] before its first character that is in
    [stop]. *)
Fixpoint span_until (stop s : string) : string * string :=
  match s with
  | EmptyString => (EmptyString, EmptyString)
  | String c rest =>
      if pystr.contains c stop then (EmptyString, s)
      else let '(before, after) := span_until stop rest in
           (String c before, after)
  end.

(** For the text [rest] that follows [gs://]: the container is what
    precedes the first of [/?#] (tab, CR and LF removed first); the prefix
    is what follows, up to the first of [?#], without its leading
    slashes. *)
Definition gcs_container (rest : string) : string :=
  fst (span_until "/?#" (urllib_parse.remove_unsafe_bytes rest)).

Definition gcs_prefix (rest : string) : string :=
  pystr.lstrip "/"
    (fst (span_until "?#"
            (snd (span_until "/?#" (urllib_parse.remove_unsafe_bytes rest))))).

(** Exactly one of the two brackets occurs. *)
Definition unmatched_bracket (netloc : string) : bool :=
  xorb (pystr.contains "["%char netloc) (pystr.contains "]"%char netloc).

(** The text after [gs://] names no host: it is empty or starts with one of
    [/?#] once tab, CR and LF are removed. *)
Definition host_absent (rest : string) : bool :=
  match urllib_parse.remove_unsafe_bytes rest with
  | EmptyString => true
  | String c _ => pystr.contains c "/?#"
  end.

(** ** [os.path] on POSIX ([posixpath], CPython 3) *)
Module posixpath.

(** [isabs(s)] *)
Definition isabs (s : string) : bool := pystr.startswith s "/".

(** [join(a, b)] *)
Definition join (a b : string) : string :=
  if pystr.startswith b "/" then b
  else if String.eqb a EmptyString || pystr.endswith_char a "/"
  then (a ++ b)%string
  else (a ++ "/" ++ b)%string.

(** [join(a, *p)] *)
Definition join_all (a : string) (p : list string) : string :=
  fold_left join p a.

(** [split(p)]: head and tail around the last slash. *)
Definition split (p : string) : string * string :=
  let i := match pystr.rfind "/" p with Some k => S k | None => O end in
  let head := pystr.take i p in
  let tail := pystr.drop i p in
  let head :=
    if negb (String.eqb head EmptyString)
       && negb (pystr.all_chars (Ascii.eqb "/") head)
    then pystr.rstrip_char "/" head
    else head in
  (head, tail).

(** [dirname(p)] *)
Definition dirname (p : string) : string := fst (split p).

(** The component loop of [normpath]. *)
Fixpoint normpath_comps (initial_slashes : nat) (comps new_comps : list string)
    : list string :=
  match comps with
  | [] => new_comps
  | comp :: rest =>
      if String.eqb comp EmptyString || String.eqb comp "."
      then normpath_comps initial_slashes rest new_comps
      else if negb (String.eqb comp "..")
              || (Nat.eqb initial_slashes 0
                  && bool_decide (new_comps = []))
              || match last new_comps with
                 | Some l => String.eqb l ".."
                 | None => false
                 end
      then normpath_comps initial_slashes rest (new_comps ++ [comp])
      else normpath_comps initial_slashes rest (removelast new_comps)
  end.

(** [normpath(path)] *)
Definition normpath (path : string) : string :=
  if String.eqb path EmptyString then "."
  else
    let initial_slashes :=
      if pystr.startswith path "/"
      then if pystr.startswith path "//" && negb (pystr.startswith path "///")
           then 2%nat else 1%nat
      else 0%nat in
    let new_comps :=
      normpath_comps initial_slashes (pystr.split "/" path) [] in
    let path := pystr.join "/" new_comps in
    let path :=
      (string_of_list_ascii (repeat "/"%char initial_slashes) ++ path)%string in
    if String.eqb path EmptyString then "." else path.

(** [abspath(path)], with the current directory [cwd] of the process. *)
Definition abspath (cwd path : string) : string :=
  normpath (if isabs path then path else join cwd path).

(** [len(commonprefix([l1, l2]))] for two lists of components. *)
Fixpoint common_prefix_len (l1 l2 : list string) : nat :=
  match l1, l2 with
  | x :: l1', y :: l2' =>
      if String.eqb x y then S (common_prefix_len l1' l2') else O
  | _, _ => O
  end.

(** The non-empty components of the absolute form of a path. *)
Definition abs_comps (cwd path : string) : list string :=
  filter (fun x => negb (String.eqb x EmptyString))
         (pystr.split "/" (abspath cwd path)).

(** [relpath(path, start)] *)
Definition relpath (cwd path start : string) : try_ string :=
  if String.eqb path EmptyString then inl (ValueError "no path specified")
  else
    let start_list := abs_comps cwd start in
    let path_list := abs_comps cwd path in
    let i := common_prefix_len start_list path_list in
    let rel_list :=
      repeat ".." (length start_list - i) ++ skipn i path_list in
    match rel_list with
    | [] => inr "."
    | first :: others => inr (join_all first others)
    end.

End posixpath.

(** ** The local side: file system, working directory, output

    A node of the local file system is a directory or a regular file.
    Nodes are keyed by the non-empty components of their absolute path
    ([posixpath.abs_comps]); the root is the empty key and is always a
    directory.  Symbolic links, permissions and quotas are not modelled, and
    [..] is resolved on the text of the path, as [abspath] does. *)
Inductive node : Type :=
  | Dir
  | File (content : list ascii).

(** I/O calls that reach outside the process, in the order they are made. *)
Inductive io_event : Type :=
  | IoMakedirs (name : string)
  | IoRemoteOpen (blob_path : string)
  | IoLocalOpen (file_name : string)
  | IoRemoteRead (blob_path : string)
  | IoLocalWrite (file_name : string).

(** Lines printed by [download_all_files]. *)
Inductive line : Type :=
  | FoundFiles (n : nat)       (* Found {n} files to download. *)
  | GroupedChunks (n : nat)    (* Grouped files into {n} chunks. *)
  | ErrorDownloading (e : exn) (* Error downloading files: {e} *).

Record World : Type := {
  cwd : string;
  nodes : gmap (list string) node;
  io_trace : list io_event;
  stdout : list line
}.

(** *** Computations over the world

    [M A] runs in a world and returns a value or raises; either way it
    leaves a world behind. *)
Definition M (A : Type) : Type := World -> try_ A * World.

Definition ret {A} (a : A) : M A := fun w => (inr a, w).

Definition raise {A} (e : exn) : M A := fun w => (inl e, w).

Definition bind {A B} (m : M A) (k : A -> M B) : M B :=
  fun w =>
    match m w with
    | (inl e, w') => (inl e, w')
    | (inr a, w') => k a w'
    end.

#[global] Instance M_ret : MRet M := @ret.
#[global] Instance M_bind : MBind M := fun A B k m => bind m k.

(** A pure computation that may raise, run inside [M]. *)
Definition lift {A} (r : try_ A) : M A := fun w => (r, w).

Definition get_cwd : M string := fun w => (inr (cwd w), w).

Definition with_event (ev : io_event) (w : World) : World :=
  {| cwd := cwd w; nodes := nodes w; io_trace := io_trace w ++ [ev];
     stdout := stdout w |}.

Definition with_line (l : line) (w : World) : World :=
  {| cwd := cwd w; nodes := nodes w; io_trace := io_trace w;
     stdout := stdout w ++ [l] |}.

Definition with_nodes (m : gmap (list string) node) (w : World) : World :=
  {| cwd := cwd w; nodes := m; io_trace := io_trace w; stdout := stdout w |}.

Definition emit (ev : io_event) : M unit :=
  fun w => (inr tt, with_event ev w).

Definition print (l : line) : M unit :=
  fun w => (inr tt, with_line l w).

Definition set_nodes (f : gmap (list string) node -> gmap (list string) node)
    : M unit :=
  fun w => (inr tt, with_nodes (f (nodes w)) w).

(** *** File-system calls *)

(** The key a path names in world [w]. *)
Definition resolve (w : World) (path : string) : list string :=
  posixpath.abs_comps (cwd w) path.

(** The node at a key; the root is a directory. *)
Definition node_at (w : World) (key : list string) : option node :=
  match key with
  | [] => Some Dir
  | _ => nodes w !! key
  end.

(** [os.path.exists(path)] and [os.path.isdir(path)] *)
Definition path_exists (w : World) (path : string) : bool :=
  negb (String.eqb path EmptyString)
  && match node_at w (resolve w path) with Some _ => true | None => false end.

Definition path_isdir (w : World) (path : string) : bool :=
  negb (String.eqb path EmptyString)
  && match node_at w (resolve w path) with Some Dir => true | _ => false end.

(** The content of the regular file at [path], if there is one. *)
Definition read_file (w : World) (path : string) : option (list ascii) :=
  match node_at w (resolve w path) with
  | Some (File content) => Some content
  | _ => None
  end.

(** The keys of the ancestors of [key] and of [key] itself, outermost
    first, without the root. *)
Definition key_chain (key : list string) : list (list string) :=
  map (fun n => firstn n key) (seq 1 (length key)).

(** Creating the directories of a chain, outermost first: a missing one is
    created, an existing directory is kept, a regular file in the way
    raises and leaves in place what was created before it. *)
Fixpoint make_chain (name : string) (chain : list (list string))
    (m : gmap (list string) node) : try_ unit * gmap (list string) node :=
  match chain with
  | [] => (inr tt, m)
  | key :: rest =>
      match m !! key with
      | None => make_chain name rest (<[key := Dir]> m)
      | Some Dir => make_chain name rest m
      | Some (File _) =>
          (inl (match rest with
                | [] => FileExistsError name
                | _ => NotADirectoryError name
                end), m)
      end
  end.

(** [os.makedirs(name, exist_ok=True)]: the leaf directory and every
    missing intermediate one.  The empty name is not a path. *)
Definition makedirs (name : string) : M unit :=
  emit (IoMakedirs name);;
  if String.eqb name EmptyString then raise (FileNotFoundError name)
  else
    fun w =>
      let '(r, m) := make_chain name (key_chain (resolve w name)) (nodes w) in
      (r, with_nodes m w).

(** [open(file_name, 'wb')]: creates or truncates the regular file and
    returns its key, which stands for the open file object. *)
Definition open_wb (file_name : string) : M (list string) :=
  emit (IoLocalOpen file_name);;
  (fun w =>
    let key := resolve w file_name in
    if String.eqb file_name EmptyString
    then (inl (FileNotFoundError file_name), w)
    else
      match key, node_at w (removelast key), nodes w !! key with
      | [], _, _ => (inl (IsADirectoryError file_name), w)
      | _, None, _ => (inl (FileNotFoundError file_name), w)
      | _, Some (File _), _ => (inl (NotADirectoryError file_name), w)
      | _, Some Dir, Some Dir => (inl (IsADirectoryError file_name), w)
      | _, Some Dir, Some (File _) =>
          if pystr.endswith_char file_name "/"
          then (inl (NotADirectoryError file_name), w)
          else (inr key, with_nodes (<[key := File []]> (nodes w)) w)
      | _, Some Dir, None =>
          if pystr.endswith_char file_name "/"
          then (inl (IsADirectoryError file_name), w)
          else (inr key, with_nodes (<[key := File []]> (nodes w)) w)
      end) : M (list string).

Definition append_chunk (chunk : list ascii) (n : node) : node :=
  match n with
  | File content => File (content ++ chunk)
  | Dir => Dir
  end.

(** [dest_file.write(chunk)] *)
Definition write (file_name : string) (dest_file : list string)
    (chunk : list ascii) : M unit :=
  emit (IoLocalWrite file_name);;
  set_nodes (alter (append_chunk chunk) dest_file).

(** The first [n] octets of what is left of a stream, and the rest. *)
Fixpoint read_n (n : N) (remaining : list ascii) : list ascii * list ascii :=
  match remaining with
  | [] => ([], [])
  | c :: rest =>
      if (n =? 0)%N then ([], remaining)
      else let '(chunk, rest') := read_n (N.pred n) rest in (c :: chunk, rest')
  end.

(** [source_file.read(n)], the [calls]-th read of the open remote file. *)
Definition read (blob_path : string) (source_file : RemoteFile) (calls : nat)
    (remaining : list ascii) (n : N) : M (list ascii * list ascii) :=
  emit (IoRemoteRead blob_path);;
  match rf_fault source_file with
  | Some (k, e) =>
      if Nat.eqb k calls then raise e else ret (read_n n remaining)
  | None => ret (read_n n remaining)
  end.

(** ** Transfer *)

Section Transfer.
Variable fs : GCSFileSystem.

(** [for chunk in iter(lambda: source_file.read(1024 * 1024), b''):
       dest_file.write(chunk)]

    Every chunk but the last, empty one takes at least one octet off the
    stream, so [fuel] larger than the length of what is left is never used
    up. *)
Fixpoint copy_chunks (fuel : nat) (blob_path destination_file_name : string)
    (source_file : RemoteFile) (calls : nat) (remaining : list ascii)
    (dest_file : list string) : M unit :=
  match fuel with
  | O => raise (OSError "read loop out of fuel")
  | S fuel' =>
      '(chunk, rest) ← read blob_path source_file calls remaining (1024 * 1024);
      match chunk with
      | [] => ret tt
      | _ :: _ =>
          write destination_file_name dest_file chunk;;
          copy_chunks fuel' blob_path destination_file_name source_file
            (S calls) rest dest_file
      end
  end.

Definition download_blob (blob_path destination_file_name : string) : M unit :=
  emit (IoRemoteOpen blob_path);;
  source_file ← lift (fs_open_rb fs blob_path);
  dest_file ← open_wb destination_file_name;
  copy_chunks (S (length (rf_content source_file)))
    blob_path destination_file_name source_file 0 (rf_content source_file)
    dest_file.

(** The local file name of a blob:
    [os.path.join(destination_folder,
                  os.path.relpath(blob, start=f'{bucket_name}/'))]. *)
Definition destination_of (cwd bucket_name destination_folder blob : string)
    : try_ string :=
  match posixpath.relpath cwd blob (bucket_name ++ "/")%string with
  | inl e => inl e
  | inr relative_path => inr (posixpath.join destination_folder relative_path)
  end.

(** The body of the loop of [download_group]. *)
Definition download_one (bucket_name destination_folder blob : string)
    : M unit :=
  cwd ← get_cwd;
  destination_file_name ←
    lift (destination_of cwd bucket_name destination_folder blob);
  makedirs (posixpath.dirname destination_file_name);;
  download_blob blob destination_file_name.

Fixpoint download_group (bucket_name : string) (blobs : list string)
    (destination_folder : string) : M unit :=
  match blobs with
  | [] => ret tt
  | blob :: rest =>
      download_one bucket_name destination_folder blob;;
      download_group bucket_name rest destination_folder
  end.

End Transfer.

(** *** What a computation leaves in place

    [kept_except skip w w']: going from [w] to [w'] the working directory
    and the printed output are the same, no directory is removed or
    replaced, and every regular file other than the one at key [skip] is
    there with the same content.  Nothing is rolled back or deleted. *)
Definition kept_except (skip : option (list string)) (w w' : World) : Prop :=
  (cwd w' = cwd w /\ stdout w' = stdout w)
  /\ (forall k, nodes w !! k = Some Dir -> nodes w' !! k = Some Dir)
  /\ (forall k c, skip <> Some k ->
                  nodes w !! k = Some (File c) ->
                  nodes w' !! k = Some (File c)).

(** [m] takes every world to one related to it by [R], whether it returns
    or raises. *)
Definition preserves {A} (R : World -> World -> Prop) (m : M A) : Prop :=
  forall w, R w (snd (m w)).

(** The key of the local file of a blob. *)
Definition dest_key (w : World) (bucket_name destination_folder blob : string)
    : option (list string) :=
  match destination_of (cwd w) bucket_name destination_folder blob with
  | inl _ => None
  | inr destination_file_name => Some (resolve w destination_file_name)
  end.

(** ** Worker pool ([concurrent.futures.ThreadPoolExecutor])

    [executor.submit] queues one task per group and returns its future; the
    pool's worker threads take tasks off the queue in submission order, at
    most [num_threads] at a time, and run [download_group] on them; the main
    thread takes each future as it completes ([as_completed]) and calls
    [future.result()] inside [try ... except Exception], printing the error
    of a failed one.

    Threads interleave.  A schedule is a list of actions, each naming the
    future it concerns; one action of a worker is the transfer of one
    object, one action of the main thread is the collection of one
    completed future. *)
Inductive future : Type :=
  | Pending (group : list string)
  | Running (attempted todo : list string)
  | Finished (attempted : list string) (result : try_ unit).

Record pool : Type := {
  pool_world : World;
  futures : list future;
  collected : list nat
}.

Inductive action : Type :=
  | Start (i : nat)    (* a free worker takes task [i] off the queue *)
  | Work (i : nat)     (* the worker of task [i] transfers its next object,
                          or returns when none is left *)
  | Collect (i : nat). (* the main thread handles completed future [i] *)

Definition is_pending (f : future) : bool :=
  match f with Pending _ => true | _ => false end.

Definition is_running (f : future) : bool :=
  match f with Running _ _ => true | _ => false end.

Definition running_count (fs : list future) : nat :=
  length (filter (fun f => is_running f = true) fs).

(** The [except Exception as e: print(...)] of the collecting loop. *)
Definition report (result : try_ unit) (w : World) : World :=
  match result with
  | inl e => with_line (ErrorDownloading e) w
  | inr _ => w
  end.

(** [futures.append(executor.submit(download_group, ...))] for each group. *)
Definition pool_init (grouped_blobs : list (list string)) (w : World) : pool :=
  {| pool_world := w; futures := map Pending grouped_blobs; collected := [] |}.

Section Scheduler.
Variable fs : GCSFileSystem.
Variables bucket_name destination_folder : string.
Variable num_threads : Z.

(** What one action does to the pool; [None] when the action is not
    enabled. *)
Definition pool_do (a : action) (p : pool) : option pool :=
  match a with
  | Start i =>
      match futures p !! i with
      | Some (Pending group) =>
          if forallb (fun f => negb (is_pending f)) (take i (futures p))
             && (Z.of_nat (running_count (futures p)) <? num_threads)%Z
          then Some {| pool_world := pool_world p;
                       futures := <[i := Running [] group]> (futures p);
                       collected := collected p |}
          else None
      | _ => None
      end
  | Work i =>
      match futures p !! i with
      | Some (Running attempted (blob :: todo)) =>
          match download_one fs bucket_name destination_folder blob
                  (pool_world p) with
          | (inr _, w') =>
              Some {| pool_world := w';
                      futures := <[i := Running (attempted ++ [blob]) todo]>
                                   (futures p);
                      collected := collected p |}
          | (inl e, w') =>
              Some {| pool_world := w';
                      futures := <[i := Finished (attempted ++ [blob]) (inl e)]>
                                   (futures p);
                      collected := collected p |}
          end
      | Some (Running attempted []) =>
          Some {| pool_world := pool_world p;
                  futures := <[i := Finished attempted (inr tt)]> (futures p);
                  collected := collected p |}
      | _ => None
      end
  | Collect i =>
      match futures p !! i with
      | Some (Finished _ result) =>
          if bool_decide (i ∈ collected p) then None
          else Some {| pool_world := report result (pool_world p);
                       futures := futures p;
                       collected := collected p ++ [i] |}
      | _ => None
      end
  end.


Fixpoint pool_run (schedule : list action) (p : pool) : option pool :=
  match schedule with
  | [] => Some p
  | a :: rest =>
      match pool_do a p with
      | Some p' => pool_run rest p'
      | None => None
      end
  end.

(** The [with] block is left, and [download_all_files] returns, once the
    main thread has taken every future. *)
Definition pool_complete (p : pool) : Prop :=
  forall i f, futures p !! i = Some f -> i ∈ collected p.

(** What a finished task has done with its group: every object when it
    returned; when it raised, the objects up to and including the one whose
    transfer raised that error. *)
Definition group_outcome (group attempted : list string) (result : try_ unit)
    : Prop :=
  match result with
  | inr _ => attempted = group
  | inl e =>
      exists before blob todo w w',
        attempted = before ++ [blob]
        /\ group = attempted ++ todo
        /\ download_one fs bucket_name destination_folder blob w = (inl e, w')
  end.

(** The state of the task of a group. *)
Definition future_of (group : list string) (f : future) : Prop :=
  match f with
  | Pending g => g = group
  | Running attempted todo => group = attempted ++ todo
  | Finished attempted result => group_outcome group attempted result
  end.

(** The steps a task still has to take, collection aside. *)
Definition task_work (f : future) : nat :=
  match f with
  | Pending group => length group + 2
  | Running _ todo => length todo + 1
  | Finished _ _ => 0
  end.

Definition pool_work (p : pool) : nat :=
  sum_list_with task_work (futures p).

(** The error lines the main thread has printed, in the order printed. *)
Definition error_lines (p : pool) : list line :=
  omap (fun i => match futures p !! i with
                 | Some (Finished _ (inl e)) => Some (ErrorDownloading e)
                 | _ => None
                 end) (collected p).

(** What holds of every pool reached from [pool_init grouped_blobs w0]. *)
Record pool_inv (grouped_blobs : list (list string)) (w0 : World) (p : pool)
    : Prop := {
  inv_futures :
    Forall2 future_of grouped_blobs (futures p);
  inv_collected_finished :
    forall i, i ∈ collected p ->
      exists attempted result, futures p !! i = Some (Finished attempted result);
  inv_collected_once : NoDup (collected p);
  inv_stdout : stdout (pool_world p) = stdout w0 ++ error_lines p
}.


(** A completed future that carries the outcome of its group. *)
Definition finished_for (group : list string) (f : future) : Prop :=
  exists attempted result,
    f = Finished attempted result /\ group_outcome group attempted result.

End Scheduler.

(** ** The driver *)

Section Driver.
Variable check_bracketed_netloc : string -> try_ unit.
(** The handle that [gcsfs.GCSFileSystem()] returns. *)
Variable fs : GCSFileSystem.

Definition os_path_exists (path : string) : M bool :=
  fun w => (inr (path_exists w path), w).

(** [os.makedirs(name)], with the default [exist_ok=False]. *)
Definition makedirs_new (name : string) : M unit :=
  there ← os_path_exists name;
  if there : bool
  then emit (IoMakedirs name);; (raise (FileExistsError name) : M unit)
  else makedirs name.

(** [download_all_files] up to the [with] block: the container and the
    groups to hand to the pool. *)
Definition download_all_files_setup
    (gcs_path destination_folder : string) (max_size_mb : Z)
    : M (string * list (list string)) :=
  there ← os_path_exists destination_folder;
  (if there : bool then mret tt else makedirs_new destination_folder);;
  '(bucket_name, prefix) ← lift (parse_gcs_path check_bracketed_netloc gcs_path);
  blobs ← lift (list_blobs fs bucket_name prefix);
  print (FoundFiles (length blobs));;
  grouped_blobs ← lift (group_blobs_by_size fs blobs max_size_mb);
  print (GroupedChunks (length grouped_blobs));;
  mret (bucket_name, grouped_blobs).

(** [download_all_files gcs_path destination_folder max_size_mb num_threads
    w r w']: called in world [w], the function can end with [r] in world
    [w'].  It raises what the setup raises, or the [ValueError] of a pool
    without workers; otherwise it returns once a schedule of the pool has
    completed. *)
Inductive download_all_files
    (gcs_path destination_folder : string) (max_size_mb num_threads : Z)
    : World -> try_ unit -> World -> Prop :=
  | daf_setup_raises w e w' :
      download_all_files_setup gcs_path destination_folder max_size_mb w
      = (inl e, w') ->
      download_all_files gcs_path destination_folder max_size_mb num_threads
        w (inl e) w'
  | daf_no_workers w bucket_name grouped_blobs w' :
      download_all_files_setup gcs_path destination_folder max_size_mb w
      = (inr (bucket_name, grouped_blobs), w') ->
      num_threads <= 0 ->
      download_all_files gcs_path destination_folder max_size_mb num_threads
        w (inl (ValueError "max_workers must be greater than 0")) w'
  | daf_returns w bucket_name grouped_blobs w1 schedule p :
      download_all_files_setup gcs_path destination_folder max_size_mb w
      = (inr (bucket_name, grouped_blobs), w1) ->
      0 < num_threads ->
      pool_run fs bucket_name destination_folder num_threads schedule
        (pool_init grouped_blobs w1) = Some p ->
      pool_complete p ->
      download_all_files gcs_path destination_folder max_size_mb num_threads
        w (inr tt) (pool_world p).

End Driver.
(** ** Fixtures used by the examples and instances below *)

(** Sizes in bytes of a small listing; any other path is not found. *)
Definition MiB : Z := 1024 * 1024.

Definition demo_sizes : list (string * Z) :=
  [ ("bkt/big", 3 * MiB); ("bkt/a", MiB); ("bkt/b", MiB); ("bkt/c", 2 * MiB);
    ("bkt/pre/a.txt", 5) ].

Fixpoint assoc {A} (k : string) (l : list (string * A)) : option A :=
  match l with
  | [] => None
  | (k', v) :: l' => if String.eqb k k' then Some v else assoc k l'
  end.

Definition demo_info (p : string) : try_ Z :=
  match assoc p demo_sizes with
  | Some s => inr s
  | None => inl (FileNotFoundError p)
  end.


Definition demo_ls (p : string) : try_ (list string) :=
  inr (filter (fun b => String.prefix p b) (map fst demo_sizes)).

(** An object's bytes are the text of its own path; the objects [bkt/flaky]
    and [bkt//a] open, but their first read breaks. *)
Definition demo_open (p : string) : try_ RemoteFile :=
  if String.eqb p "bkt/flaky" || String.eqb p "bkt//a"
  then inr {| rf_content := list_ascii_of_string p;
              rf_fault := Some (0%nat, OSError "connection reset") |}
  else
    match assoc p demo_sizes with
    | Some _ =>
        inr {| rf_content := list_ascii_of_string p; rf_fault := None |}
    | None => inl (FileNotFoundError p)
    end.

Definition demo_fs : GCSFileSystem :=
  {| fs_ls := demo_ls; fs_info_size := demo_info; fs_open_rb := demo_open |}.

(** A machine whose working directory is [/work] and that has an empty
    directory [/data]. *)
Definition demo_world : World :=
  {| cwd := "/work";
     nodes := <[ ["data"] := Dir ]> (<[ ["work"] := Dir ]> ∅);
     io_trace := [];
     stdout := [] |}.

(** A group of four objects, the third of which breaks while it is read. *)
Definition demo_group : list string :=
  ["bkt/pre/a.txt"; "bkt/a"; "bkt/flaky"; "bkt/b"].

(** The world after the first two objects of [demo_group] are transferred
    to [/data], and after the failing third step. *)
Definition demo_world_after_two : World :=
  snd (download_group demo_fs "bkt" (take 2 demo_group) "/data" demo_world).

Definition demo_world_after_failure : World :=
  snd (download_one demo_fs "bkt" "/data" "bkt/flaky" demo_world_after_two).

(** The world after [bkt/a] is transferred to [/data], and after the
    failing transfer of [bkt//a], which has the same local file. *)
Definition demo_world_after_one : World :=
  snd (download_group demo_fs "bkt" ["bkt/a"] "/data" demo_world).

Definition demo_world_after_clash : World :=
  snd (download_one demo_fs "bkt" "/data" "bkt//a" demo_world_after_one).

(** The world after the one object under the listing prefix [bkt/pre] is
    transferred to [/data]. *)
Definition demo_world_after_prefix : World :=
  snd (download_group demo_fs "bkt" ["bkt/pre/a.txt"] "/data" demo_world).

(** Two groups for a pool with one worker; the first fails. *)
Definition demo_groups : list (list string) := [["bkt/flaky"]; ["bkt/a"]].

Definition demo_schedule : list action :=
  [Start 0; Work 0; Collect 0; Start 1; Work 1; Work 1; Collect 1].

Definition demo_pool_final : pool :=
  default (pool_init [] demo_world)
    (pool_run demo_fs "bkt" "/data" 1 demo_schedule
       (pool_init demo_groups demo_world)).

(** ** Further notions used in the statements below *)

(** [chained R l]: every element of [l] is related to its successor. *)
Fixpoint chained {A} (R : A -> A -> Prop) (l : list A) : Prop :=
  match l with
  | x :: (y :: _) as rest => R x y /\ chained R rest
  | _ => True
  end.

(** The first object of [next] did not fit into [group]: the total of
    [group] plus the size of that object is over the budget. *)
Definition overflows (fs : GCSFileSystem) (max_size_bytes : Z)
    (group next : list string) : Prop :=
  exists total blob size,
    group_total fs group = inr total
    /\ head next = Some blob
    /\ get_blob_size fs blob = inr size
    /\ max_size_bytes < total + size.

(** Tab, line feed and carriage return: the characters [urlsplit] removes
    from a URL. *)
Definition is_unsafe_byte (c : ascii) : bool :=
  Ascii.eqb c "009" || Ascii.eqb c "010" || Ascii.eqb c "013".

(** [free_of stop s]: no character of [s] is in [stop] or is one of the
    removed characters. *)
Definition free_of (stop s : string) : bool :=
  pystr.all_chars
    (fun c => negb (pystr.contains c stop) && negb (is_unsafe_byte c)) s.

(** The first two lines of [download_all_files]:
    [if not os.path.exists(destination_folder):
       os.makedirs(destination_folder)] *)
Definition ensure_folder (destination_folder : string) : M unit :=
  there ← os_path_exists destination_folder;
  if there : bool then mret tt else makedirs_new destination_folder.

(** A store whose listing is stale: it still names [bkt/gone], an object
    that no longer exists when its size is looked up. *)
Definition stale_ls (p : string) : try_ (list string) :=
  inr ["bkt/a"; "bkt/gone"].

Definition stale_fs : GCSFileSystem :=
  {| fs_ls := stale_ls; fs_info_size := demo_info; fs_open_rb := demo_open |}.

(** The objects a task has finished transferring: those it attempted, less
    the one whose transfer raised. *)
Definition transferred (f : future) : list string :=
  match f with
  | Pending _ => []
  | Running attempted _ => attempted
  | Finished attempted (inr _) => attempted
  | Finished attempted (inl _) => removelast attempted
  end.

(** Object [blob] is in its local file in world [w]: the file that
    [download_group], started in a process whose working directory is that
    of [w0], writes it to holds the object's bytes. *)
Definition on_disk (fs : GCSFileSystem) (bucket_name destination_folder : string)
    (w0 w : World) (blob : string) : Prop :=
  exists destination_file_name src,
    destination_of (cwd w0) bucket_name destination_folder blob
    = inr destination_file_name
    /\ fs_open_rb fs blob = inr src
    /\ resolve w0 destination_file_name <> []
    /\ nodes w !! resolve w0 destination_file_name
       = Some (File (rf_content src)).

(** What holds of the files of every pool reached from
    [pool_init grouped_blobs w0] when no two objects share a local file. *)
Definition disk_inv (fs : GCSFileSystem)
    (bucket_name destination_folder : string) (w0 : World) (p : pool) : Prop :=
  cwd (pool_world p) = cwd w0
  /\ forall i f blob,
       futures p !! i = Some f ->
       In blob (transferred f) ->
       on_disk fs bucket_name destination_folder w0 (pool_world p) blob.

(** A run of the driver on the whole fixture store with a budget of 2 MiB
    and two workers: the groups are [[]], [bkt/big], [bkt/a; bkt/b],
    [bkt/c] and [bkt/pre/a.txt]. *)
Definition demo_driver_setup : try_ (string * list (list string)) * World :=
  download_all_files_setup (fun _ => inr tt) demo_fs "gs://bkt/" "/data" 2
    demo_world.

Definition demo_driver_schedule : list action :=
  [Start 0; Start 1; Work 0; Work 1; Start 2; Collect 0; Work 2; Work 1;
   Start 3; Work 3; Work 2; Collect 1; Work 2; Start 4; Work 3; Work 4;
   Collect 3; Collect 2; Work 4; Collect 4].

Definition demo_driver_final : pool :=
  default (pool_init [] demo_world)
    (pool_run demo_fs "bkt" "/data" 2 demo_driver_schedule
       (pool_init [[]; ["bkt/big"]; ["bkt/a"; "bkt/b"]; ["bkt/c"];
                   ["bkt/pre/a.txt"]]
          (snd demo_driver_setup))).
(* ===================================================================== *)
(** * Properties *)
(* ===================================================================== *)

(** ** Grouping engine *)

Section Grouping.
Variable fs : GCSFileSystem.
Variable max_size_bytes : Z.

Lemma members_group_step st blob blob_size :
  members (group_step max_size_bytes st blob blob_size)
  = members st ++ [blob].
Proof.
  unfold members, group_step.
  destruct (current_size st + blob_size >? max_size_bytes); simpl.
  - rewrite concat_app. simpl. rewrite !app_nil_r. reflexivity.
  - rewrite app_assoc. reflexivity.
Qed.

Lemma members_group_loop blobs : forall st st',
  group_loop fs max_size_bytes blobs st = inr st' ->
  members st' = members st ++ blobs.
Proof.
  induction blobs as [|blob rest IH]; intros st st' H; simpl in H.
  - inversion H; subst. rewrite app_nil_r. reflexivity.
  - destruct (get_blob_size fs blob) as [e|blob_size]; [discriminate|].
    apply IH in H. rewrite H, members_group_step, <- app_assoc.
    reflexivity.
Qed.

Lemma concat_group_finish st : concat (group_finish st) = members st.
Proof.
  unfold group_finish, members.
  destruct (current_group st) as [|b g].
  - rewrite app_nil_r. reflexivity.
  - rewrite concat_app. simpl. rewrite app_nil_r. reflexivity.
Qed.

(** The loop returns as soon as every size lookup succeeds. *)
Lemma group_loop_total blobs : forall st,
  Forall (fun b => is_ok (get_blob_size fs b) = true) blobs ->
  exists st', group_loop fs max_size_bytes blobs st = inr st'.
Proof.
  induction blobs as [|blob rest IH]; intros st Hok; simpl.
  - eauto.
  - inversion Hok as [|? ? Hb Hrest]; subst.
    destruct (get_blob_size fs blob) as [e|blob_size]; [discriminate|].
    apply IH; assumption.
Qed.

(** The loop raises the error of the first failing lookup. *)
Lemma group_loop_raises pre blob post e : forall st,
  Forall (fun b => is_ok (get_blob_size fs b) = true) pre ->
  get_blob_size fs blob = inl e ->
  group_loop fs max_size_bytes (pre ++ blob :: post) st = inl e.
Proof.
  induction pre as [|b pre IH]; intros st Hok Hbad; simpl.
  - rewrite Hbad. reflexivity.
  - inversion Hok as [|? ? Hb Hrest]; subst.
    destruct (get_blob_size fs b) as [e'|s]; [discriminate|].
    apply IH; assumption.
Qed.

(** Closed groups are never reopened: the loop only appends to them. *)
Lemma group_loop_grouped_prefix blobs : forall st st',
  group_loop fs max_size_bytes blobs st = inr st' ->
  exists more, grouped_blobs st' = grouped_blobs st ++ more.
Proof.
  induction blobs as [|blob rest IH]; intros st st' H; simpl in H.
  - inversion H; subst. exists []. rewrite app_nil_r. reflexivity.
  - destruct (get_blob_size fs blob) as [e|blob_size]; [discriminate|].
    apply IH in H. destruct H as [more H]. rewrite H.
    unfold group_step.
    destruct (current_size st + blob_size >? max_size_bytes); simpl.
    + exists ([current_group st] ++ more). rewrite app_assoc. reflexivity.
    + exists more. reflexivity.
Qed.

Lemma group_total_app g blob t s :
  group_total fs g = inr t ->
  get_blob_size fs blob = inr s ->
  group_total fs (g ++ [blob]) = inr (t + s).
Proof.
  revert t. induction g as [|b g IH]; intros t Ht Hs; simpl in *.
  - rewrite Hs. inversion Ht; subst. f_equal. lia.
  - destruct (get_blob_size fs b) as [e|sb]; [discriminate|].
    destruct (group_total fs g) as [e|tg]; [discriminate|].
    inversion Ht; subst. rewrite (IH tg eq_refl Hs). f_equal. lia.
Qed.

Lemma bounded_group_step st blob s :
  bounded fs max_size_bytes st ->
  get_blob_size fs blob = inr s ->
  s <= max_size_bytes ->
  bounded fs max_size_bytes (group_step max_size_bytes st blob s)
  /\ current_size (group_step max_size_bytes st blob s) <= max_size_bytes.
Proof.
  intros (Htot & Hclosed & Hopen) Hs Hle.
  unfold group_step, bounded.
  destruct (Z.gtb_spec (current_size st + s) max_size_bytes) as [Hgt|Hfit];
    simpl.
  - assert (Hcur : current_size st <= max_size_bytes).
    { destruct Hopen as [Hnil|Hcs]; [|exact Hcs].
      rewrite Hnil in Htot. simpl in Htot. inversion Htot. lia. }
    split; [|lia]. split; [|split].
    + simpl. unfold get_blob_size in *. rewrite Hs. f_equal. lia.
    + apply Forall_app. split; [exact Hclosed|].
      constructor; [|constructor]. exists (current_size st). auto.
    + right. lia.
  - split; [|lia]. split; [|split].
    + apply group_total_app; assumption.
    + exact Hclosed.
    + right. lia.
Qed.

Lemma bounded_group_loop blobs : forall st st',
  bounded fs max_size_bytes st ->
  Forall (fun b => exists s, get_blob_size fs b = inr s
                             /\ s <= max_size_bytes) blobs ->
  group_loop fs max_size_bytes blobs st = inr st' ->
  bounded fs max_size_bytes st'.
Proof.
  induction blobs as [|blob rest IH]; intros st st' Hb Hsz H; simpl in H.
  - inversion H; subst. exact Hb.
  - inversion Hsz as [|? ? (s & Hs & Hle) Hrest]; subst.
    rewrite Hs in H.
    eapply IH; [|exact Hrest|exact H].
    apply bounded_group_step; assumption.
Qed.

Lemma bounded_group_finish st :
  bounded fs max_size_bytes st -> Forall (within_budget fs max_size_bytes) (group_finish st).
Proof.
  intros (Htot & Hclosed & Hopen). unfold group_finish.
  destruct (current_group st) as [|b g] eqn:Hg; [exact Hclosed|].
  apply Forall_app. split; [exact Hclosed|].
  constructor; [|constructor].
  exists (current_size st). split; [exact Htot|].
  destruct Hopen as [Hnil|Hcs]; [discriminate|exact Hcs].
Qed.


Lemma loose_group_step st blob s :
  0 <= max_size_bytes -> 0 <= s ->
  loose_bounded fs max_size_bytes st ->
  get_blob_size fs blob = inr s ->
  loose_bounded fs max_size_bytes (group_step max_size_bytes st blob s).
Proof.
  intros Hmax Hs (Htot & Hclosed & Hopen) Hsize.
  unfold group_step, loose_bounded.
  destruct (Z.gtb_spec (current_size st + s) max_size_bytes) as [Hgt|Hfit];
    simpl.
  - split; [|split].
    + unfold get_blob_size in *. rewrite Hsize. f_equal. lia.
    + apply Forall_app. split; [exact Hclosed|].
      constructor; [|constructor].
      destruct Hopen as [Hin|(b & Hb & Hover)].
      * left. exists (current_size st). auto.
      * right. exists b, (current_size st). rewrite Hb in *.
        simpl in Htot. unfold get_blob_size in *.
        destruct (fs_info_size fs b) as [e|sb]; [discriminate|].
        inversion Htot. repeat split; try reflexivity; try lia.
        f_equal. lia.
    + destruct (Z_le_gt_dec s max_size_bytes) as [Hle|Hov].
      * left. lia.
      * right. exists blob. split; [reflexivity|lia].
  - split; [|split].
    + apply group_total_app; assumption.
    + exact Hclosed.
    + left. lia.
Qed.

Lemma loose_group_loop blobs : forall st st',
  0 <= max_size_bytes ->
  loose_bounded fs max_size_bytes st ->
  Forall (fun b => exists s, get_blob_size fs b = inr s /\ 0 <= s) blobs ->
  group_loop fs max_size_bytes blobs st = inr st' ->
  loose_bounded fs max_size_bytes st'.
Proof.
  induction blobs as [|blob rest IH]; intros st st' Hmax Hb Hsz H; simpl in H.
  - inversion H; subst. exact Hb.
  - inversion Hsz as [|? ? (s & Hs & Hpos) Hrest]; subst.
    rewrite Hs in H.
    eapply IH; [exact Hmax| |exact Hrest|exact H].
    apply loose_group_step; assumption.
Qed.

Lemma loose_group_finish st :
  loose_bounded fs max_size_bytes st ->
  Forall (budget_or_oversized fs max_size_bytes) (group_finish st).
Proof.
  intros (Htot & Hclosed & Hopen). unfold group_finish.
  destruct (current_group st) as [|b g] eqn:Hg; [exact Hclosed|].
  apply Forall_app. split; [exact Hclosed|].
  constructor; [|constructor].
  destruct Hopen as [Hin|(b' & Hb & Hover)].
  - left. exists (current_size st). auto.
  - right. exists b', (current_size st). inversion Hb; subst.
    simpl in Htot. unfold get_blob_size in *.
    destruct (fs_info_size fs b') as [e|sb]; [discriminate|].
    inversion Htot. repeat split; try lia. f_equal. lia.
Qed.

End Grouping.

(** *** The pass of the code against the greedy pass of the design document *)

Section Greedy.
Variable fs : GCSFileSystem.
Variable max_size_bytes : Z.

Lemma group_step_current_nonempty st blob s :
  current_group (group_step max_size_bytes st blob s) <> [].
Proof.
  unfold group_step.
  destruct (current_size st + s >? max_size_bytes); simpl.
  - discriminate.
  - intros H. apply app_eq_nil in H. destruct H; discriminate.
Qed.

Lemma greedy_step_nonempty st object s :
  current_group st <> [] ->
  greedy_step max_size_bytes st object s
  = group_step max_size_bytes st object s.
Proof.
  intros Hne. unfold greedy_step, group_step.
  rewrite bool_decide_eq_false_2 by exact Hne.
  rewrite andb_true_r. reflexivity.
Qed.

(** Once the open group has a member, the two passes take the same steps. *)
Lemma greedy_loop_nonempty objects : forall st,
  current_group st <> [] ->
  greedy_loop fs max_size_bytes objects st
  = group_loop fs max_size_bytes objects st.
Proof.
  induction objects as [|object rest IH]; intros st Hne; simpl.
  - reflexivity.
  - destruct (get_blob_size fs object) as [e|s]; [reflexivity|].
    rewrite greedy_step_nonempty by exact Hne.
    apply IH, group_step_current_nonempty.
Qed.

Lemma group_step_push_front g st blob s :
  group_step max_size_bytes (push_front g st) blob s
  = push_front g (group_step max_size_bytes st blob s).
Proof.
  unfold group_step, push_front; simpl.
  destruct (current_size st + s >? max_size_bytes); reflexivity.
Qed.

Lemma group_loop_push_front g blobs : forall st,
  group_loop fs max_size_bytes blobs (push_front g st)
  = try_map (push_front g) (group_loop fs max_size_bytes blobs st).
Proof.
  induction blobs as [|blob rest IH]; intros st; simpl.
  - reflexivity.
  - destruct (get_blob_size fs blob) as [e|s]; [reflexivity|].
    rewrite group_step_push_front. apply IH.
Qed.

Lemma group_finish_push_front g st :
  group_finish (push_front g st) = g :: group_finish st.
Proof.
  unfold group_finish, push_front; simpl.
  destruct (current_group st); reflexivity.
Qed.

(** The greedy pass never closes an empty group. *)
Lemma greedy_step_no_empty st object s :
  Forall (fun g => g <> []) (grouped_blobs st) ->
  Forall (fun g => g <> [])
         (grouped_blobs (greedy_step max_size_bytes st object s)).
Proof.
  intros H. unfold greedy_step.
  destruct (current_size st + s >? max_size_bytes); simpl; [|exact H].
  destruct (bool_decide_reflect (current_group st = [])) as [Hnil|Hne];
    simpl; [exact H|].
  apply Forall_app. split; [exact H|]. constructor; [exact Hne|constructor].
Qed.

Lemma greedy_loop_no_empty objects : forall st st',
  Forall (fun g => g <> []) (grouped_blobs st) ->
  greedy_loop fs max_size_bytes objects st = inr st' ->
  Forall (fun g => g <> []) (grouped_blobs st').
Proof.
  induction objects as [|object rest IH]; intros st st' Hst H; simpl in H.
  - inversion H; subst. exact Hst.
  - destruct (get_blob_size fs object) as [e|s]; [discriminate|].
    eapply IH; [|exact H]. apply greedy_step_no_empty, Hst.
Qed.

Lemma greedy_group_no_empty objects groups :
  greedy_group fs objects max_size_bytes = inr groups ->
  Forall (fun g => g <> []) groups.
Proof.
  unfold greedy_group. intros H.
  destruct (greedy_loop fs max_size_bytes objects group_init) as [e|st] eqn:Hl;
    [discriminate|].
  inversion H; subst. apply greedy_loop_no_empty in Hl; [|constructor].
  unfold group_finish.
  destruct (current_group st) eqn:Hc; [exact Hl|].
  apply Forall_app. split; [exact Hl|].
  constructor; [discriminate|constructor].
Qed.

End Greedy.

(** The code and the greedy pass differ exactly by a leading empty group,
    and exactly when the first object alone is over the budget. *)
Lemma group_blobs_by_size_vs_greedy fs blobs max_size_mb :
  group_blobs_by_size fs blobs max_size_mb
  = match blobs with
    | blob :: _ =>
        match get_blob_size fs blob with
        | inr s =>
            if s >? max_size_mb * 1024 * 1024
            then try_map (cons [])
                   (greedy_group fs blobs (max_size_mb * 1024 * 1024))
            else greedy_group fs blobs (max_size_mb * 1024 * 1024)
        | inl e => inl e
        end
    | [] => inr []
    end.
Proof.
  unfold group_blobs_by_size, greedy_group.
  destruct blobs as [|blob rest]; [reflexivity|]. simpl.
  destruct (get_blob_size fs blob) as [e|s]; [reflexivity|].
  rewrite greedy_loop_nonempty
    by (unfold greedy_step; simpl; rewrite andb_false_r; discriminate).
  unfold group_step, greedy_step; simpl. rewrite andb_false_r.
  change (0 + s) with s.
  destruct (s >? max_size_mb * 1024 * 1024); simpl; [|reflexivity].
  pose proof (group_loop_push_front fs (max_size_mb * 1024 * 1024) [] rest
                {| grouped_blobs := []; current_group := [blob];
                   current_size := s |}) as Hpush.
  unfold push_front in Hpush at 1; simpl in Hpush.
  rewrite !Z.add_0_l, Hpush. clear Hpush.
  destruct (group_loop fs (max_size_mb * 1024 * 1024) rest _) as [e|st];
    simpl; [reflexivity|].
  rewrite group_finish_push_front. reflexivity.
Qed.

(** *** Statements about [group_blobs_by_size] *)

(** Whenever the grouping returns, the groups concatenate to the input. *)
Lemma group_blobs_by_size_concat fs blobs max_size_mb groups :
  group_blobs_by_size fs blobs max_size_mb = inr groups ->
  concat groups = blobs.
Proof.
  unfold group_blobs_by_size. intros H.
  destruct (group_loop fs (max_size_mb * 1024 * 1024) blobs group_init)
    as [e|st] eqn:Hloop; [discriminate|].
  inversion H; subst.
  rewrite concat_group_finish.
  apply members_group_loop in Hloop. exact Hloop.
Qed.

(** C1. For every input list whose sizes the oracle supplies and every
    budget, [group_blobs_by_size] returns groups, and concatenating them in
    group order and then intra-group order gives back the input list
    exactly: nothing lost, duplicated or reordered. *)
Theorem C1_concat_groups_is_input fs blobs max_size_mb :
  Forall (fun b => is_ok (get_blob_size fs b) = true) blobs ->
  exists groups,
    group_blobs_by_size fs blobs max_size_mb = inr groups
    /\ concat groups = blobs.
Proof.
  intros Hok.
  destruct (group_loop_total fs (max_size_mb * 1024 * 1024) blobs group_init Hok)
    as [st Hst].
  exists (group_finish st). split.
  - unfold group_blobs_by_size. rewrite Hst. reflexivity.
  - eapply group_blobs_by_size_concat.
    unfold group_blobs_by_size. rewrite Hst. reflexivity.
Qed.

Lemma C1_concat_groups_is_input_witness :
  Forall (fun b => is_ok (get_blob_size demo_fs b) = true)
         ["bkt/big"; "bkt/a"; "bkt/b"; "bkt/c"]
  /\ exists groups,
       group_blobs_by_size demo_fs ["bkt/big"; "bkt/a"; "bkt/b"; "bkt/c"] 2
       = inr groups
       /\ concat groups = ["bkt/big"; "bkt/a"; "bkt/b"; "bkt/c"].
Proof.
  assert (H : Forall (fun b => is_ok (get_blob_size demo_fs b) = true)
                     ["bkt/big"; "bkt/a"; "bkt/b"; "bkt/c"])
    by (repeat constructor).
  split; [exact H|].
  exact (C1_concat_groups_is_input demo_fs _ 2 H).
Defined.

(** C2. When the budget is at least the size of every object of the list,
    [group_blobs_by_size] returns groups each of whose total size (the sum
    of its members' sizes) does not exceed the budget.  No object is
    oversized under that assumption, so no exception to the bound occurs.
    The statement does not need the list to be non-empty. *)
Theorem C2_group_totals_within_budget fs blobs max_size_mb :
  Forall (fun b => exists s, get_blob_size fs b = inr s
                             /\ s <= max_size_mb * 1024 * 1024) blobs ->
  exists groups,
    group_blobs_by_size fs blobs max_size_mb = inr groups
    /\ Forall (within_budget fs (max_size_mb * 1024 * 1024)) groups.
Proof.
  intros Hsz.
  assert (Hok : Forall (fun b => is_ok (get_blob_size fs b) = true) blobs).
  { eapply Forall_impl; [exact Hsz|]. intros b (s & Hs & _).
    simpl. rewrite Hs. reflexivity. }
  destruct (group_loop_total fs (max_size_mb * 1024 * 1024) blobs group_init Hok)
    as [st Hst].
  exists (group_finish st). split.
  - unfold group_blobs_by_size. rewrite Hst. reflexivity.
  - apply bounded_group_finish.
    eapply bounded_group_loop; [|exact Hsz|exact Hst].
    unfold bounded, group_init; simpl. auto.
Qed.

Lemma C2_group_totals_within_budget_witness :
  Forall (fun b => exists s, get_blob_size demo_fs b = inr s
                             /\ s <= 2 * 1024 * 1024)
         ["bkt/a"; "bkt/b"; "bkt/c"]
  /\ exists groups,
       group_blobs_by_size demo_fs ["bkt/a"; "bkt/b"; "bkt/c"] 2 = inr groups
       /\ Forall (within_budget demo_fs (2 * 1024 * 1024)) groups.
Proof.
  assert (H : Forall (fun b => exists s, get_blob_size demo_fs b = inr s
                                         /\ s <= 2 * 1024 * 1024)
                     ["bkt/a"; "bkt/b"; "bkt/c"]).
  { repeat constructor.
    - exists MiB. split; [reflexivity|unfold MiB; lia].
    - exists MiB. split; [reflexivity|unfold MiB; lia].
    - exists (2 * MiB). split; [reflexivity|unfold MiB; lia]. }
  split; [exact H|].
  exact (C2_group_totals_within_budget demo_fs _ 2 H).
Defined.

(** Complement to C2, without the assumption on the budget: for sizes and a
    budget that are not negative, a group is over the budget only if it is a
    singleton whose one object is itself over the budget. *)
Lemma group_totals_within_budget_or_oversized fs blobs max_size_mb groups :
  0 <= max_size_mb ->
  Forall (fun b => exists s, get_blob_size fs b = inr s /\ 0 <= s) blobs ->
  group_blobs_by_size fs blobs max_size_mb = inr groups ->
  Forall (budget_or_oversized fs (max_size_mb * 1024 * 1024)) groups.
Proof.
  intros Hmax Hsz. unfold group_blobs_by_size. intros H.
  destruct (group_loop fs (max_size_mb * 1024 * 1024) blobs group_init)
    as [e|st] eqn:Hloop; [discriminate|].
  inversion H; subst.
  apply loose_group_finish.
  eapply loose_group_loop; [lia| |exact Hsz|exact Hloop].
  unfold loose_bounded, group_init; simpl.
  split; [reflexivity|]. split; [constructor|]. left. lia.
Qed.

(** C3. The claim is that [group_blobs_by_size] equals the greedy pass of
    the design document and so never returns an empty group.  At a listing
    of one 3 MiB object and a budget of 1 MiB the code returns an empty
    group followed by the singleton, while the greedy pass returns the
    singleton alone. *)
Theorem C3_code_differs_from_greedy_on_oversized_head :
  group_blobs_by_size demo_fs ["bkt/big"] 1 = inr [[]; ["bkt/big"]]
  /\ greedy_group demo_fs ["bkt/big"] (1 * 1024 * 1024) = inr [["bkt/big"]].
Proof. split; reflexivity. Qed.

(** C9. If the size lookup fails for some object of the input list, the
    grouping as a whole raises: it returns no groups at all, and the error
    is that of the first object whose lookup fails. *)
Theorem C9_size_lookup_failure_is_fatal fs blobs max_size_mb blob e :
  In blob blobs ->
  get_blob_size fs blob = inl e ->
  exists pre bad post e',
    blobs = pre ++ bad :: post
    /\ Forall (fun b => is_ok (get_blob_size fs b) = true) pre
    /\ get_blob_size fs bad = inl e'
    /\ group_blobs_by_size fs blobs max_size_mb = inl e'.
Proof.
  intros Hin Hbad.
  assert (Hsplit : exists pre bad post e',
             blobs = pre ++ bad :: post
             /\ Forall (fun b => is_ok (get_blob_size fs b) = true) pre
             /\ get_blob_size fs bad = inl e').
  { clear max_size_mb. induction blobs as [|b rest IH]; [contradiction|].
    destruct (get_blob_size fs b) as [eb|sb] eqn:Hb.
    - exists [], b, rest, eb. simpl. auto.
    - destruct Hin as [Heq|Hin]; [subst; congruence|].
      destruct (IH Hin) as (pre & bad & post & e' & Hblobs & Hpre & He').
      exists (b :: pre), bad, post, e'. subst rest. simpl.
      repeat split; try assumption.
      constructor; [rewrite Hb; reflexivity|assumption]. }
  destruct Hsplit as (pre & bad & post & e' & Hblobs & Hpre & He').
  exists pre, bad, post, e'. repeat split; try assumption.
  unfold group_blobs_by_size. subst blobs.
  rewrite (group_loop_raises fs _ pre bad post e' group_init Hpre He').
  reflexivity.
Qed.

Lemma C9_size_lookup_failure_is_fatal_witness :
  In "bkt/gone" ["bkt/a"; "bkt/gone"; "bkt/b"]
  /\ get_blob_size demo_fs "bkt/gone" = inl (FileNotFoundError "bkt/gone")
  /\ exists pre bad post e',
       ["bkt/a"; "bkt/gone"; "bkt/b"] = pre ++ bad :: post
       /\ Forall (fun b => is_ok (get_blob_size demo_fs b) = true) pre
       /\ get_blob_size demo_fs bad = inl e'
       /\ group_blobs_by_size demo_fs ["bkt/a"; "bkt/gone"; "bkt/b"] 2
          = inl e'.
Proof.
  assert (Hin : In "bkt/gone" ["bkt/a"; "bkt/gone"; "bkt/b"])
    by (simpl; auto).
  assert (Hbad : get_blob_size demo_fs "bkt/gone"
                 = inl (FileNotFoundError "bkt/gone")) by reflexivity.
  split; [exact Hin|]. split; [exact Hbad|].
  exact (C9_size_lookup_failure_is_fatal demo_fs _ 2 _ _ Hin Hbad).
Defined.

(** C10. For a non-empty list whose first object is strictly larger than
    the budget (and whose sizes the oracle supplies), the sequence that
    [group_blobs_by_size] returns begins with an empty group. *)
Theorem C10_oversized_head_gives_leading_empty_group
    fs blob rest max_size_mb s :
  get_blob_size fs blob = inr s ->
  max_size_mb * 1024 * 1024 < s ->
  Forall (fun b => is_ok (get_blob_size fs b) = true) rest ->
  exists groups,
    group_blobs_by_size fs (blob :: rest) max_size_mb = inr ([] :: groups).
Proof.
  intros Hs Hover Hok.
  unfold group_blobs_by_size. simpl. rewrite Hs.
  destruct (group_loop_total fs (max_size_mb * 1024 * 1024) rest
              (group_step (max_size_mb * 1024 * 1024) group_init blob s) Hok)
    as [st Hst].
  rewrite Hst.
  destruct (group_loop_grouped_prefix fs _ rest _ st Hst) as [more Hmore].
  assert (Hhead : grouped_blobs st = [] :: more).
  { rewrite Hmore. unfold group_step. simpl.
    destruct (Z.gtb_spec (0 + s) (max_size_mb * 1024 * 1024)) as [_|Hle];
      [reflexivity|lia]. }
  unfold group_finish. rewrite Hhead.
  destruct (current_group st); simpl; eauto.
Qed.

Lemma C10_oversized_head_gives_leading_empty_group_witness :
  get_blob_size demo_fs "bkt/big" = inr (3 * MiB)
  /\ 1 * 1024 * 1024 < 3 * MiB
  /\ Forall (fun b => is_ok (get_blob_size demo_fs b) = true) ["bkt/a"]
  /\ exists groups,
       group_blobs_by_size demo_fs ["bkt/big"; "bkt/a"] 1
       = inr ([] :: groups).
Proof.
  assert (H1 : get_blob_size demo_fs "bkt/big" = inr (3 * MiB))
    by reflexivity.
  assert (H2 : 1 * 1024 * 1024 < 3 * MiB) by (unfold MiB; lia).
  assert (H3 : Forall (fun b => is_ok (get_blob_size demo_fs b) = true)
                      ["bkt/a"]) by (repeat constructor).
  split; [exact H1|]. split; [exact H2|]. split; [exact H3|].
  exact (C10_oversized_head_gives_leading_empty_group
           demo_fs "bkt/big" ["bkt/a"] 1 (3 * MiB) H1 H2 H3).
Defined.

(** ** Path parser *)

Module pystr_facts.
Import pystr.

Lemma append_cons c (s t : string) :
  (String c s ++ t)%string = String c (s ++ t)%string.
Proof. reflexivity. Qed.

Lemma startswith_app s p :
  startswith s p = true -> s = (p ++ drop (String.length p) s)%string.
Proof.
  revert s. induction p as [|c p IH]; intros s H; simpl in *.
  - destruct s; reflexivity.
  - destruct s as [|d s]; [discriminate|].
    apply andb_prop in H. destruct H as [Hc Hs].
    apply Ascii.eqb_eq in Hc. subst d.
    rewrite append_cons. f_equal. apply IH, Hs.
Qed.

Lemma startswith_app_same p s : startswith (p ++ s) p = true.
Proof.
  induction p as [|c p IH]; [reflexivity|].
  rewrite append_cons. simpl. rewrite Ascii.eqb_refl. exact IH.
Qed.

(** What [lstrip] returns does not begin with a stripped character. *)
Lemma lstrip_head chars s :
  match lstrip chars s with
  | EmptyString => True
  | String c _ => contains c chars = false
  end.
Proof.
  induction s as [|c s IH]; simpl; [exact I|].
  destruct (contains c chars) eqn:Hc; [exact IH|exact Hc].
Qed.

Lemma lstrip_not_startswith c s :
  startswith (lstrip (String c EmptyString) s) (String c EmptyString) = false.
Proof.
  pose proof (lstrip_head (String c EmptyString) s) as H.
  destruct (lstrip (String c EmptyString) s) as [|d t]; [reflexivity|].
  simpl in *. rewrite orb_false_r in H. rewrite H. reflexivity.
Qed.

Lemma contains_false_split1 c s :
  contains c s = false -> split1 c s = (s, EmptyString).
Proof.
  induction s as [|d s IH]; simpl; [reflexivity|].
  rewrite (Ascii.eqb_sym c d).
  destruct (Ascii.eqb d c); simpl; [discriminate|].
  intros H. rewrite (IH H). reflexivity.
Qed.

End pystr_facts.

Section ParserFacts.
Import pystr pystr_facts urllib_parse.
Variable check_bracketed_netloc : string -> try_ unit.

(** Cutting at the first [#], when there is one, and otherwise not at all,
    is [span_until] for the one stop character. *)
Lemma cut_at_char c url :
  fst (if contains c url then split1 c url else (url, EmptyString))
  = fst (span_until (String c EmptyString) url).
Proof.
  destruct (contains c url) eqn:Hc.
  - clear Hc. induction url as [|d url IH]; simpl; [reflexivity|].
    rewrite orb_false_r.
    destruct (Ascii.eqb d c); [reflexivity|].
    destruct (split1 c url), (span_until (String c EmptyString) url).
    simpl in *. congruence.
  - simpl. induction url as [|d url IH]; simpl in *; [reflexivity|].
    rewrite orb_false_r. rewrite (Ascii.eqb_sym c d) in Hc.
    destruct (Ascii.eqb d c); [discriminate|].
    specialize (IH Hc).
    destruct (span_until (String c EmptyString) url). simpl in *.
    congruence.
Qed.

(** Cutting at the first [#] and then at the first [?] cuts before the
    first of the two. *)
Lemma span_query_fragment url :
  fst (span_until "?" (fst (span_until "#" url))) = fst (span_until "?#" url).
Proof.
  induction url as [|d url IH]; simpl; [reflexivity|].
  rewrite !orb_false_r.
  destruct (Ascii.eqb d "#") eqn:Hf; simpl.
  - rewrite orb_true_r. reflexivity.
  - rewrite orb_false_r.
    destruct (span_until "#" url) as [b1 a1].
    destruct (span_until "?#" url) as [b2 a2].
    simpl in *. rewrite orb_false_r.
    destruct (Ascii.eqb d "?"); [reflexivity|].
    destruct (span_until "?" b1). simpl in *. congruence.
Qed.

Lemma netloc_end_shift c url k :
  netloc_end (String c url) (S k) = S (netloc_end url k).
Proof.
  unfold netloc_end. simpl.
  destruct (find "/" url k), (find "?" url k), (find "#" url k); simpl; lia.
Qed.

Lemma netloc_end_stop d url :
  contains d "/?#" = true -> netloc_end (String d url) 0 = 0%nat.
Proof.
  unfold netloc_end. simpl. rewrite orb_false_r. intros H.
  destruct (Ascii.eqb d "/"), (Ascii.eqb d "?"), (Ascii.eqb d "#");
    try discriminate;
    destruct (find "/" url 0), (find "?" url 0), (find "#" url 0);
    simpl; lia.
Qed.

Lemma netloc_end_go d url :
  contains d "/?#" = false ->
  netloc_end (String d url) 0 = S (netloc_end url 0).
Proof.
  unfold netloc_end. simpl. rewrite orb_false_r. intros H.
  destruct (Ascii.eqb d "/"), (Ascii.eqb d "?"), (Ascii.eqb d "#");
    try discriminate;
    destruct (find "/" url 0), (find "?" url 0), (find "#" url 0);
    simpl; lia.
Qed.

Lemma splitnetloc_shift c url k :
  splitnetloc (String c url) (S k) = splitnetloc url k.
Proof.
  unfold splitnetloc, slice. rewrite netloc_end_shift. reflexivity.
Qed.

Lemma splitnetloc_span url : splitnetloc url 0 = span_until "/?#" url.
Proof.
  unfold splitnetloc, slice.
  induction url as [|d url IH]; [reflexivity|].
  cbn [span_until].
  destruct (contains d "/?#") eqn:Hd.
  - rewrite netloc_end_stop by exact Hd. reflexivity.
  - rewrite netloc_end_go by exact Hd.
    destruct (span_until "/?#" url) as [before after].
    cbn [drop take Nat.sub] in *. rewrite Nat.sub_0_r in *.
    inversion IH; subst. reflexivity.
Qed.

Lemma split_authority_slashes url :
  split_authority check_bracketed_netloc (String "/" (String "/" url))
  = let netloc := fst (span_until "/?#" url) in
    let rest := snd (span_until "/?#" url) in
    if unmatched_bracket netloc then inl (ValueError "Invalid IPv6 URL")
    else if contains "[" netloc && contains "]" netloc
    then match check_bracketed_netloc netloc with
         | inl e => inl e
         | inr _ => inr (netloc, rest)
         end
    else inr (netloc, rest).
Proof.
  unfold split_authority.
  change (take 2 (String "/" (String "/" url))) with "//".
  rewrite String.eqb_refl, !splitnetloc_shift, splitnetloc_span.
  destruct (span_until "/?#" url) as [netloc rest]. simpl.
  unfold unmatched_bracket.
  destruct (contains "[" netloc), (contains "]" netloc); reflexivity.
Qed.

(** The text an accepted location starts with. *)
Lemma gs_scheme_text rest :
  ("gs://" ++ rest)%string
  = String "g" (String "s" (String ":" (String "/" (String "/" rest)))).
Proof. reflexivity. Qed.

(** [parse_gcs_path] on a location that begins with [gs://]. *)
Lemma parse_gcs_path_gs rest :
  parse_gcs_path check_bracketed_netloc ("gs://" ++ rest)
  = let container := gcs_container rest in
    if unmatched_bracket container
    then inl (ValueError "Invalid IPv6 URL")
    else if contains "[" container && contains "]" container
    then match check_bracketed_netloc container with
         | inl e => inl e
         | inr _ => inr (container, gcs_prefix rest)
         end
    else inr (container, gcs_prefix rest).
Proof.
  unfold parse_gcs_path. rewrite startswith_app_same. cbn [negb].
  unfold urlparse, urlsplit. rewrite gs_scheme_text.
  change (lstrip C0_CONTROL_OR_SPACE
            (String "g" (String "s" (String ":" (String "/" (String "/" rest))))))
    with (String "g" (String "s" (String ":" (String "/" (String "/" rest))))).
  change (remove_unsafe_bytes
            (String "g" (String "s" (String ":" (String "/" (String "/" rest))))))
    with (String "g" (String "s" (String ":" (String "/"
            (String "/" (remove_unsafe_bytes rest)))))).
  change (split_scheme
            (String "g" (String "s" (String ":" (String "/"
               (String "/" (remove_unsafe_bytes rest)))))))
    with ("gs", String "/" (String "/" (remove_unsafe_bytes rest))).
  cbv iota beta. rewrite split_authority_slashes.
  unfold gcs_container, gcs_prefix. cbv zeta.
  set (r := remove_unsafe_bytes rest).
  destruct (span_until "/?#" r) as [netloc url]. cbn [fst snd].
  assert (Hpath :
    (let '(url0, fragment) :=
       if contains "#" url then split1 "#" url else (url, EmptyString) in
     let '(url1, query) :=
       if contains "?" url0 then split1 "?" url0 else (url0, EmptyString) in
     path {| scheme := "gs"; netloc := netloc; path := url1;
             params := EmptyString; query := query; fragment := fragment |})
    = fst (span_until "?#" url)).
  { pose proof (cut_at_char "#" url) as Hf.
    destruct (if contains "#" url then split1 "#" url else (url, EmptyString))
      as [url0 fragment].
    pose proof (cut_at_char "?" url0) as Hq.
    destruct (if contains "?" url0 then split1 "?" url0
              else (url0, EmptyString)) as [url1 query].
    cbn [fst path] in *.
    rewrite <- span_query_fragment, <- Hf. exact Hq. }
  destruct (unmatched_bracket netloc); [reflexivity|].
  rewrite <- Hpath. clear Hpath.
  destruct (contains "[" netloc && contains "]" netloc);
    [destruct (check_bracketed_netloc netloc); [reflexivity|]|];
    destruct (if contains "#" url then split1 "#" url else (url, EmptyString))
      as [url0 fragment];
    destruct (if contains "?" url0 then split1 "?" url0
              else (url0, EmptyString)) as [url1 query];
    reflexivity.
Qed.

Lemma span_until_empty stop s :
  fst (span_until stop s) = EmptyString
  <-> match s with
      | EmptyString => True
      | String c _ => contains c stop = true
      end.
Proof.
  destruct s as [|c s]; simpl; [tauto|].
  destruct (contains c stop); simpl; [tauto|].
  destruct (span_until stop s). simpl. split; [discriminate|discriminate].
Qed.

(** [parse_gcs_path] on any input, case by case. *)
Lemma parse_gcs_path_cases gcs_path :
  parse_gcs_path check_bracketed_netloc gcs_path
  = if negb (startswith gcs_path "gs://")
    then inl (ValueError ("Invalid GCS path: " ++ gcs_path)%string)
    else
      let rest := drop 5 gcs_path in
      let container := gcs_container rest in
      if unmatched_bracket container
      then inl (ValueError "Invalid IPv6 URL")
      else if contains "[" container && contains "]" container
      then match check_bracketed_netloc container with
           | inl e => inl e
           | inr _ => inr (container, gcs_prefix rest)
           end
      else inr (container, gcs_prefix rest).
Proof.
  destruct (startswith gcs_path "gs://") eqn:Hgs; cbn [negb].
  - apply startswith_app in Hgs. cbn [String.length] in Hgs.
    rewrite Hgs at 1. apply parse_gcs_path_gs.
  - unfold parse_gcs_path. rewrite Hgs. reflexivity.
Qed.


(** C7. The claim says every accepted input gives a prefix without a
    leading slash and a non-empty container.  As amended: for every
    accepted input the returned prefix has no leading slash, and the
    returned container is empty exactly when the text after [gs://] is
    empty or starts with one of [/?#] (tab, CR and LF disregarded). *)
Theorem C7_prefix_has_no_leading_slash gcs_path bucket_name prefix :
  parse_gcs_path check_bracketed_netloc gcs_path = inr (bucket_name, prefix) ->
  startswith prefix "/" = false
  /\ (bucket_name = EmptyString <-> host_absent (drop 5 gcs_path) = true).
Proof.
  rewrite parse_gcs_path_cases.
  destruct (startswith gcs_path "gs://"); cbn [negb]; [|discriminate].
  cbv zeta. intros H.
  assert (Hres : bucket_name = gcs_container (drop 5 gcs_path)
                 /\ prefix = gcs_prefix (drop 5 gcs_path)).
  { destruct (unmatched_bracket _); [discriminate|].
    destruct (_ && _).
    - destruct (check_bracketed_netloc _); [discriminate|].
      inversion H; auto.
    - inversion H; auto. }
  destruct Hres as [-> ->]. split.
  - apply lstrip_not_startswith.
  - unfold gcs_container, host_absent. rewrite span_until_empty.
    destruct (remove_unsafe_bytes (drop 5 gcs_path)); [tauto|].
    destruct (contains _ _); split; auto; discriminate.
Qed.

End ParserFacts.


(** C7, the claim as stated fails: the location [gs://] is accepted and
    gives an empty container. *)
Lemma C7_counterexample_empty_container :
  parse_gcs_path urllib_parse.accept_bracketed_netloc "gs://"
  = inr (EmptyString, EmptyString).
Proof. reflexivity. Qed.

Lemma C7_prefix_has_no_leading_slash_witness :
  parse_gcs_path urllib_parse.accept_bracketed_netloc "gs://bkt//pre/a.txt"
  = inr ("bkt", "pre/a.txt")
  /\ pystr.startswith "pre/a.txt" "/" = false
  /\ ("bkt" = EmptyString
      <-> host_absent (pystr.drop 5 "gs://bkt//pre/a.txt") = true).
Proof.
  assert (H : parse_gcs_path urllib_parse.accept_bracketed_netloc
                "gs://bkt//pre/a.txt" = inr ("bkt", "pre/a.txt"))
    by reflexivity.
  split; [exact H|].
  exact (C7_prefix_has_no_leading_slash
           urllib_parse.accept_bracketed_netloc _ _ _ H).
Defined.

(** ** Transfer executor *)

Section MonadFacts.
Context {A B : Type}.

Lemma bind_run (m : M A) (k : A -> M B) w :
  (m ≫= k) w
  = match m w with
    | (inl e, w') => (inl e, w')
    | (inr a, w') => k a w'
    end.
Proof. reflexivity. Qed.

Lemma bind_ok (m : M A) (k : A -> M B) w a w' :
  m w = (inr a, w') -> (m ≫= k) w = k a w'.
Proof. intros H. rewrite bind_run, H. reflexivity. Qed.

Lemma bind_raises (m : M A) (k : A -> M B) w e w' :
  m w = (inl e, w') -> (m ≫= k) w = (inl e, w').
Proof. intros H. rewrite bind_run, H. reflexivity. Qed.

(** A run is settled by its result: the world is the one it ends in. *)
Lemma run_result (m : M A) w r : fst (m w) = r -> m w = (r, snd (m w)).
Proof. intros <-. apply surjective_pairing. Qed.

(** A relation that is reflexive and transitive is preserved by a sequence
    whose parts preserve it. *)
Lemma preserves_bind (R : World -> World -> Prop) (m : M A) (k : A -> M B) :
  (forall w1 w2 w3, R w1 w2 -> R w2 w3 -> R w1 w3) ->
  preserves R m ->
  (forall a, preserves R (k a)) ->
  preserves R (m ≫= k).
Proof.
  intros Htrans Hm Hk w. rewrite bind_run.
  specialize (Hm w). destruct (m w) as [[e|a] w1]; simpl in *.
  - exact Hm.
  - eapply Htrans; [exact Hm|apply Hk].
Qed.

End MonadFacts.

(** A run along a schedule that is enabled ends in the pool it computes. *)
Lemma run_some {A} (d : A) (o : option A) :
  match o with Some _ => true | None => false end = true ->
  o = Some (default d o).
Proof. destruct o; [reflexivity|discriminate]. Qed.

Lemma kept_refl skip w : kept_except skip w w.
Proof. unfold kept_except. auto. Qed.

Lemma kept_trans skip w1 w2 w3 :
  kept_except skip w1 w2 -> kept_except skip w2 w3 -> kept_except skip w1 w3.
Proof.
  intros ([Hc1 Ho1] & Hd1 & Hf1) ([Hc2 Ho2] & Hd2 & Hf2).
  split; [split; congruence|]. split.
  - intros k Hk. apply Hd2, Hd1, Hk.
  - intros k c Hne Hk. apply Hf2; [exact Hne|]. apply Hf1; assumption.
Qed.

Lemma kept_weaken skip w w' :
  kept_except None w w' -> kept_except skip w w'.
Proof.
  intros (Hc & Hd & Hf). split; [exact Hc|]. split; [exact Hd|].
  intros k c _ Hk. apply Hf; [discriminate|exact Hk].
Qed.

Lemma preserves_ret {A} skip (a : A) : preserves (kept_except skip) (mret a).
Proof. intros w. apply kept_refl. Qed.

Lemma preserves_raise {A} skip e : preserves (kept_except skip) (@raise A e).
Proof. intros w. apply kept_refl. Qed.

Lemma preserves_lift {A} skip (r : try_ A) :
  preserves (kept_except skip) (lift r).
Proof. intros w. apply kept_refl. Qed.

Lemma preserves_emit skip ev : preserves (kept_except skip) (emit ev).
Proof. intros w. unfold emit, with_event, kept_except. simpl. auto. Qed.

(** [make_chain] only adds directories at keys that were free. *)
Lemma make_chain_keeps name chain : forall m r m' k n,
  make_chain name chain m = (r, m') ->
  m !! k = Some n -> m' !! k = Some n.
Proof.
  induction chain as [|key rest IH]; intros m r m' k n H Hk; simpl in H.
  - inversion H; subst. exact Hk.
  - destruct (m !! key) as [[|content]|] eqn:Hkey.
    + eapply IH; eauto.
    + inversion H; subst. exact Hk.
    + eapply IH; [exact H|].
      rewrite lookup_insert_ne; [exact Hk|]. congruence.
Qed.

Lemma make_chain_dirs name chain : forall m m' k,
  make_chain name chain m = (inr tt, m') ->
  In k chain -> m' !! k = Some Dir.
Proof.
  induction chain as [|key rest IH]; intros m m' k H Hin; simpl in H.
  - contradiction.
  - destruct (m !! key) as [[|content]|] eqn:Hkey; [| discriminate |].
    + destruct Hin as [->|Hin]; [|eapply IH; eauto].
      eapply make_chain_keeps; eauto.
    + destruct Hin as [->|Hin]; [|eapply IH; eauto].
      eapply make_chain_keeps; [exact H|]. apply lookup_insert_eq.
Qed.

Lemma preserves_makedirs skip name : preserves (kept_except skip) (makedirs name).
Proof.
  unfold makedirs. apply preserves_bind.
  - apply kept_trans.
  - apply preserves_emit.
  - intros _. destruct (String.eqb name EmptyString).
    + apply preserves_raise.
    + intros w. apply kept_weaken.
      destruct (make_chain name (key_chain (resolve w name)) (nodes w))
        as [r m] eqn:Hm.
      unfold kept_except, with_nodes. simpl.
      split; [split; reflexivity|].
      split; intros; eapply make_chain_keeps; eauto.
Qed.

Lemma resolve_cwd w w' path : cwd w' = cwd w -> resolve w' path = resolve w path.
Proof. unfold resolve. intros ->. reflexivity. Qed.

Lemma kept_insert_file w key content :
  nodes w !! key <> Some Dir ->
  kept_except (Some key) w (with_nodes (<[key := File content]> (nodes w)) w).
Proof.
  intros Hnd. unfold kept_except. simpl. split; [split; reflexivity|]. split.
  - intros k Hk. rewrite lookup_insert_ne; [exact Hk|congruence].
  - intros k c Hne Hk. rewrite lookup_insert_ne; [exact Hk|congruence].
Qed.

(** [open(file_name, 'wb')] touches the one file it names. *)
Lemma open_wb_kept file_name w :
  kept_except (Some (resolve w file_name)) w (snd (open_wb file_name w)).
Proof.
  unfold open_wb. rewrite bind_run. cbn [emit].
  set (w1 := with_event (IoLocalOpen file_name) w).
  assert (H1 : kept_except (Some (resolve w file_name)) w w1)
    by (unfold kept_except; simpl; auto).
  change (resolve w1 file_name) with (resolve w file_name).
  change (nodes w1) with (nodes w).
  destruct (String.eqb file_name EmptyString); [exact H1|].
  destruct (resolve w file_name) as [|c0 key0] eqn:Hkey; [exact H1|].
  rewrite <- Hkey in *.
  destruct (node_at w1 (removelast (resolve w file_name)))
    as [[|pc]|]; try exact H1.
  destruct (nodes w !! resolve w file_name) as [[|fc]|] eqn:Hnode;
    try exact H1; destruct (pystr.endswith_char file_name "/");
    try exact H1; cbn [snd];
    (eapply kept_trans; [exact H1|]);
    apply (kept_insert_file w1); change (nodes w1) with (nodes w);
    rewrite Hnode; discriminate.
Qed.

(** When [open(file_name, 'wb')] returns, the file is there and empty. *)
Lemma open_wb_ok file_name w key w' :
  open_wb file_name w = (inr key, w') ->
  key = resolve w file_name
  /\ key <> []
  /\ nodes w' !! key = Some (File [])
  /\ cwd w' = cwd w.
Proof.
  unfold open_wb. rewrite bind_run. cbn [emit].
  set (w1 := with_event (IoLocalOpen file_name) w).
  change (resolve w1 file_name) with (resolve w file_name).
  change (nodes w1) with (nodes w).
  destruct (String.eqb file_name EmptyString); [discriminate|].
  destruct (resolve w file_name) as [|c0 key0] eqn:Hkey; [discriminate|].
  rewrite <- Hkey in *.
  assert (Hne : resolve w file_name <> []) by (rewrite Hkey; discriminate).
  destruct (node_at w1 (removelast (resolve w file_name)))
    as [[|pc]|]; try discriminate.
  destruct (nodes w !! resolve w file_name) as [[|fc]|] eqn:Hnode;
    try discriminate; destruct (pystr.endswith_char file_name "/");
    try discriminate;
    intros H; inversion H; subst; simpl;
    rewrite lookup_insert_eq; auto.
Qed.

Lemma preserves_write key file_name chunk :
  preserves (kept_except (Some key)) (write file_name key chunk).
Proof.
  unfold write. apply preserves_bind.
  - apply kept_trans.
  - apply preserves_emit.
  - intros _ w. unfold kept_except, set_nodes, with_nodes. simpl.
    split; [split; reflexivity|]. split.
    + intros k Hk. rewrite lookup_alter. case_decide; [|exact Hk].
      subst. rewrite Hk. reflexivity.
    + intros k c Hne Hk. rewrite lookup_alter_ne; [exact Hk|congruence].
Qed.

Lemma write_ok key file_name chunk w content :
  nodes w !! key = Some (File content) ->
  exists w', write file_name key chunk w = (inr tt, w')
             /\ nodes w' !! key = Some (File (content ++ chunk))
             /\ cwd w' = cwd w.
Proof.
  intros Hk. unfold write. rewrite bind_run. cbn [emit].
  unfold set_nodes, with_nodes. simpl. eexists. split; [reflexivity|]. simpl.
  split; [|reflexivity].
  rewrite lookup_alter_eq, Hk. reflexivity.
Qed.

Lemma read_n_app n remaining :
  fst (read_n n remaining) ++ snd (read_n n remaining) = remaining.
Proof.
  revert n. induction remaining as [|c rest IH]; intros n; simpl.
  - reflexivity.
  - destruct (n =? 0)%N; [reflexivity|].
    specialize (IH (N.pred n)). destruct (read_n (N.pred n) rest).
    simpl in *. congruence.
Qed.

Lemma read_n_empty n remaining :
  (0 < n)%N -> fst (read_n n remaining) = [] -> remaining = [].
Proof.
  intros Hn. destruct remaining as [|c rest]; simpl; [reflexivity|].
  destruct (N.eqb_spec n 0); [lia|].
  destruct (read_n (N.pred n) rest). simpl. discriminate.
Qed.

Lemma preserves_read skip blob_path source_file calls remaining n :
  preserves (kept_except skip) (read blob_path source_file calls remaining n).
Proof.
  unfold read. apply preserves_bind.
  - apply kept_trans.
  - apply preserves_emit.
  - intros _. destruct (rf_fault source_file) as [[k e]|].
    + destruct (Nat.eqb k calls); [apply preserves_raise|apply preserves_ret].
    + apply preserves_ret.
Qed.

Lemma read_ok blob_path source_file calls remaining n w chunk rest w' :
  read blob_path source_file calls remaining n w = (inr (chunk, rest), w') ->
  (chunk, rest) = read_n n remaining
  /\ nodes w' = nodes w /\ cwd w' = cwd w.
Proof.
  unfold read. rewrite bind_run. cbn [emit].
  destruct (rf_fault source_file) as [[k e]|].
  - destruct (Nat.eqb k calls); [discriminate|].
    intros H. inversion H; subst; auto.
  - intros H. inversion H; subst; auto.
Qed.

Section TransferFacts.
Variable fs : GCSFileSystem.

Lemma preserves_copy_chunks key fuel : forall blob_path name src calls remaining,
  preserves (kept_except (Some key))
    (copy_chunks fuel blob_path name src calls remaining key).
Proof.
  induction fuel as [|fuel IH]; intros; simpl.
  - apply preserves_raise.
  - apply preserves_bind; [apply kept_trans|apply preserves_read|].
    intros [chunk rest]. destruct chunk as [|c chunk].
    + apply preserves_ret.
    + apply preserves_bind; [apply kept_trans|apply preserves_write|].
      intros _. apply IH.
Qed.

(** When the copy loop returns, everything that was left of the stream has
    been appended to the file. *)
Lemma copy_chunks_ok key fuel : forall blob_path name src calls remaining w w' content,
  (length remaining < fuel)%nat ->
  nodes w !! key = Some (File content) ->
  copy_chunks fuel blob_path name src calls remaining key w = (inr tt, w') ->
  nodes w' !! key = Some (File (content ++ remaining)) /\ cwd w' = cwd w.
Proof.
  induction fuel as [|fuel IH]; intros * Hfuel Hfile Hrun; [lia|].
  simpl in Hrun. rewrite bind_run in Hrun.
  destruct (read blob_path src calls remaining (1024 * 1024) w)
    as [[e|[chunk rest]] w1] eqn:Hread; [discriminate|].
  apply read_ok in Hread. destruct Hread as (Hsplit & Hnodes & Hcwd).
  pose proof (read_n_app (1024 * 1024) remaining) as Happ.
  rewrite <- Hsplit in Happ. simpl in Happ.
  destruct chunk as [|c chunk].
  - inversion Hrun; subst w'.
    assert (remaining = []) as ->.
    { apply (read_n_empty (1024 * 1024)); [lia|].
      rewrite <- Hsplit. reflexivity. }
    rewrite app_nil_r, Hnodes. split; [exact Hfile|exact Hcwd].
  - rewrite bind_run in Hrun.
    destruct (write_ok key name (c :: chunk) w1 content) as (w2 & Hw & Hf2 & Hc2).
    { rewrite Hnodes. exact Hfile. }
    rewrite Hw in Hrun.
    apply (IH _ _ _ _ _ _ _ (content ++ c :: chunk)) in Hrun.
    + destruct Hrun as [Hf Hc]. split; [|congruence].
      rewrite Hf, <- Happ, <- app_assoc. reflexivity.
    + rewrite <- Happ in Hfuel. rewrite length_app in Hfuel. simpl in Hfuel. lia.
    + exact Hf2.
Qed.

(** Without a fault on the remote side the copy loop returns: the fuel is
    not used up. *)
Lemma copy_chunks_returns key fuel : forall blob_path name src calls remaining w content,
  rf_fault src = None ->
  (length remaining < fuel)%nat ->
  nodes w !! key = Some (File content) ->
  exists w', copy_chunks fuel blob_path name src calls remaining key w
             = (inr tt, w').
Proof.
  induction fuel as [|fuel IH]; intros * Hsrc Hfuel Hfile; [lia|].
  simpl. rewrite bind_run. unfold read at 1. rewrite bind_run. cbn [emit].
  rewrite Hsrc. cbn [mret M_ret ret].
  pose proof (read_n_app (1024 * 1024) remaining) as Happ.
  destruct (read_n (1024 * 1024) remaining) as [chunk rest]. simpl in Happ.
  destruct chunk as [|c chunk]; [eauto|].
  rewrite bind_run.
  set (w1 := with_event (IoRemoteRead blob_path) w).
  destruct (write_ok key name (c :: chunk) w1 content Hfile)
    as (w2 & Hw & Hf2 & Hc2).
  rewrite Hw. eapply IH; [exact Hsrc| |exact Hf2].
  rewrite <- Happ in Hfuel. rewrite length_app in Hfuel. simpl in Hfuel. lia.
Qed.

(** [download_blob] touches the one local file it names. *)
Lemma download_blob_kept blob_path name w :
  kept_except (Some (resolve w name)) w (snd (download_blob fs blob_path name w)).
Proof.
  unfold download_blob. rewrite bind_run. cbn [emit].
  set (w1 := with_event (IoRemoteOpen blob_path) w).
  assert (H1 : kept_except (Some (resolve w name)) w w1)
    by (unfold kept_except; simpl; auto).
  rewrite bind_run. unfold lift at 1.
  destruct (fs_open_rb fs blob_path) as [e|src]; [exact H1|].
  rewrite bind_run.
  pose proof (open_wb_kept name w1) as Hopen.
  change (resolve w1 name) with (resolve w name) in Hopen.
  destruct (open_wb name w1) as [[e|key] w2] eqn:Ho; simpl in Hopen.
  - exact (kept_trans _ _ _ _ H1 Hopen).
  - apply open_wb_ok in Ho. destruct Ho as (Hkey & _ & _ & _).
    change (resolve w1 name) with (resolve w name) in Hkey. subst key.
    eapply kept_trans; [exact H1|].
    eapply kept_trans; [exact Hopen|].
    apply preserves_copy_chunks.
Qed.

(** When [download_blob] returns, the local file holds the object's bytes. *)
Lemma download_blob_ok blob_path name w w' :
  download_blob fs blob_path name w = (inr tt, w') ->
  exists src,
    fs_open_rb fs blob_path = inr src
    /\ resolve w name <> []
    /\ nodes w' !! resolve w name = Some (File (rf_content src))
    /\ cwd w' = cwd w.
Proof.
  unfold download_blob. rewrite bind_run. cbn [emit].
  set (w1 := with_event (IoRemoteOpen blob_path) w).
  rewrite bind_run. unfold lift at 1.
  destruct (fs_open_rb fs blob_path) as [e|src]; [discriminate|].
  rewrite bind_run.
  destruct (open_wb name w1) as [[e|key] w2] eqn:Ho; [discriminate|].
  apply open_wb_ok in Ho. destruct Ho as (Hkey & Hne & Hfile & Hcwd).
  change (resolve w1 name) with (resolve w name) in Hkey. subst key.
  intros Hrun. exists src. split; [reflexivity|]. split; [exact Hne|].
  apply (copy_chunks_ok _ _ _ _ _ _ _ _ _ []) in Hrun;
    [|simpl; lia|exact Hfile].
  destruct Hrun as [Hf Hc]. split; [exact Hf|].
  rewrite Hc, Hcwd. reflexivity.
Qed.

(** A transfer does not fail for want of fuel: an object that opens and
    reads without fault is transferred as soon as the local file can be
    opened. *)
Lemma download_blob_returns blob_path name w src key w1 :
  fs_open_rb fs blob_path = inr src ->
  rf_fault src = None ->
  open_wb name (with_event (IoRemoteOpen blob_path) w) = (inr key, w1) ->
  exists w', download_blob fs blob_path name w = (inr tt, w').
Proof.
  intros Hsrc Hfault Hopen.
  unfold download_blob. rewrite bind_run. cbn [emit].
  rewrite bind_run. unfold lift at 1. rewrite Hsrc.
  rewrite bind_run, Hopen.
  apply open_wb_ok in Hopen. destruct Hopen as (_ & _ & Hfile & _).
  eapply copy_chunks_returns; [exact Hfault| |exact Hfile]. lia.
Qed.

End TransferFacts.

Lemma key_chain_last key : key <> [] -> In key (key_chain key).
Proof.
  intros Hne. unfold key_chain. apply in_map_iff.
  exists (length key). split; [apply firstn_all|].
  apply in_seq. destruct key; [congruence|]. simpl. lia.
Qed.

(** When [makedirs] returns, the named directory is there. *)
Lemma makedirs_ok name w w' :
  makedirs name w = (inr tt, w') ->
  path_isdir w' name = true /\ cwd w' = cwd w.
Proof.
  unfold makedirs. rewrite bind_run. cbn [emit].
  set (w1 := with_event (IoMakedirs name) w).
  unfold path_isdir.
  destruct (String.eqb name EmptyString); [discriminate|].
  destruct (make_chain name (key_chain (resolve w1 name)) (nodes w1))
    as [r m] eqn:Hm.
  intros H. inversion H; subst. clear H.
  split; [|reflexivity]. cbn [negb andb].
  change (resolve (with_nodes m w1) name) with (resolve w1 name).
  unfold node_at. cbn [nodes with_nodes].
  destruct (resolve w1 name) as [|c key] eqn:Hkey; [reflexivity|].
  rewrite (make_chain_dirs _ _ _ _ (c :: key) Hm); [reflexivity|].
  apply key_chain_last. discriminate.
Qed.

Section GroupFacts.
Variable fs : GCSFileSystem.
Variables bucket_name destination_folder : string.

Lemma dest_key_cwd w w' blob :
  cwd w' = cwd w ->
  dest_key w' bucket_name destination_folder blob
  = dest_key w bucket_name destination_folder blob.
Proof. unfold dest_key, resolve. intros ->. reflexivity. Qed.

(** One step of [download_group] touches only the local file of its blob. *)
Lemma download_one_kept blob w :
  kept_except (dest_key w bucket_name destination_folder blob) w
    (snd (download_one fs bucket_name destination_folder blob w)).
Proof.
  unfold download_one, dest_key. rewrite bind_run. cbn [get_cwd].
  rewrite bind_run. unfold lift at 1.
  destruct (destination_of (cwd w) bucket_name destination_folder blob)
    as [e|name]; [apply kept_refl|].
  rewrite bind_run.
  pose proof (preserves_makedirs (Some (resolve w name))
                (posixpath.dirname name) w) as Hmk.
  destruct (makedirs (posixpath.dirname name) w) as [[e|[]] w1] eqn:Hm;
    simpl in Hmk; [exact Hmk|].
  eapply kept_trans; [exact Hmk|].
  pose proof (download_blob_kept fs blob name w1) as Hdl.
  rewrite (resolve_cwd w w1) in Hdl by (apply Hmk). exact Hdl.
Qed.

(** When a step returns, the blob's bytes are in its local file and the
    directory of that file exists. *)
Lemma download_one_ok blob w w' :
  download_one fs bucket_name destination_folder blob w = (inr tt, w') ->
  exists name src,
    destination_of (cwd w) bucket_name destination_folder blob = inr name
    /\ fs_open_rb fs blob = inr src
    /\ resolve w name <> []
    /\ nodes w' !! resolve w name = Some (File (rf_content src))
    /\ path_isdir w' (posixpath.dirname name) = true
    /\ cwd w' = cwd w.
Proof.
  unfold download_one. rewrite bind_run. cbn [get_cwd].
  rewrite bind_run. unfold lift at 1.
  destruct (destination_of (cwd w) bucket_name destination_folder blob)
    as [e|name]; [discriminate|].
  rewrite bind_run.
  destruct (makedirs (posixpath.dirname name) w) as [[e|[]] w1] eqn:Hm;
    [discriminate|].
  apply makedirs_ok in Hm. destruct Hm as [Hdir Hcwd1].
  intros Hdl.
  pose proof (download_blob_kept fs blob name w1) as Hkept.
  rewrite Hdl in Hkept. simpl in Hkept.
  apply download_blob_ok in Hdl.
  destruct Hdl as (src & Hsrc & Hne & Hfile & Hcwd2).
  rewrite (resolve_cwd w w1) in * by exact Hcwd1.
  exists name, src. repeat split; try assumption; [|congruence].
  unfold path_isdir in *.
  destruct (String.eqb (posixpath.dirname name) EmptyString); [discriminate|].
  simpl in *. rewrite (resolve_cwd w1 w') by exact Hcwd2.
  unfold node_at in *.
  destruct (resolve w1 (posixpath.dirname name)) as [|c key]; [reflexivity|].
  destruct (nodes w1 !! (c :: key)) as [[|content]|] eqn:Hn; try discriminate.
  destruct Hkept as (_ & Hdirs & _). rewrite (Hdirs _ Hn). reflexivity.
Qed.

(** A whole group touches only the local files of its blobs. *)
Lemma download_group_kept blobs : forall w r w',
  download_group fs bucket_name blobs destination_folder w = (r, w') ->
  (cwd w' = cwd w /\ stdout w' = stdout w)
  /\ (forall k, nodes w !! k = Some Dir -> nodes w' !! k = Some Dir)
  /\ (forall k c,
        (forall b, In b blobs ->
                   dest_key w bucket_name destination_folder b <> Some k) ->
        nodes w !! k = Some (File c) -> nodes w' !! k = Some (File c)).
Proof.
  induction blobs as [|blob rest IH]; intros w r w' H; simpl in H.
  - inversion H; subst. auto.
  - rewrite bind_run in H.
    pose proof (download_one_kept blob w) as ([Hc1 Ho1] & Hd1 & Hf1).
    destruct (download_one fs bucket_name destination_folder blob w)
      as [[e|[]] w1]; simpl in *.
    + inversion H; subst. split; [auto|]. split; [exact Hd1|].
      intros k c Hk. apply Hf1. apply Hk. auto.
    + apply IH in H. destruct H as ([Hc2 Ho2] & Hd2 & Hf2).
      split; [split; congruence|].
      split; [intros k Hk; apply Hd2, Hd1, Hk|].
      intros k c Hk Hfile. apply Hf2.
      * intros b Hb. rewrite (dest_key_cwd w w1) by exact Hc1.
        apply Hk. auto.
      * apply Hf1; [apply Hk; auto|exact Hfile].
Qed.

Lemma download_group_app pre post w :
  download_group fs bucket_name (pre ++ post) destination_folder w
  = (download_group fs bucket_name pre destination_folder
     ≫= fun _ => download_group fs bucket_name post destination_folder) w.
Proof.
  revert w. induction pre as [|blob pre IH]; intros w; simpl.
  - reflexivity.
  - rewrite !bind_run.
    destruct (download_one fs bucket_name destination_folder blob w)
      as [[e|[]] w1]; [reflexivity|].
    rewrite IH, bind_run. reflexivity.
Qed.

(** After a group has been transferred, a blob is in its local file unless
    a later blob of the group has the same local file. *)
Lemma download_group_written pre blob post w w' :
  download_group fs bucket_name (pre ++ blob :: post) destination_folder w
  = (inr tt, w') ->
  (forall b', In b' post ->
     dest_key w bucket_name destination_folder b'
     <> dest_key w bucket_name destination_folder blob) ->
  exists name src,
    destination_of (cwd w) bucket_name destination_folder blob = inr name
    /\ fs_open_rb fs blob = inr src
    /\ read_file w' name = Some (rf_content src)
    /\ path_isdir w' (posixpath.dirname name) = true.
Proof.
  intros Hrun Hlater.
  rewrite download_group_app, bind_run in Hrun.
  destruct (download_group fs bucket_name pre destination_folder w)
    as [[e|[]] w1] eqn:Hpre; [discriminate|].
  apply download_group_kept in Hpre. destruct Hpre as ([Hcwd1 _] & _ & _).
  simpl in Hrun. rewrite bind_run in Hrun.
  destruct (download_one fs bucket_name destination_folder blob w1)
    as [[e|[]] w2] eqn:Hone; [discriminate|].
  apply download_one_ok in Hone.
  destruct Hone as (name & src & Hname & Hsrc & Hne & Hfile & Hdir & Hcwd2).
  pose proof (download_group_kept post w2 _ _ Hrun) as ([Hcwd3 _] & Hd3 & Hf3).
  rewrite Hcwd1 in Hname.
  rewrite (resolve_cwd w w1) in * by exact Hcwd1.
  exists name, src. repeat split; try assumption.
  - unfold read_file. rewrite (resolve_cwd w w') by congruence.
    unfold node_at. destruct (resolve w name) as [|c key] eqn:Hkey;
      [congruence|].
    rewrite (Hf3 _ (rf_content src)); [reflexivity| |exact Hfile].
    intros b' Hb' Heq. apply (Hlater b' Hb').
    rewrite (dest_key_cwd w w2) in Heq by congruence.
    rewrite Heq. unfold dest_key. rewrite Hname, Hkey. reflexivity.
  - unfold path_isdir in *.
    destruct (String.eqb (posixpath.dirname name) EmptyString);
      [discriminate|].
    simpl in *. rewrite (resolve_cwd w2 w') by exact Hcwd3.
    unfold node_at in *.
    destruct (resolve w2 (posixpath.dirname name)) as [|c key];
      [reflexivity|].
    destruct (nodes w2 !! (c :: key)) as [[|content]|] eqn:Hn;
      try discriminate.
    rewrite (Hd3 _ Hn). reflexivity.
Qed.

(** The same, by position in the group. *)
Lemma download_group_written_at blobs j blob w w' :
  download_group fs bucket_name blobs destination_folder w = (inr tt, w') ->
  blobs !! j = Some blob ->
  (forall k b', (j < k)%nat -> blobs !! k = Some b' ->
     dest_key w bucket_name destination_folder b'
     <> dest_key w bucket_name destination_folder blob) ->
  exists name src,
    destination_of (cwd w) bucket_name destination_folder blob = inr name
    /\ fs_open_rb fs blob = inr src
    /\ read_file w' name = Some (rf_content src)
    /\ path_isdir w' (posixpath.dirname name) = true.
Proof.
  intros Hrun Hj Hlater.
  rewrite <- (take_drop_middle blobs j blob Hj) in Hrun.
  apply (download_group_written _ _ _ _ _ Hrun).
  intros b' Hb'. apply list_elem_of_In, list_elem_of_lookup in Hb'.
  destruct Hb' as (k & Hk). rewrite lookup_drop in Hk.
  apply (Hlater (S j + k)%nat b'); [lia|exact Hk].
Qed.

End GroupFacts.

(** *** Statements about [download_group] *)

(** C4. The claim places each object at its remote path taken relative to
    the listing prefix.  As amended: for every group, destination root and
    object in the group, when the transfer of the group completes the
    object's bytes are in the local file whose name joins the destination
    root with the object's remote path taken relative to the container
    ([bucket_name + '/']), and the directory of that file exists; when
    several objects of the group have the same local file, it holds the
    bytes of the last of them. *)
Theorem C4_objects_mirrored_relative_to_container
    fs bucket_name destination_folder blobs w w' j blob :
  download_group fs bucket_name blobs destination_folder w = (inr tt, w') ->
  blobs !! j = Some blob ->
  (forall k later, (j < k)%nat -> blobs !! k = Some later ->
     dest_key w bucket_name destination_folder later
     <> dest_key w bucket_name destination_folder blob) ->
  exists relative_path src,
    posixpath.relpath (cwd w) blob (bucket_name ++ "/")%string
    = inr relative_path
    /\ fs_open_rb fs blob = inr src
    /\ read_file w' (posixpath.join destination_folder relative_path)
       = Some (rf_content src)
    /\ path_isdir w'
         (posixpath.dirname
            (posixpath.join destination_folder relative_path)) = true.
Proof.
  intros Hrun Hj Hlater.
  destruct (download_group_written_at fs bucket_name destination_folder
              blobs j blob w w' Hrun Hj Hlater)
    as (name & src & Hname & Hsrc & Hread & Hdir).
  unfold destination_of in Hname.
  destruct (posixpath.relpath (cwd w) blob (bucket_name ++ "/")%string)
    as [e|relative_path]; [discriminate|].
  inversion Hname; subst name.
  exists relative_path, src. auto.
Qed.

Lemma C4_objects_mirrored_relative_to_container_witness :
  download_group demo_fs "bkt" (take 2 demo_group) "/data" demo_world
  = (inr tt, demo_world_after_two)
  /\ take 2 demo_group !! 0%nat = Some "bkt/pre/a.txt"
  /\ (forall k later, (0 < k)%nat -> take 2 demo_group !! k = Some later ->
        dest_key demo_world "bkt" "/data" later
        <> dest_key demo_world "bkt" "/data" "bkt/pre/a.txt")
  /\ exists relative_path src,
       posixpath.relpath (cwd demo_world) "bkt/pre/a.txt" ("bkt" ++ "/")%string
       = inr relative_path
       /\ fs_open_rb demo_fs "bkt/pre/a.txt" = inr src
       /\ read_file demo_world_after_two
            (posixpath.join "/data" relative_path)
          = Some (rf_content src)
       /\ path_isdir demo_world_after_two
            (posixpath.dirname (posixpath.join "/data" relative_path)) = true.
Proof.
  assert (Hrun : download_group demo_fs "bkt" (take 2 demo_group) "/data"
                   demo_world = (inr tt, demo_world_after_two)).
  { unfold demo_world_after_two. apply run_result. vm_compute. reflexivity. }
  assert (Hj : take 2 demo_group !! 0%nat = Some "bkt/pre/a.txt")
    by reflexivity.
  assert (Hlater : forall k later, (0 < k)%nat ->
            take 2 demo_group !! k = Some later ->
            dest_key demo_world "bkt" "/data" later
            <> dest_key demo_world "bkt" "/data" "bkt/pre/a.txt").
  { intros [|[|k]] later Hk Hlook; [lia| |discriminate].
    inversion Hlook; subst later. vm_compute. discriminate. }
  split; [exact Hrun|]. split; [exact Hj|]. split; [exact Hlater|].
  exact (C4_objects_mirrored_relative_to_container
           demo_fs "bkt" "/data" _ _ _ _ _ Hrun Hj Hlater).
Defined.

(** C4, the claim as stated fails: the listing [gs://bkt/pre] has the one
    object [bkt/pre/a.txt]; relative to the listing prefix its path is
    [a.txt], but after the transfer to [/data] there is no file
    [/data/a.txt]: the bytes are in [/data/pre/a.txt]. *)
Lemma C4_counterexample_listing_prefix :
  parse_gcs_path urllib_parse.accept_bracketed_netloc "gs://bkt/pre"
  = inr ("bkt", "pre")
  /\ list_blobs demo_fs "bkt" "pre" = inr ["bkt/pre/a.txt"]
  /\ download_group demo_fs "bkt" ["bkt/pre/a.txt"] "/data" demo_world
     = (inr tt, demo_world_after_prefix)
  /\ posixpath.relpath (cwd demo_world) "bkt/pre/a.txt" "bkt/pre"
     = inr "a.txt"
  /\ read_file demo_world_after_prefix (posixpath.join "/data" "a.txt") = None
  /\ read_file demo_world_after_prefix "/data/pre/a.txt"
     = Some (list_ascii_of_string "bkt/pre/a.txt").
Proof.
  split; [reflexivity|]. split; [reflexivity|]. split.
  { unfold demo_world_after_prefix. apply run_result. vm_compute. reflexivity. }
  split; [reflexivity|]. split; vm_compute; reflexivity.
Qed.

(** C8. The claim says that after a failure at index [i] every earlier
    object remains fully written.  As amended: if the transfer of the
    object at index [i] fails with [e], then [download_group] raises that
    same [e]; its final world is the one the failing step left, so no call
    is made for any later object; the failing step removed or changed
    nothing but, possibly, its own local file; and every earlier object is
    still fully written in its local file, unless a later object up to
    index [i] has the same local file. *)
Theorem C8_failure_keeps_earlier_objects
    fs bucket_name destination_folder blobs i blob w w1 e w2 :
  blobs !! i = Some blob ->
  download_group fs bucket_name (take i blobs) destination_folder w
  = (inr tt, w1) ->
  download_one fs bucket_name destination_folder blob w1 = (inl e, w2) ->
  download_group fs bucket_name blobs destination_folder w = (inl e, w2)
  /\ kept_except (dest_key w bucket_name destination_folder blob) w1 w2
  /\ (forall j earlier, (j < i)%nat -> blobs !! j = Some earlier ->
        (forall k later, (j < k <= i)%nat -> blobs !! k = Some later ->
           dest_key w bucket_name destination_folder later
           <> dest_key w bucket_name destination_folder earlier) ->
        exists name src,
          destination_of (cwd w) bucket_name destination_folder earlier
          = inr name
          /\ fs_open_rb fs earlier = inr src
          /\ read_file w2 name = Some (rf_content src)).
Proof.
  intros Hi Hpre Hstep.
  pose proof (download_group_kept fs bucket_name destination_folder
                _ _ _ _ Hpre) as ([Hcwd1 _] & _ & _).
  pose proof (download_one_kept fs bucket_name destination_folder blob w1)
    as Hkept.
  rewrite Hstep in Hkept. cbn [snd] in Hkept.
  rewrite (dest_key_cwd _ _ w w1) in Hkept by exact Hcwd1.
  split; [|split; [exact Hkept|]].
  - rewrite <- (take_drop_middle blobs i blob Hi).
    rewrite download_group_app, bind_run, Hpre. simpl.
    rewrite bind_run, Hstep. reflexivity.
  - intros j earlier Hj Hearlier Hlater.
    assert (Hj' : take i blobs !! j = Some earlier)
      by (rewrite lookup_take_lt by exact Hj; exact Hearlier).
    destruct (download_group_written_at fs bucket_name destination_folder
                (take i blobs) j earlier w w1 Hpre Hj')
      as (name & src & Hname & Hsrc & Hread & _).
    { intros k later Hk Hlook. apply lookup_take_Some in Hlook.
      destruct Hlook as [Hlook Hki]. apply (Hlater k later); [lia|exact Hlook]. }
    exists name, src. split; [exact Hname|]. split; [exact Hsrc|].
    unfold read_file in *.
    destruct Hkept as ([Hcwd2 _] & _ & Hfiles).
    rewrite (resolve_cwd w1 w2) by exact Hcwd2.
    unfold node_at in *.
    destruct (resolve w1 name) as [|c key] eqn:Hkey; [discriminate|].
    destruct (nodes w1 !! (c :: key)) as [[|content]|] eqn:Hn;
      try discriminate.
    inversion Hread; subst content.
    assert (Hother : dest_key w bucket_name destination_folder blob
                     <> Some (c :: key));
      [|rewrite (Hfiles _ _ Hother Hn); reflexivity].
    intros Heq. apply (Hlater i blob); [lia|exact Hi|].
    rewrite Heq. unfold dest_key. rewrite Hname.
    rewrite <- (resolve_cwd w w1) by exact Hcwd1. rewrite Hkey. reflexivity.
Qed.

Lemma C8_failure_keeps_earlier_objects_witness :
  demo_group !! 2%nat = Some "bkt/flaky"
  /\ download_group demo_fs "bkt" (take 2 demo_group) "/data" demo_world
     = (inr tt, demo_world_after_two)
  /\ download_one demo_fs "bkt" "/data" "bkt/flaky" demo_world_after_two
     = (inl (OSError "connection reset"), demo_world_after_failure)
  /\ download_group demo_fs "bkt" demo_group "/data" demo_world
     = (inl (OSError "connection reset"), demo_world_after_failure)
  /\ kept_except (dest_key demo_world "bkt" "/data" "bkt/flaky")
       demo_world_after_two demo_world_after_failure
  /\ (forall j earlier, (j < 2)%nat -> demo_group !! j = Some earlier ->
        (forall k later, (j < k <= 2)%nat -> demo_group !! k = Some later ->
           dest_key demo_world "bkt" "/data" later
           <> dest_key demo_world "bkt" "/data" earlier) ->
        exists name src,
          destination_of (cwd demo_world) "bkt" "/data" earlier = inr name
          /\ fs_open_rb demo_fs earlier = inr src
          /\ read_file demo_world_after_failure name = Some (rf_content src)).
Proof.
  assert (Hi : demo_group !! 2%nat = Some "bkt/flaky") by reflexivity.
  assert (Hpre : download_group demo_fs "bkt" (take 2 demo_group) "/data"
                   demo_world = (inr tt, demo_world_after_two)).
  { unfold demo_world_after_two. apply run_result. vm_compute. reflexivity. }
  assert (Hstep : download_one demo_fs "bkt" "/data" "bkt/flaky"
                    demo_world_after_two
                  = (inl (OSError "connection reset"),
                     demo_world_after_failure)).
  { unfold demo_world_after_failure. apply run_result. vm_compute. reflexivity. }
  split; [exact Hi|]. split; [exact Hpre|]. split; [exact Hstep|].
  exact (C8_failure_keeps_earlier_objects
           demo_fs "bkt" "/data" demo_group 2 "bkt/flaky"
           demo_world demo_world_after_two (OSError "connection reset")
           demo_world_after_failure Hi Hpre Hstep).
Defined.

(** C8, the claim as stated fails: [bkt/a] and [bkt//a] have the same local
    file [/data/a].  The first is transferred; the transfer of the second
    opens the file again, which truncates it, and then fails on its first
    read: the object at index 0 is no longer written in its local file. *)
Lemma C8_counterexample_same_local_file :
  download_group demo_fs "bkt" (take 1 ["bkt/a"; "bkt//a"]) "/data" demo_world
  = (inr tt, demo_world_after_one)
  /\ read_file demo_world_after_one "/data/a"
     = Some (list_ascii_of_string "bkt/a")
  /\ download_one demo_fs "bkt" "/data" "bkt//a" demo_world_after_one
     = (inl (OSError "connection reset"), demo_world_after_clash)
  /\ download_group demo_fs "bkt" ["bkt/a"; "bkt//a"] "/data" demo_world
     = (inl (OSError "connection reset"), demo_world_after_clash)
  /\ destination_of (cwd demo_world) "bkt" "/data" "bkt/a" = inr "/data/a"
  /\ read_file demo_world_after_clash "/data/a" = Some [].
Proof.
  split.
  { unfold demo_world_after_one. apply run_result. vm_compute. reflexivity. }
  split; [vm_compute; reflexivity|]. split.
  { unfold demo_world_after_clash. apply run_result. vm_compute. reflexivity. }
  split.
  { vm_compute. reflexivity. }
  split; vm_compute; reflexivity.
Qed.

(** ** Worker pool scheduler *)

Section SchedulerFacts.
Variable fs : GCSFileSystem.
Variables bucket_name destination_folder : string.
Variable num_threads : Z.
Variable grouped_blobs : list (list string).
Variable w0 : World.

Local Abbreviation do_ :=
  (pool_do fs bucket_name destination_folder num_threads).
Local Abbreviation run_ :=
  (pool_run fs bucket_name destination_folder num_threads).
Local Abbreviation inv_ :=
  (pool_inv fs bucket_name destination_folder grouped_blobs w0).
Local Abbreviation task_of :=
  (future_of fs bucket_name destination_folder).

Lemma pool_inv_init : inv_ (pool_init grouped_blobs w0).
Proof.
  split; simpl.
  - apply Forall2_fmap_r, Forall_Forall2_diag, Forall_forall.
    intros g _. reflexivity.
  - intros i Hi. inversion Hi.
  - constructor.
  - unfold error_lines. simpl. rewrite app_nil_r. reflexivity.
Qed.

(** Replacing the future of one group by another state of the same task. *)
Lemma futures_insert (l : list future) i f f' :
  Forall2 task_of grouped_blobs l ->
  l !! i = Some f ->
  (forall group, task_of group f -> task_of group f') ->
  Forall2 task_of grouped_blobs (<[i := f']> l).
Proof.
  intros Hall Hi Hf.
  destruct (Forall2_lookup_r _ _ _ _ _ Hall Hi) as (g & Hg & Hgf).
  rewrite <- (list_insert_id grouped_blobs i g Hg).
  apply Forall2_insert; [exact Hall|]. apply Hf, Hgf.
Qed.

(** The lines and the collected futures do not depend on a future that has
    not completed. *)
Lemma error_lines_insert p i f' w' :
  (forall attempted result, futures p !! i <> Some (Finished attempted result)) ->
  inv_ p ->
  error_lines {| pool_world := w'; futures := <[i := f']> (futures p);
                 collected := collected p |}
  = error_lines p.
Proof.
  intros Hi Hinv. unfold error_lines. simpl.
  assert (Hothers : forall j, j ∈ collected p -> j <> i).
  { intros j Hj ->. destruct (inv_collected_finished _ _ _ _ _ _ Hinv i Hj)
      as (a & r & Hfin). exact (Hi a r Hfin). }
  induction (collected p) as [|j c IH]; [reflexivity|]. csimpl.
  rewrite list_lookup_insert_ne
    by (intros ->; apply (Hothers j); [left|reflexivity]).
  rewrite IH; [reflexivity|].
  intros k Hk. apply Hothers. right. exact Hk.
Qed.

(** A step that changes the state of a task that has not completed, in a
    world with the same output, keeps the invariant. *)
Lemma pool_inv_insert p i f f' w' :
  inv_ p ->
  futures p !! i = Some f ->
  (forall attempted result, f <> Finished attempted result) ->
  (forall group, task_of group f -> task_of group f') ->
  stdout w' = stdout (pool_world p) ->
  inv_ {| pool_world := w'; futures := <[i := f']> (futures p);
              collected := collected p |}.
Proof.
  intros Hinv Hi Hnf Hf Hout.
  assert (Hi' : forall a r, futures p !! i <> Some (Finished a r)).
  { intros a r Heq. rewrite Hi in Heq. inversion Heq. exact (Hnf _ _ H0). }
  split; simpl.
  - eapply futures_insert; [apply Hinv|exact Hi|exact Hf].
  - intros j Hj.
    destruct (inv_collected_finished _ _ _ _ _ _ Hinv j Hj) as (a & r & Hfin).
    exists a, r. rewrite list_lookup_insert_ne; [exact Hfin|].
    intros ->. exact (Hi' a r Hfin).
  - apply Hinv.
  - rewrite Hout, (inv_stdout _ _ _ _ _ _ Hinv).
    rewrite error_lines_insert by assumption. reflexivity.
Qed.

Lemma pool_inv_step a p p' :
  inv_ p -> do_ a p = Some p' -> inv_ p'.
Proof.
  intros Hinv Hdo. destruct a as [i|i|i]; simpl in Hdo.
  - destruct (futures p !! i) as [[group|att todo|att r]|] eqn:Hi;
      try discriminate.
    destruct (_ && _); [|discriminate]. inversion Hdo; subst p'.
    apply (pool_inv_insert p i (Pending group)); auto;
      try (intros ? ?; discriminate).
    intros g Hg. simpl in *. subst. reflexivity.
  - destruct (futures p !! i) as [[group|att todo|att r]|] eqn:Hi;
      try discriminate.
    destruct todo as [|blob todo].
    + inversion Hdo; subst p'.
      apply (pool_inv_insert p i (Running att [])); auto;
        try (intros ? ?; discriminate).
      intros g Hg. simpl in *. rewrite app_nil_r in Hg. congruence.
    + pose proof (download_one_kept fs bucket_name destination_folder blob
                    (pool_world p)) as ([_ Hout] & _).
      destruct (download_one fs bucket_name destination_folder blob
                  (pool_world p)) as [[e|[]] w'] eqn:Hone;
        inversion Hdo; subst p'; simpl in Hout.
      * apply (pool_inv_insert p i (Running att (blob :: todo))); auto;
          try (intros ? ?; discriminate).
        intros g Hg. simpl in *.
        exists att, blob, todo, (pool_world p), w'.
        split; [reflexivity|]. split; [|exact Hone].
        rewrite <- app_assoc. exact Hg.
      * apply (pool_inv_insert p i (Running att (blob :: todo))); auto;
          try (intros ? ?; discriminate).
        intros g Hg. simpl in *. rewrite <- app_assoc. exact Hg.
  - destruct (futures p !! i) as [[group|att todo|att r]|] eqn:Hi;
      try discriminate.
    destruct (bool_decide_reflect (i ∈ collected p)) as [Hin|Hnew];
      [discriminate|].
    inversion Hdo; subst p'. split; simpl.
    + apply Hinv.
    + intros j Hj. apply elem_of_app in Hj. destruct Hj as [Hj|Hj].
      * apply (inv_collected_finished _ _ _ _ _ _ Hinv j Hj).
      * apply list_elem_of_singleton in Hj. subst j. eauto.
    + apply NoDup_app. split; [apply Hinv|]. split.
      * intros j Hj Hj'. apply list_elem_of_singleton in Hj'. subst j.
        contradiction.
      * apply NoDup_singleton.
    + unfold error_lines. simpl. rewrite omap_app. csimpl. rewrite Hi.
      rewrite app_assoc.
      change (omap _ (collected p)) with (error_lines p).
      rewrite <- (inv_stdout _ _ _ _ _ _ Hinv).
      destruct r as [e|[]]; simpl; [reflexivity|].
      rewrite app_nil_r. reflexivity.
Qed.

Lemma pool_inv_run schedule : forall p p',
  inv_ p -> run_ schedule p = Some p' -> inv_ p'.
Proof.
  induction schedule as [|a rest IH]; intros p p' Hinv Hrun; simpl in Hrun.
  - inversion Hrun; subst. exact Hinv.
  - destruct (do_ a p) as [p1|] eqn:Hdo; [|discriminate].
    eapply IH; [|exact Hrun]. eapply pool_inv_step; eauto.
Qed.


Lemma filter_none {A} (P : A -> Prop) `{!forall x, Decision (P x)} (l : list A) :
  Forall (fun x => ~ P x) l -> filter P l = [].
Proof.
  induction 1 as [|x l Hx _ IH]; [reflexivity|].
  rewrite filter_cons_False by exact Hx. exact IH.
Qed.

(** While the main thread has not taken every future, some thread can take
    a step: a failed task never blocks the pool. *)
Lemma pool_progress p :
  0 < num_threads ->
  inv_ p ->
  pool_complete p \/ exists a p', do_ a p = Some p'.
Proof.
  intros Hthreads Hinv.
  destruct (list_find (fun f => is_running f = true) (futures p))
    as [[i f]|] eqn:Hrun.
  { apply list_find_Some in Hrun. destruct Hrun as (Hi & Hf & _).
    destruct f as [g|att todo|att r]; try discriminate.
    right. exists (Work i). simpl. rewrite Hi.
    destruct todo as [|blob todo]; [eauto|].
    destruct (download_one fs bucket_name destination_folder blob
                (pool_world p)) as [[e|[]] w']; eauto. }
  apply list_find_None in Hrun.
  destruct (list_find (fun f => is_pending f = true) (futures p))
    as [[i f]|] eqn:Hpend.
  { apply list_find_Some in Hpend. destruct Hpend as (Hi & Hf & Hbefore).
    destruct f as [g|att todo|att r]; try discriminate.
    right. exists (Start i). simpl. rewrite Hi.
    assert (Hqueue : forallb (fun f => negb (is_pending f)) (take i (futures p))
                     = true).
    { apply forallb_forall. intros f Hin.
      apply list_elem_of_In, elem_of_take in Hin.
      destruct Hin as (j & Hj & Hlt).
      specialize (Hbefore j f Hj Hlt).
      destruct (is_pending f); [contradiction|reflexivity]. }
    assert (Hfree : (Z.of_nat (running_count (futures p)) <? num_threads)%Z
                    = true).
    { unfold running_count. rewrite (filter_none _ _ Hrun). simpl.
      apply Z.ltb_lt. lia. }
    rewrite Hqueue, Hfree. simpl. eauto. }
  apply list_find_None in Hpend.
  assert (Hfin : forall i f, futures p !! i = Some f ->
                   exists att r, f = Finished att r).
  { intros i f Hi. apply list_elem_of_lookup_2 in Hi.
    rewrite Forall_forall in Hrun, Hpend.
    specialize (Hrun f Hi). specialize (Hpend f Hi).
    destruct f as [g|att todo|att r]; simpl in *; try congruence. eauto. }
  destruct (list_find (fun i => i ∉ collected p)
              (seq 0 (length (futures p)))) as [[k i]|] eqn:Hunc.
  { apply list_find_Some in Hunc. destruct Hunc as (Hk & Hnew & _).
    apply lookup_seq in Hk. destruct Hk as [-> Hlt]. simpl in *.
    destruct (lookup_lt_is_Some_2 _ _ Hlt) as [f Hi].
    destruct (Hfin _ _ Hi) as (att & r & ->).
    right. exists (Collect k). simpl. rewrite Hi.
    rewrite bool_decide_eq_false_2 by exact Hnew. eauto. }
  apply list_find_None in Hunc. left. intros i f Hi.
  rewrite Forall_forall in Hunc.
  destruct (decide (i ∈ collected p)) as [Hin|Hout]; [exact Hin|].
  exfalso. apply (Hunc i); [|exact Hout].
  apply elem_of_seq. apply lookup_lt_Some in Hi. lia.
Qed.

Lemma sum_list_with_insert {A} (f : A -> nat) (l : list A) : forall i x y,
  l !! i = Some x ->
  (sum_list_with f (<[i := y]> l) + f x = sum_list_with f l + f y)%nat.
Proof.
  induction l as [|a l IH]; intros [|i] x y Hi; simpl in *; try discriminate.
  - inversion Hi; subst. lia.
  - specialize (IH i x y Hi). lia.
Qed.

(** Every step uses up work of a task or collects a future. *)
Lemma pool_do_work a p p' :
  do_ a p = Some p' ->
  (S (pool_work p') + length (collected p)
   <= pool_work p + length (collected p'))%nat.
Proof.
  unfold pool_work. intros Hdo. destruct a as [i|i|i]; simpl in Hdo.
  - destruct (futures p !! i) as [[group|att todo|att r]|] eqn:Hi;
      try discriminate.
    destruct (_ && _); [|discriminate]. inversion Hdo; subst p'. simpl.
    pose proof (sum_list_with_insert task_work _ i _ (Running [] group) Hi).
    simpl in *. lia.
  - destruct (futures p !! i) as [[group|att todo|att r]|] eqn:Hi;
      try discriminate.
    destruct todo as [|blob todo].
    + inversion Hdo; subst p'. simpl.
      pose proof (sum_list_with_insert task_work _ i _
                    (Finished att (inr tt)) Hi).
      simpl in *. lia.
    + destruct (download_one fs bucket_name destination_folder blob
                  (pool_world p)) as [[e|[]] w'];
        inversion Hdo; subst p'; simpl.
      * pose proof (sum_list_with_insert task_work _ i _
                      (Finished (att ++ [blob]) (inl e)) Hi).
        simpl in *. lia.
      * pose proof (sum_list_with_insert task_work _ i _
                      (Running (att ++ [blob]) todo) Hi).
        simpl in *. lia.
  - destruct (futures p !! i) as [[group|att todo|att r]|] eqn:Hi;
      try discriminate.
    destruct (bool_decide (i ∈ collected p)); [discriminate|].
    inversion Hdo; subst p'. simpl. rewrite length_app. simpl. lia.
Qed.


Lemma collected_bound p :
  inv_ p -> (length (collected p) <= length grouped_blobs)%nat.
Proof.
  intros Hinv.
  rewrite (Forall2_length _ _ _ (inv_futures _ _ _ _ _ _ Hinv)).
  rewrite <- (length_seq (length (futures p)) 0).
  apply submseteq_length, NoDup_submseteq; [apply Hinv|].
  intros i Hi.
  destruct (inv_collected_finished _ _ _ _ _ _ Hinv i Hi) as (a & r & Hf).
  apply elem_of_seq. apply lookup_lt_Some in Hf. lia.
Qed.


(** When the main thread has taken every future, every group has a
    completed task that carries the outcome of that group. *)
Lemma pool_complete_finished p :
  inv_ p -> pool_complete p ->
  Forall2 (finished_for fs bucket_name destination_folder)
          grouped_blobs (futures p).
Proof.
  intros Hinv Hdone.
  pose proof (inv_futures _ _ _ _ _ _ Hinv) as Hall.
  apply Forall2_same_length_lookup. split; [eapply Forall2_length; eauto|].
  intros i g f Hg Hf.
  destruct (inv_collected_finished _ _ _ _ _ _ Hinv i (Hdone i f Hf))
    as (att & r & Hfin).
  rewrite Hf in Hfin. inversion Hfin; subst f.
  exists att, r. split; [reflexivity|].
  exact (Forall2_lookup_lr _ _ _ _ _ _ Hall Hg Hf).
Qed.

(** From every pool that has been reached a schedule leads to completion. *)
Lemma pool_can_complete p :
  0 < num_threads ->
  inv_ p ->
  exists schedule p', run_ schedule p = Some p' /\ pool_complete p'.
Proof.
  intros Hthreads.
  remember (pool_work p + length grouped_blobs - length (collected p))%nat
    as m eqn:Hm.
  revert p Hm. induction m as [m IH] using lt_wf_ind. intros p Hm Hinv.
  destruct (pool_progress p Hthreads Hinv) as [Hdone|(a & p1 & Hdo)].
  - exists [], p. split; [reflexivity|exact Hdone].
  - pose proof (pool_inv_step _ _ _ Hinv Hdo) as Hinv1.
    pose proof (pool_do_work _ _ _ Hdo) as Hwork.
    pose proof (collected_bound _ Hinv) as Hc.
    pose proof (collected_bound _ Hinv1) as Hc1.
    destruct (IH (pool_work p1 + length grouped_blobs
                  - length (collected p1))%nat ltac:(lia) p1 eq_refl Hinv1)
      as (rest & p' & Hrun & Hdone).
    exists (a :: rest), p'. split; [|exact Hdone].
    simpl. rewrite Hdo. exact Hrun.
Qed.

End SchedulerFacts.

(** The driver raises only what its setup raises, or the error of a pool
    without workers: no error of a transfer leaves it. *)
Lemma download_all_files_raises
    chk fs gcs_path destination_folder max_size_mb num_threads w e w' :
  download_all_files chk fs gcs_path destination_folder max_size_mb num_threads
    w (inl e) w' ->
  download_all_files_setup chk fs gcs_path destination_folder max_size_mb w
  = (inl e, w')
  \/ (num_threads <= 0
      /\ e = ValueError "max_workers must be greater than 0").
Proof.
  intros H. inversion H; subst; auto.
Qed.

(** With at least one worker, the driver returns once its setup has. *)
Lemma download_all_files_returns
    chk fs gcs_path destination_folder max_size_mb num_threads
    w bucket_name grouped_blobs w1 :
  download_all_files_setup chk fs gcs_path destination_folder max_size_mb w
  = (inr (bucket_name, grouped_blobs), w1) ->
  0 < num_threads ->
  exists w',
    download_all_files chk fs gcs_path destination_folder max_size_mb
      num_threads w (inr tt) w'.
Proof.
  intros Hsetup Hthreads.
  destruct (pool_can_complete fs bucket_name destination_folder num_threads
              grouped_blobs w1 (pool_init grouped_blobs w1) Hthreads
              (pool_inv_init _ _ _ _ _))
    as (schedule & p & Hrun & Hdone).
  exists (pool_world p). eapply daf_returns; eauto.
Qed.



(** The run of the fixture: the first group fails, the second is
    transferred all the same, both futures are collected, and the one error
    is printed. *)
Example demo_pool_run :
  collected demo_pool_final = [0; 1]%nat
  /\ stdout (pool_world demo_pool_final)
     = [ErrorDownloading (OSError "connection reset")]
  /\ read_file (pool_world demo_pool_final) "/data/a"
     = Some (list_ascii_of_string "bkt/a").
Proof. repeat split; vm_compute; reflexivity. Qed.

(* ===================================================================== *)
(** * Further properties of the code *)
(* ===================================================================== *)

(** ** Grouping engine *)

Lemma chained_snoc {A} (R : A -> A -> Prop) (l : list A) x y :
  chained R (l ++ [x]) -> R x y -> chained R ((l ++ [x]) ++ [y]).
Proof.
  induction l as [|a l IH]; intros Hl Hxy; simpl in *.
  - auto.
  - destruct (l ++ [x]) as [|b t] eqn:Ht.
    + destruct l; discriminate.
    + simpl in *. destruct Hl as [Hab Hrest]. split; [exact Hab|].
      apply IH; assumption.
Qed.

Lemma chained_last {A} (R : A -> A -> Prop) (l : list A) x x' :
  chained R (l ++ [x]) ->
  (forall z, R z x -> R z x') ->
  chained R (l ++ [x']).
Proof.
  induction l as [|a l IH]; intros Hl Hx; simpl in *.
  - exact I.
  - destruct l as [|b l]; simpl in *.
    + destruct Hl as [Hax _]. auto.
    + destruct Hl as [Hab Hrest]. split; [exact Hab|]. apply IH; assumption.
Qed.

Lemma chained_lookup {A} (R : A -> A -> Prop) (l : list A) : forall i x y,
  chained R l -> l !! i = Some x -> l !! S i = Some y -> R x y.
Proof.
  induction l as [|a l IH]; intros i x y Hl Hx Hy; [discriminate|].
  destruct l as [|b l]; [discriminate|].
  destruct Hl as [Hab Hrest].
  destruct i as [|i]; simpl in *.
  - inversion Hx; inversion Hy; subst. exact Hab.
  - eapply IH; eauto.
Qed.

Section GroupingMore.
Variable fs : GCSFileSystem.
Variable max_size_bytes : Z.

(** Loop invariant: the closed groups followed by the open one are chained
    by [overflows]; the running size is the total of the open group; and
    the open group is empty only before the first object. *)
Lemma tight_group_step st blob s :
  chained (overflows fs max_size_bytes)
    (grouped_blobs st ++ [current_group st]) ->
  group_total fs (current_group st) = inr (current_size st) ->
  (current_group st = [] -> grouped_blobs st = []) ->
  get_blob_size fs blob = inr s ->
  let st' := group_step max_size_bytes st blob s in
  chained (overflows fs max_size_bytes)
    (grouped_blobs st' ++ [current_group st'])
  /\ group_total fs (current_group st') = inr (current_size st')
  /\ current_group st' <> [].
Proof.
  intros Hchain Htot Hempty Hs. unfold group_step.
  destruct (Z.gtb_spec (current_size st + s) max_size_bytes) as [Hgt|Hfit];
    simpl.
  - split; [|split].
    + apply chained_snoc; [exact Hchain|].
      exists (current_size st), blob, s. auto.
    + unfold get_blob_size in *. rewrite Hs. f_equal. lia.
    + discriminate.
  - split; [|split].
    + apply (chained_last _ _ (current_group st)); [exact Hchain|].
      intros z (t & b & sb & Hz & Hhead & Hsb & Hover).
      exists t, b, sb. repeat split; try assumption.
      destruct (current_group st); [discriminate|exact Hhead].
    + apply group_total_app; assumption.
    + intros H. apply app_eq_nil in H. destruct H; discriminate.
Qed.

Lemma tight_group_loop blobs : forall st st',
  chained (overflows fs max_size_bytes)
    (grouped_blobs st ++ [current_group st]) ->
  group_total fs (current_group st) = inr (current_size st) ->
  (current_group st = [] -> grouped_blobs st = []) ->
  group_loop fs max_size_bytes blobs st = inr st' ->
  chained (overflows fs max_size_bytes)
    (grouped_blobs st' ++ [current_group st'])
  /\ (current_group st' = [] -> grouped_blobs st' = []).
Proof.
  induction blobs as [|blob rest IH]; intros st st' Hc Ht He H; simpl in H.
  - inversion H; subst. auto.
  - destruct (get_blob_size fs blob) as [e|s] eqn:Hs; [discriminate|].
    destruct (tight_group_step st blob s Hc Ht He Hs) as (Hc' & Ht' & Hne).
    eapply IH; [exact Hc'|exact Ht'| |exact H].
    intros Hnil. contradiction.
Qed.

(** When nothing is ever over the budget the loop closes no group. *)
Lemma roomy_group_loop blobs : forall st total,
  group_total fs blobs = inr total ->
  Forall (fun b => exists s, get_blob_size fs b = inr s /\ 0 <= s) blobs ->
  current_size st + total <= max_size_bytes ->
  group_loop fs max_size_bytes blobs st
  = inr {| grouped_blobs := grouped_blobs st;
           current_group := current_group st ++ blobs;
           current_size := current_size st + total |}.
Proof.
  induction blobs as [|blob rest IH]; intros st total Htot Hpos Hfit;
    simpl in *.
  - inversion Htot; subst. rewrite app_nil_r, Z.add_0_r.
    destruct st; reflexivity.
  - inversion Hpos as [|? ? (s & Hs & Hs0) Hrest]; subst.
    rewrite Hs in *.
    destruct (group_total fs rest) as [e|t] eqn:Ht; [discriminate|].
    inversion Htot; subst total.
    assert (Ht0 : 0 <= t).
    { clear - Ht Hrest. revert t Ht.
      induction Hrest as [|b l (sb & Hsb & Hsb0) _ IHl]; intros t Ht;
        simpl in Ht.
      - inversion Ht. lia.
      - rewrite Hsb in Ht.
        destruct (group_total fs l) as [e|tl]; [discriminate|].
        inversion Ht. specialize (IHl tl eq_refl). lia. }
    unfold group_step at 1.
    destruct (Z.gtb_spec (current_size st + s) max_size_bytes) as [Hgt|_];
      [lia|].
    rewrite (IH _ t eq_refl Hrest) by (simpl; lia). simpl.
    rewrite <- app_assoc. f_equal. f_equal. lia.
Qed.

(** When every object is exactly as large as a positive budget, every
    object after the first closes the group before it. *)
Lemma exact_group_loop blobs : forall closed blob,
  0 < max_size_bytes ->
  Forall (fun b => get_blob_size fs b = inr max_size_bytes) blobs ->
  try_map group_finish
    (group_loop fs max_size_bytes blobs
       {| grouped_blobs := closed; current_group := [blob];
          current_size := max_size_bytes |})
  = inr (closed ++ map (fun b => [b]) (blob :: blobs)).
Proof.
  induction blobs as [|b rest IH]; intros closed blob Hmax Hall; simpl.
  - reflexivity.
  - inversion Hall as [|? ? Hb Hrest]; subst. rewrite Hb.
    unfold group_step. simpl.
    destruct (Z.gtb_spec (max_size_bytes + max_size_bytes) max_size_bytes)
      as [_|Hle]; [|lia].
    simpl. rewrite Z.add_0_l. rewrite (IH (closed ++ [[blob]]) b Hmax Hrest).
    rewrite <- app_assoc. reflexivity.
Qed.

End GroupingMore.

(** Empty groups.  Whenever [group_blobs_by_size] returns, every group
    after the first has a member, and the first group is empty exactly when
    the first object of the listing is alone larger than the budget. *)
Theorem only_first_group_can_be_empty fs blobs max_size_mb groups :
  group_blobs_by_size fs blobs max_size_mb = inr groups ->
  Forall (fun g => g <> []) (tail groups)
  /\ (head groups = Some []
      <-> exists blob rest s,
            blobs = blob :: rest
            /\ get_blob_size fs blob = inr s
            /\ max_size_mb * 1024 * 1024 < s).
Proof.
  rewrite group_blobs_by_size_vs_greedy.
  destruct blobs as [|blob rest].
  { intros H. inversion H; subst. split; [constructor|].
    split; [discriminate|]. intros (b & r & s & Hb & _). discriminate. }
  destruct (get_blob_size fs blob) as [e|s] eqn:Hs; [discriminate|].
  destruct (Z.gtb_spec s (max_size_mb * 1024 * 1024)) as [Hgt|Hle].
  - destruct (greedy_group fs (blob :: rest) (max_size_mb * 1024 * 1024))
      as [e|gs] eqn:Hg; [discriminate|].
    intros H. inversion H; subst groups. simpl. split.
    + eapply greedy_group_no_empty; eauto.
    + split; [|reflexivity]. intros _. exists blob, rest, s. auto.
  - intros Hg. pose proof (greedy_group_no_empty _ _ _ _ Hg) as Hne.
    split.
    + destruct groups as [|g gs]; [constructor|].
      inversion Hne; subst. assumption.
    + split.
      * intros Hhead. destruct groups as [|g gs]; [discriminate|].
        inversion Hhead; subst g. inversion Hne; subst. congruence.
      * intros (b & r & s' & Hb & Hs' & Hover).
        inversion Hb; subst b r. rewrite Hs in Hs'. inversion Hs'. lia.
Qed.

Lemma only_first_group_can_be_empty_witness :
  group_blobs_by_size demo_fs ["bkt/big"; "bkt/a"] 1
  = inr [[]; ["bkt/big"]; ["bkt/a"]]
  /\ Forall (fun g => g <> []) (tail [[]; ["bkt/big"]; ["bkt/a"]])
  /\ (head [[]; ["bkt/big"]; ["bkt/a"]] = Some []
      <-> exists blob rest s,
            ["bkt/big"; "bkt/a"] = blob :: rest
            /\ get_blob_size demo_fs blob = inr s
            /\ 1 * 1024 * 1024 < s).
Proof.
  assert (H : group_blobs_by_size demo_fs ["bkt/big"; "bkt/a"] 1
              = inr [[]; ["bkt/big"]; ["bkt/a"]]) by reflexivity.
  split; [exact H|].
  exact (only_first_group_can_be_empty demo_fs _ 1 _ H).
Defined.

(** Greedy packing.  Whenever [group_blobs_by_size] returns, a group that
    is followed by another one could not have taken the first object of
    that next group: its total plus the size of that object is over the
    budget. *)
Theorem closed_group_could_not_take_next
    fs blobs max_size_mb groups i group next :
  group_blobs_by_size fs blobs max_size_mb = inr groups ->
  groups !! i = Some group ->
  groups !! S i = Some next ->
  overflows fs (max_size_mb * 1024 * 1024) group next.
Proof.
  unfold group_blobs_by_size. intros H Hi Hnext.
  destruct (group_loop fs (max_size_mb * 1024 * 1024) blobs group_init)
    as [e|st] eqn:Hloop; [discriminate|].
  inversion H; subst groups. clear H.
  destruct (tight_group_loop fs (max_size_mb * 1024 * 1024) blobs
              group_init st) as [Hchain Hempty]; auto.
  { simpl. exact I. }
  unfold group_finish in *.
  destruct (current_group st) as [|b g] eqn:Hcur.
  - rewrite (Hempty eq_refl) in Hi. discriminate.
  - eapply chained_lookup; eauto.
Qed.

Lemma closed_group_could_not_take_next_witness :
  group_blobs_by_size demo_fs ["bkt/a"; "bkt/b"; "bkt/c"] 2
  = inr [["bkt/a"; "bkt/b"]; ["bkt/c"]]
  /\ [["bkt/a"; "bkt/b"]; ["bkt/c"]] !! 0%nat = Some ["bkt/a"; "bkt/b"]
  /\ [["bkt/a"; "bkt/b"]; ["bkt/c"]] !! 1%nat = Some ["bkt/c"]
  /\ overflows demo_fs (2 * 1024 * 1024) ["bkt/a"; "bkt/b"] ["bkt/c"].
Proof.
  assert (H : group_blobs_by_size demo_fs ["bkt/a"; "bkt/b"; "bkt/c"] 2
              = inr [["bkt/a"; "bkt/b"]; ["bkt/c"]]) by reflexivity.
  assert (H0 : [["bkt/a"; "bkt/b"]; ["bkt/c"]] !! 0%nat
               = Some ["bkt/a"; "bkt/b"]) by reflexivity.
  assert (H1 : [["bkt/a"; "bkt/b"]; ["bkt/c"]] !! 1%nat = Some ["bkt/c"])
    by reflexivity.
  split; [exact H|]. split; [exact H0|]. split; [exact H1|].
  exact (closed_group_could_not_take_next demo_fs _ 2 _ 0 _ _ H H0 H1).
Defined.

(** A listing that fits.  For a non-empty listing of objects of sizes that
    are not negative and whose total is within the budget,
    [group_blobs_by_size] returns the whole listing as its one group. *)
Theorem one_group_when_everything_fits fs blobs max_size_mb total :
  blobs <> [] ->
  group_total fs blobs = inr total ->
  total <= max_size_mb * 1024 * 1024 ->
  Forall (fun b => exists s, get_blob_size fs b = inr s /\ 0 <= s) blobs ->
  group_blobs_by_size fs blobs max_size_mb = inr [blobs].
Proof.
  intros Hne Htot Hfit Hpos. unfold group_blobs_by_size.
  rewrite (roomy_group_loop fs _ blobs group_init total Htot Hpos)
    by (simpl; lia).
  unfold group_finish. simpl.
  destruct blobs; [congruence|reflexivity].
Qed.

Lemma one_group_when_everything_fits_witness :
  ["bkt/a"; "bkt/b"] <> []
  /\ group_total demo_fs ["bkt/a"; "bkt/b"] = inr (2 * MiB)
  /\ 2 * MiB <= 2 * 1024 * 1024
  /\ Forall (fun b => exists s, get_blob_size demo_fs b = inr s /\ 0 <= s)
            ["bkt/a"; "bkt/b"]
  /\ group_blobs_by_size demo_fs ["bkt/a"; "bkt/b"] 2
     = inr [["bkt/a"; "bkt/b"]].
Proof.
  assert (H1 : ["bkt/a"; "bkt/b"] <> []) by discriminate.
  assert (H2 : group_total demo_fs ["bkt/a"; "bkt/b"] = inr (2 * MiB))
    by reflexivity.
  assert (H3 : 2 * MiB <= 2 * 1024 * 1024) by (unfold MiB; lia).
  assert (H4 : Forall (fun b => exists s, get_blob_size demo_fs b = inr s
                                          /\ 0 <= s) ["bkt/a"; "bkt/b"]).
  { repeat constructor; exists MiB; (split; [reflexivity|unfold MiB; lia]). }
  split; [exact H1|]. split; [exact H2|]. split; [exact H3|].
  split; [exact H4|].
  exact (one_group_when_everything_fits demo_fs _ 2 _ H1 H2 H3 H4).
Defined.

(** Objects that fill the budget.  When the budget is positive and every
    object of the listing is exactly as large as the budget,
    [group_blobs_by_size] returns one singleton group per object, in
    listing order. *)
Theorem singletons_when_each_object_fills_budget fs blobs max_size_mb :
  0 < max_size_mb ->
  Forall (fun b => get_blob_size fs b = inr (max_size_mb * 1024 * 1024))
         blobs ->
  group_blobs_by_size fs blobs max_size_mb
  = inr (map (fun b => [b]) blobs).
Proof.
  intros Hmax Hall. unfold group_blobs_by_size.
  destruct blobs as [|blob rest]; [reflexivity|].
  inversion Hall as [|? ? Hb Hrest]; subst. simpl. rewrite Hb.
  unfold group_step. simpl.
  destruct (Z.gtb_spec (0 + max_size_mb * 1024 * 1024)
              (max_size_mb * 1024 * 1024)) as [Hgt|_]; [lia|].
  simpl. rewrite Z.add_0_l.
  pose proof (exact_group_loop fs (max_size_mb * 1024 * 1024) rest [] blob
                ltac:(lia) Hrest) as Hloop.
  destruct (group_loop fs (max_size_mb * 1024 * 1024) rest _) as [e|st];
    [discriminate|].
  simpl in Hloop. inversion Hloop. reflexivity.
Qed.

Lemma singletons_when_each_object_fills_budget_witness :
  0 < 1
  /\ Forall (fun b => get_blob_size demo_fs b = inr (1 * 1024 * 1024))
            ["bkt/a"; "bkt/b"]
  /\ group_blobs_by_size demo_fs ["bkt/a"; "bkt/b"] 1
     = inr (map (fun b => [b]) ["bkt/a"; "bkt/b"]).
Proof.
  assert (H1 : 0 < 1) by lia.
  assert (H2 : Forall (fun b => get_blob_size demo_fs b
                                = inr (1 * 1024 * 1024)) ["bkt/a"; "bkt/b"])
    by (repeat constructor).
  split; [exact H1|]. split; [exact H2|].
  exact (singletons_when_each_object_fills_budget demo_fs _ 1 H1 H2).
Defined.

(** ** Path parser *)

Section ParserMore.
Import pystr pystr_facts urllib_parse.




Lemma remove_keeps p c s :
  all_chars p s = true -> all_chars p (remove c s) = true.
Proof.
  induction s as [|d s IH]; simpl; [reflexivity|].
  intros H. apply andb_prop in H. destruct H as [Hd Hs].
  destruct (Ascii.eqb d c); simpl; [auto|]. rewrite Hd. auto.
Qed.

Lemma remove_gone c s :
  all_chars (fun d => negb (Ascii.eqb d c)) (remove c s) = true.
Proof.
  induction s as [|d s IH]; simpl; [reflexivity|].
  destruct (Ascii.eqb d c) eqn:Hd; simpl; [exact IH|].
  rewrite Hd. exact IH.
Qed.


Lemma remove_unsafe_bytes_clean s :
  all_chars (fun c => negb (is_unsafe_byte c)) (remove_unsafe_bytes s) = true.
Proof.
  unfold remove_unsafe_bytes.
  pose proof (remove_gone "010" (remove "013" (remove "009" s))) as H10.
  pose proof (remove_keeps (fun d => negb (Ascii.eqb d "013")) "010" _
                (remove_gone "013" (remove "009" s))) as H13.
  pose proof (remove_keeps (fun d => negb (Ascii.eqb d "009")) "010" _
                (remove_keeps (fun d => negb (Ascii.eqb d "009")) "013" _
                   (remove_gone "009" s))) as H09.
  induction (remove "010" (remove "013" (remove "009" s))) as [|c t IH];
    simpl in *; [reflexivity|].
  apply andb_prop in H10, H13, H09.
  destruct H10 as [A1 A2], H13 as [B1 B2], H09 as [C1 C2].
  rewrite (IH A2 B2 C2), andb_true_r. unfold is_unsafe_byte.
  destruct (Ascii.eqb c "009"), (Ascii.eqb c "010"), (Ascii.eqb c "013");
    try discriminate; reflexivity.
Qed.



(** The two halves of a span, and a stripped text, keep what holds of
    every character; the first half holds no stop character. *)
Lemma span_until_keeps p stop s :
  all_chars p s = true ->
  all_chars p (fst (span_until stop s)) = true
  /\ all_chars p (snd (span_until stop s)) = true.
Proof.
  induction s as [|c s IH]; simpl; [auto|].
  intros H. apply andb_prop in H. destruct H as [Hc Hs].
  destruct (contains c stop); simpl.
  - rewrite Hc, Hs. auto.
  - destruct (IH Hs) as [H1 H2].
    destruct (span_until stop s). simpl in *. rewrite Hc, H1. auto.
Qed.

Lemma span_until_stops stop s :
  all_chars (fun c => negb (contains c stop)) (fst (span_until stop s)) = true.
Proof.
  induction s as [|c s IH]; simpl; [reflexivity|].
  destruct (contains c stop) eqn:Hc; simpl; [reflexivity|].
  destruct (span_until stop s). simpl in *. rewrite Hc, IH. reflexivity.
Qed.

Lemma lstrip_keeps p chars s :
  all_chars p s = true -> all_chars p (lstrip chars s) = true.
Proof.
  induction s as [|c s IH]; simpl; [reflexivity|].
  intros H. destruct (contains c chars); [|exact H].
  apply andb_prop in H. apply IH, H.
Qed.



Lemma free_of_join stop s :
  all_chars (fun c => negb (contains c stop)) s = true ->
  all_chars (fun c => negb (is_unsafe_byte c)) s = true ->
  free_of stop s = true.
Proof.
  unfold free_of. induction s as [|c s IH]; simpl; [reflexivity|].
  intros H1 H2. apply andb_prop in H1, H2.
  destruct H1 as [A1 A2], H2 as [B1 B2].
  rewrite A1, B1, (IH A2 B2). reflexivity.
Qed.

End ParserMore.

Section ParserMoreTheorems.
Import pystr pystr_facts urllib_parse.
Variable check_bracketed_netloc : string -> try_ unit.



(** What the parser drops.  For every accepted location, the returned
    container holds none of [/?#] and the returned prefix none of [?#];
    neither holds a tab, CR or LF.  A query or fragment part of the
    location is not part of the prefix. *)
Theorem parse_gcs_path_drops_delimiters gcs_path bucket_name prefix :
  parse_gcs_path check_bracketed_netloc gcs_path = inr (bucket_name, prefix) ->
  free_of "/?#" bucket_name = true /\ free_of "?#" prefix = true.
Proof.
  rewrite parse_gcs_path_cases.
  destruct (startswith gcs_path "gs://"); cbn [negb]; [|discriminate].
  cbv zeta. intros H.
  assert (Hres : bucket_name = gcs_container (drop 5 gcs_path)
                 /\ prefix = gcs_prefix (drop 5 gcs_path)).
  { destruct (unmatched_bracket _); [discriminate|].
    destruct (_ && _).
    - destruct (check_bracketed_netloc _); [discriminate|].
      inversion H; auto.
    - inversion H; auto. }
  destruct Hres as [-> ->]. unfold gcs_container, gcs_prefix.
  pose proof (remove_unsafe_bytes_clean (drop 5 gcs_path)) as Hclean.
  set (r := remove_unsafe_bytes (drop 5 gcs_path)) in *.
  destruct (span_until_keeps _ "/?#" r Hclean) as [Hhost Hrest].
  split.
  - apply free_of_join; [apply span_until_stops|exact Hhost].
  - destruct (span_until_keeps _ "?#" _ Hrest) as [Hpath _].
    apply free_of_join; apply lstrip_keeps;
      [apply span_until_stops|exact Hpath].
Qed.

End ParserMoreTheorems.


Lemma parse_gcs_path_drops_delimiters_witness :
  parse_gcs_path urllib_parse.accept_bracketed_netloc "gs://bkt/pre/a#1?x"
  = inr ("bkt", "pre/a")
  /\ free_of "/?#" "bkt" = true /\ free_of "?#" "pre/a" = true.
Proof.
  assert (H : parse_gcs_path urllib_parse.accept_bracketed_netloc
                "gs://bkt/pre/a#1?x" = inr ("bkt", "pre/a")) by reflexivity.
  split; [exact H|].
  exact (parse_gcs_path_drops_delimiters
           urllib_parse.accept_bracketed_netloc _ _ _ H).
Defined.

(** ** Transfer executor *)

Lemma alter_known (m : gmap (list string) node) key chunk content :
  m !! key = Some (File content) ->
  alter (append_chunk chunk) key m = <[key := File (content ++ chunk)]> m.
Proof.
  intros Hk. apply map_eq. intros k.
  destruct (decide (key = k)) as [<-|Hne].
  - rewrite lookup_alter_eq, lookup_insert_eq, Hk. reflexivity.
  - rewrite lookup_alter_ne, lookup_insert_ne by exact Hne. reflexivity.
Qed.

Section TransferMore.
Variable fs : GCSFileSystem.

(** The copy loop, whatever its outcome, has appended to the file a leading
    part of what was left of the stream, all of it when it returns, and has
    changed nothing else. *)
Lemma copy_chunks_exact key fuel :
  forall blob_path name src calls remaining w r w' content,
  (length remaining < fuel)%nat ->
  nodes w !! key = Some (File content) ->
  copy_chunks fuel blob_path name src calls remaining key w = (r, w') ->
  exists part,
    part `prefix_of` remaining
    /\ nodes w' = <[key := File (content ++ part)]> (nodes w)
    /\ (r = inr tt -> part = remaining).
Proof.
  induction fuel as [|fuel IH]; intros * Hfuel Hfile Hrun; [lia|].
  assert (Hsame : forall w1, nodes w1 = nodes w ->
            nodes w1 = <[key := File (content ++ [])]> (nodes w)).
  { intros w1 ->. rewrite app_nil_r, insert_id by exact Hfile. reflexivity. }
  simpl in Hrun. rewrite bind_run in Hrun.
  destruct (read blob_path src calls remaining (1024 * 1024) w)
    as [[e|[chunk rest]] w1] eqn:Hread.
  - inversion Hrun; subst r w'. exists []. split; [apply prefix_nil|].
    split; [|discriminate]. apply Hsame.
    unfold read in Hread. rewrite bind_run in Hread. cbn [emit] in Hread.
    destruct (rf_fault src) as [[k e']|]; [|discriminate].
    destruct (Nat.eqb k calls); inversion Hread; reflexivity.
  - apply read_ok in Hread. destruct Hread as (Hsplit & Hnodes & Hcwd).
    pose proof (read_n_app (1024 * 1024) remaining) as Happ.
    rewrite <- Hsplit in Happ. simpl in Happ.
    destruct chunk as [|c chunk].
    + inversion Hrun; subst r w'. exists []. split; [apply prefix_nil|].
      split; [apply Hsame, Hnodes|]. intros _. symmetry.
      apply (read_n_empty (1024 * 1024)); [lia|].
      rewrite <- Hsplit. reflexivity.
    + rewrite bind_run in Hrun.
      destruct (write_ok key name (c :: chunk) w1 content)
        as (w2 & Hw & Hf2 & Hc2); [rewrite Hnodes; exact Hfile|].
      rewrite Hw in Hrun.
      assert (Hn2 : nodes w2
                    = <[key := File (content ++ c :: chunk)]> (nodes w)).
      { unfold write in Hw. rewrite bind_run in Hw. cbn [emit] in Hw.
        inversion Hw. cbn [nodes with_nodes with_event].
        rewrite Hnodes. apply alter_known, Hfile. }
      apply (IH _ _ _ _ _ _ _ _ (content ++ c :: chunk)) in Hrun;
        [|rewrite <- Happ in Hfuel; rewrite length_app in Hfuel;
          simpl in Hfuel; lia|exact Hf2].
      destruct Hrun as (part & Hpre & Hn & Hall).
      exists ((c :: chunk) ++ part). split; [|split].
      * rewrite <- Happ. apply prefix_app, Hpre.
      * rewrite Hn, Hn2, insert_insert_eq, <- app_assoc. reflexivity.
      * intros Hr. rewrite (Hall Hr). exact Happ.
Qed.

(** [open(file_name, 'wb')] changes the file system only by an empty file
    of that name, and only when it returns. *)
Lemma open_wb_exact file_name w r w' :
  open_wb file_name w = (r, w') ->
  match r with
  | inl _ => nodes w' = nodes w
  | inr key => key = resolve w file_name
               /\ nodes w' = <[key := File []]> (nodes w)
  end.
Proof.
  unfold open_wb. rewrite bind_run. cbn [emit].
  set (w1 := with_event (IoLocalOpen file_name) w).
  change (resolve w1 file_name) with (resolve w file_name).
  change (nodes w1) with (nodes w).
  destruct (String.eqb file_name EmptyString);
    [intros H; inversion H; reflexivity|].
  destruct (resolve w file_name) as [|c0 key0] eqn:Hkey;
    [intros H; inversion H; reflexivity|].
  rewrite <- Hkey in *.
  destruct (node_at w1 (removelast (resolve w file_name)))
    as [[|pc]|]; try (intros H; inversion H; reflexivity).
  destruct (nodes w !! resolve w file_name) as [[|fc]|];
    try (intros H; inversion H; reflexivity);
    destruct (pystr.endswith_char file_name "/");
    intros H; inversion H; subst; simpl; auto.
Qed.

(** Every outcome of [download_blob]: the file system is as before, or it
    differs by the destination file alone, which holds a leading part of
    the object's bytes, all of them when the call returns. *)
Lemma download_blob_exact blob_path name w r w' :
  download_blob fs blob_path name w = (r, w') ->
  (is_ok (fs_open_rb fs blob_path) = false -> nodes w' = nodes w)
  /\ (nodes w' = nodes w /\ is_ok r = false
      \/ exists src part,
           fs_open_rb fs blob_path = inr src
           /\ part `prefix_of` rf_content src
           /\ nodes w' = <[resolve w name := File part]> (nodes w)
           /\ (r = inr tt -> part = rf_content src)).
Proof.
  unfold download_blob. rewrite bind_run. cbn [emit].
  set (w1 := with_event (IoRemoteOpen blob_path) w).
  rewrite bind_run. unfold lift at 1.
  destruct (fs_open_rb fs blob_path) as [e|src].
  { intros H. inversion H; subst. simpl. auto. }
  rewrite bind_run.
  destruct (open_wb name w1) as [[e|key] w2] eqn:Ho.
  { apply open_wb_exact in Ho. intros H. inversion H; subst.
    split; [discriminate|]. left. auto. }
  pose proof (open_wb_ok _ _ _ _ Ho) as (_ & _ & Hfile & _).
  apply open_wb_exact in Ho. destruct Ho as [Hkey Hn2].
  change (resolve w1 name) with (resolve w name) in Hkey.
  change (nodes w1) with (nodes w) in Hn2. subst key.
  intros Hrun. split; [discriminate|]. right.
  apply (copy_chunks_exact _ _ _ _ _ _ _ _ _ _ []) in Hrun;
    [|simpl; lia|exact Hfile].
  destruct Hrun as (part & Hpre & Hn & Hall).
  exists src, part. split; [reflexivity|]. split; [exact Hpre|].
  split; [|exact Hall].
  rewrite Hn, Hn2, insert_insert_eq. reflexivity.
Qed.

End TransferMore.

(** When [download_blob] returns, the local file holds the object's bytes,
    all of them and nothing else, however many chunks the copy took, and
    that file is the only change to the local file system. *)
Theorem download_blob_copies_whole_object fs blob_path file_name w w' :
  download_blob fs blob_path file_name w = (inr tt, w') ->
  exists src,
    fs_open_rb fs blob_path = inr src
    /\ read_file w' file_name = Some (rf_content src)
    /\ nodes w' = <[resolve w file_name := File (rf_content src)]> (nodes w).
Proof.
  intros Hrun.
  destruct (download_blob_ok _ _ _ _ _ Hrun) as (src & Hsrc & Hne & Hfile & Hcwd).
  exists src. split; [exact Hsrc|]. split.
  - unfold read_file, node_at, resolve in *. rewrite Hcwd.
    destruct (posixpath.abs_comps (cwd w) file_name); [congruence|].
    rewrite Hfile. reflexivity.
  - apply download_blob_exact in Hrun.
    destruct Hrun as (_ & [[_ Hr]|(src' & part & Hsrc' & _ & Hn & Hall)]);
      [discriminate|].
    rewrite Hsrc in Hsrc'. inversion Hsrc'; subst src'.
    rewrite <- (Hall eq_refl). exact Hn.
Qed.

Lemma download_blob_copies_whole_object_witness :
  download_blob demo_fs "bkt/a" "/data/a" demo_world
  = (inr tt, snd (download_blob demo_fs "bkt/a" "/data/a" demo_world))
  /\ exists src,
       fs_open_rb demo_fs "bkt/a" = inr src
       /\ read_file (snd (download_blob demo_fs "bkt/a" "/data/a" demo_world))
            "/data/a" = Some (rf_content src)
       /\ nodes (snd (download_blob demo_fs "bkt/a" "/data/a" demo_world))
          = <[resolve demo_world "/data/a" := File (rf_content src)]>
              (nodes demo_world).
Proof.
  assert (Hrun : download_blob demo_fs "bkt/a" "/data/a" demo_world
                 = (inr tt,
                    snd (download_blob demo_fs "bkt/a" "/data/a" demo_world)))
    by (apply run_result; vm_compute; reflexivity).
  split; [exact Hrun|].
  exact (download_blob_copies_whole_object
           demo_fs "bkt/a" "/data/a" demo_world _ Hrun).
Defined.

(** When [download_blob] raises, it cleans nothing up.  If the object
    could not be opened the local file system is untouched, the
    destination file included; otherwise the local file system is as
    before, or differs by the destination file alone, which is left
    holding a leading part of the object's bytes (none of them when the
    first read failed). *)
Theorem download_blob_failure_leaves_leading_part
    fs blob_path file_name w e w' :
  download_blob fs blob_path file_name w = (inl e, w') ->
  (is_ok (fs_open_rb fs blob_path) = false -> nodes w' = nodes w)
  /\ (nodes w' = nodes w
      \/ exists src part,
           fs_open_rb fs blob_path = inr src
           /\ part `prefix_of` rf_content src
           /\ nodes w' = <[resolve w file_name := File part]> (nodes w)).
Proof.
  intros Hrun. apply download_blob_exact in Hrun.
  destruct Hrun as (Hopen & [[Hn _]|(src & part & Hsrc & Hpre & Hn & _)]).
  - split; [exact Hopen|]. left. exact Hn.
  - split; [exact Hopen|]. right. exists src, part. auto.
Qed.

Lemma download_blob_failure_leaves_leading_part_witness :
  download_blob demo_fs "bkt/flaky" "/data/a" demo_world_after_one
  = (inl (OSError "connection reset"),
     snd (download_blob demo_fs "bkt/flaky" "/data/a" demo_world_after_one))
  /\ read_file demo_world_after_one "/data/a"
     = Some (list_ascii_of_string "bkt/a")
  /\ read_file
       (snd (download_blob demo_fs "bkt/flaky" "/data/a" demo_world_after_one))
       "/data/a" = Some []
  /\ (is_ok (fs_open_rb demo_fs "bkt/flaky") = false ->
      nodes (snd (download_blob demo_fs "bkt/flaky" "/data/a"
                    demo_world_after_one))
      = nodes demo_world_after_one)
  /\ (nodes (snd (download_blob demo_fs "bkt/flaky" "/data/a"
                    demo_world_after_one))
      = nodes demo_world_after_one
      \/ exists src part,
           fs_open_rb demo_fs "bkt/flaky" = inr src
           /\ part `prefix_of` rf_content src
           /\ nodes (snd (download_blob demo_fs "bkt/flaky" "/data/a"
                            demo_world_after_one))
              = <[resolve demo_world_after_one "/data/a" := File part]>
                  (nodes demo_world_after_one)).
Proof.
  assert (Hrun : download_blob demo_fs "bkt/flaky" "/data/a"
                   demo_world_after_one
                 = (inl (OSError "connection reset"),
                    snd (download_blob demo_fs "bkt/flaky" "/data/a"
                           demo_world_after_one)))
    by (apply run_result; vm_compute; reflexivity).
  split; [exact Hrun|].
  split; [vm_compute; reflexivity|].
  split; [vm_compute; reflexivity|].
  exact (download_blob_failure_leaves_leading_part
           demo_fs "bkt/flaky" "/data/a" demo_world_after_one _ _ Hrun).
Defined.

(** *** An empty destination folder *)

Lemma rfind_absent c s : pystr.contains c s = false -> pystr.rfind c s = None.
Proof.
  induction s as [|d s IH]; simpl; [reflexivity|].
  intros H. apply orb_false_iff in H. destruct H as [Hd Hs].
  rewrite (IH Hs), Ascii.eqb_sym, Hd. reflexivity.
Qed.

Lemma startswith_absent c s :
  pystr.contains c s = false ->
  pystr.startswith s (String c EmptyString) = false.
Proof.
  destruct s as [|d s]; simpl; [reflexivity|].
  intros H. apply orb_false_iff in H. destruct H as [Hd _].
  rewrite Ascii.eqb_sym, Hd. reflexivity.
Qed.

(** A path without a slash has no directory part, and joined to the empty
    folder it is itself. *)
Lemma dirname_flat s :
  pystr.contains "/" s = false -> posixpath.dirname s = EmptyString.
Proof.
  intros H. unfold posixpath.dirname, posixpath.split.
  rewrite (rfind_absent _ _ H). destruct s; reflexivity.
Qed.

Lemma join_empty_flat s :
  pystr.contains "/" s = false -> posixpath.join EmptyString s = s.
Proof.
  intros H. unfold posixpath.join.
  rewrite (startswith_absent _ _ H). reflexivity.
Qed.

(** With the empty string as destination folder, [download_group] stops at
    the first object that lies directly under the container: the file name
    has no directory part, [os.makedirs] is called with the empty string
    and raises [FileNotFoundError], and neither the object nor a local file
    is opened. *)
Theorem download_group_empty_destination_raises
    fs bucket_name blob rest w relative_path :
  posixpath.relpath (cwd w) blob (bucket_name ++ "/")%string
  = inr relative_path ->
  pystr.contains "/" relative_path = false ->
  download_group fs bucket_name (blob :: rest) EmptyString w
  = (inl (FileNotFoundError EmptyString),
     with_event (IoMakedirs EmptyString) w).
Proof.
  intros Hrel Hflat. cbn [download_group]. rewrite bind_run.
  unfold download_one. rewrite bind_run. cbn [get_cwd].
  rewrite bind_run. unfold lift at 1. unfold destination_of.
  rewrite Hrel, (join_empty_flat _ Hflat), bind_run, (dirname_flat _ Hflat).
  reflexivity.
Qed.

Lemma download_group_empty_destination_raises_witness :
  posixpath.relpath (cwd demo_world) "bkt/a" ("bkt" ++ "/")%string = inr "a"
  /\ pystr.contains "/" "a" = false
  /\ download_group demo_fs "bkt" ["bkt/a"; "bkt/b"] EmptyString demo_world
     = (inl (FileNotFoundError EmptyString),
        with_event (IoMakedirs EmptyString) demo_world).
Proof.
  assert (H1 : posixpath.relpath (cwd demo_world) "bkt/a" ("bkt" ++ "/")%string
               = inr "a") by (vm_compute; reflexivity).
  assert (H2 : pystr.contains "/" "a" = false) by reflexivity.
  split; [exact H1|]. split; [exact H2|].
  exact (download_group_empty_destination_raises
           demo_fs "bkt" "bkt/a" ["bkt/b"] demo_world "a" H1 H2).
Defined.

(** ** The driver's setup *)

Section DriverMore.
Variable check_bracketed_netloc : string -> try_ unit.
Variable fs : GCSFileSystem.

Local Abbreviation setup_ :=
  (download_all_files_setup check_bracketed_netloc fs).
Local Abbreviation run_all :=
  (download_all_files check_bracketed_netloc fs).

Lemma ensure_folder_there destination_folder w :
  path_exists w destination_folder = true ->
  ensure_folder destination_folder w = (inr tt, w).
Proof.
  intros H. unfold ensure_folder. rewrite bind_run.
  unfold os_path_exists. rewrite H. reflexivity.
Qed.

Lemma ensure_folder_new destination_folder w :
  path_exists w destination_folder = false ->
  ensure_folder destination_folder w = makedirs destination_folder w.
Proof.
  intros H. unfold ensure_folder. rewrite bind_run.
  unfold os_path_exists at 1. rewrite H.
  unfold makedirs_new. rewrite bind_run.
  unfold os_path_exists. rewrite H. reflexivity.
Qed.

(** The setup, once the destination folder is there. *)
Lemma download_all_files_setup_steps
    gcs_path destination_folder max_size_mb w w1 :
  ensure_folder destination_folder w = (inr tt, w1) ->
  setup_ gcs_path destination_folder max_size_mb w
  = match parse_gcs_path check_bracketed_netloc gcs_path with
    | inl e => (inl e, w1)
    | inr (bucket_name, prefix) =>
        match list_blobs fs bucket_name prefix with
        | inl e => (inl e, w1)
        | inr blobs =>
            match group_blobs_by_size fs blobs max_size_mb with
            | inl e => (inl e, with_line (FoundFiles (length blobs)) w1)
            | inr grouped_blobs =>
                (inr (bucket_name, grouped_blobs),
                 with_line (GroupedChunks (length grouped_blobs))
                   (with_line (FoundFiles (length blobs)) w1))
            end
        end
    end.
Proof.
  intros Hfolder. unfold download_all_files_setup.
  unfold ensure_folder in Hfolder. rewrite bind_run in Hfolder.
  rewrite bind_run.
  destruct (os_path_exists destination_folder w) as [[e|there] w0];
    [discriminate|].
  rewrite bind_run, Hfolder, bind_run. unfold lift at 1.
  destruct (parse_gcs_path check_bracketed_netloc gcs_path)
    as [e|[bucket_name prefix]]; [reflexivity|].
  rewrite bind_run. unfold lift at 1.
  destruct (list_blobs fs bucket_name prefix) as [e|blobs]; [reflexivity|].
  rewrite bind_run. unfold print at 1. rewrite bind_run. unfold lift at 1.
  destruct (group_blobs_by_size fs blobs max_size_mb) as [e|grouped_blobs];
    reflexivity.
Qed.

(** Whatever the setup raises is the one outcome of the driver. *)
Lemma download_all_files_setup_raised
    gcs_path destination_folder max_size_mb num_threads w e w1 :
  setup_ gcs_path destination_folder max_size_mb w = (inl e, w1) ->
  run_all gcs_path destination_folder max_size_mb num_threads w (inl e) w1
  /\ forall r w',
       run_all gcs_path destination_folder max_size_mb num_threads w r w' ->
       r = inl e /\ w' = w1.
Proof.
  intros Hsetup. split; [apply daf_setup_raises, Hsetup|].
  intros r w' Hrun. inversion Hrun; subst; rewrite Hsetup in *;
    try discriminate.
  match goal with H : (_, _) = (_, _) |- _ => inversion H; subst end.
  auto.
Qed.

Lemma group_loop_fails max_size_bytes blobs blob e : forall st,
  In blob blobs ->
  get_blob_size fs blob = inl e ->
  exists e', group_loop fs max_size_bytes blobs st = inl e'.
Proof.
  induction blobs as [|b rest IH]; intros st Hin Hbad; [contradiction|].
  simpl. destruct (get_blob_size fs b) as [eb|sb] eqn:Hb; [eauto|].
  destruct Hin as [->|Hin]; [congruence|]. apply IH; assumption.
Qed.

End DriverMore.

(** [download_all_files] creates the destination folder before it looks at
    the location.  Called with a location that [parse_gcs_path] rejects and
    a destination folder that does not exist yet, it raises the parser's
    error, and the folder it has created in the meantime stays behind. *)
Theorem download_all_files_creates_folder_before_parsing
    chk fs gcs_path destination_folder max_size_mb num_threads w w1 e :
  path_exists w destination_folder = false ->
  makedirs destination_folder w = (inr tt, w1) ->
  parse_gcs_path chk gcs_path = inl e ->
  download_all_files chk fs gcs_path destination_folder max_size_mb
    num_threads w (inl e) w1
  /\ (forall r w',
        download_all_files chk fs gcs_path destination_folder max_size_mb
          num_threads w r w' -> r = inl e /\ w' = w1)
  /\ path_isdir w1 destination_folder = true.
Proof.
  intros Hnew Hmk Hparse.
  assert (Hsetup : download_all_files_setup chk fs gcs_path destination_folder
                     max_size_mb w = (inl e, w1)).
  { rewrite (download_all_files_setup_steps chk fs _ _ _ w w1),
      Hparse; [reflexivity|].
    rewrite ensure_folder_new; assumption. }
  destruct (download_all_files_setup_raised chk fs _ _ _ num_threads _ _ _
              Hsetup) as [Hrun Honly].
  split; [exact Hrun|]. split; [exact Honly|].
  apply (makedirs_ok _ _ _ Hmk).
Qed.

Lemma download_all_files_creates_folder_before_parsing_witness :
  path_exists demo_world "/out/new" = false
  /\ makedirs "/out/new" demo_world
     = (inr tt, snd (makedirs "/out/new" demo_world))
  /\ parse_gcs_path (fun _ => inr tt) "s3://bkt/pre"
     = inl (ValueError "Invalid GCS path: s3://bkt/pre")
  /\ download_all_files (fun _ => inr tt) demo_fs "s3://bkt/pre" "/out/new"
       50 16 demo_world (inl (ValueError "Invalid GCS path: s3://bkt/pre"))
       (snd (makedirs "/out/new" demo_world))
  /\ (forall r w',
        download_all_files (fun _ => inr tt) demo_fs "s3://bkt/pre" "/out/new"
          50 16 demo_world r w' ->
        r = inl (ValueError "Invalid GCS path: s3://bkt/pre")
        /\ w' = snd (makedirs "/out/new" demo_world))
  /\ path_isdir (snd (makedirs "/out/new" demo_world)) "/out/new" = true.
Proof.
  assert (H1 : path_exists demo_world "/out/new" = false)
    by (vm_compute; reflexivity).
  assert (H2 : makedirs "/out/new" demo_world
               = (inr tt, snd (makedirs "/out/new" demo_world)))
    by (apply run_result; vm_compute; reflexivity).
  assert (H3 : parse_gcs_path (fun _ => inr tt) "s3://bkt/pre"
               = inl (ValueError "Invalid GCS path: s3://bkt/pre"))
    by (vm_compute; reflexivity).
  split; [exact H1|]. split; [exact H2|]. split; [exact H3|].
  exact (download_all_files_creates_folder_before_parsing
           (fun _ => inr tt) demo_fs "s3://bkt/pre" "/out/new" 50 16
           demo_world _ _ H1 H2 H3).
Defined.

(** One object whose size cannot be looked up stops the whole run before
    any transfer.  With the destination folder in place and the listing
    obtained, [download_all_files] raises the grouping's error after it has
    printed the number of objects found, and that line is the only change:
    no pool is created, no object is opened and no file is written. *)
Theorem download_all_files_size_failure_stops_before_transfers
    chk fs gcs_path destination_folder max_size_mb num_threads w
    bucket_name prefix blobs blob e :
  path_exists w destination_folder = true ->
  parse_gcs_path chk gcs_path = inr (bucket_name, prefix) ->
  list_blobs fs bucket_name prefix = inr blobs ->
  In blob blobs ->
  get_blob_size fs blob = inl e ->
  exists e',
    group_blobs_by_size fs blobs max_size_mb = inl e'
    /\ download_all_files chk fs gcs_path destination_folder max_size_mb
         num_threads w (inl e') (with_line (FoundFiles (length blobs)) w)
    /\ forall r w',
         download_all_files chk fs gcs_path destination_folder max_size_mb
           num_threads w r w' ->
         r = inl e' /\ w' = with_line (FoundFiles (length blobs)) w.
Proof.
  intros Hthere Hparse Hls Hin Hbad.
  destruct (group_loop_fails fs (max_size_mb * 1024 * 1024) blobs blob e
              group_init Hin Hbad) as [e' He'].
  assert (Hgroup : group_blobs_by_size fs blobs max_size_mb = inl e')
    by (unfold group_blobs_by_size; rewrite He'; reflexivity).
  exists e'. split; [exact Hgroup|].
  apply download_all_files_setup_raised.
  rewrite (download_all_files_setup_steps chk fs _ _ _ w w),
    Hparse, Hls, Hgroup; [reflexivity|].
  apply ensure_folder_there, Hthere.
Qed.

(** With an empty listing and at least one worker, [download_all_files]
    returns after printing its two lines (0 files, 0 chunks): nothing is
    grouped, no task is submitted, and the local file system is untouched. *)
Theorem download_all_files_empty_listing
    chk fs gcs_path destination_folder max_size_mb num_threads w
    bucket_name prefix :
  path_exists w destination_folder = true ->
  parse_gcs_path chk gcs_path = inr (bucket_name, prefix) ->
  list_blobs fs bucket_name prefix = inr [] ->
  0 < num_threads ->
  download_all_files chk fs gcs_path destination_folder max_size_mb
    num_threads w (inr tt)
    (with_line (GroupedChunks 0) (with_line (FoundFiles 0) w))
  /\ forall r w',
       download_all_files chk fs gcs_path destination_folder max_size_mb
         num_threads w r w' ->
       r = inr tt
       /\ w' = with_line (GroupedChunks 0) (with_line (FoundFiles 0) w).
Proof.
  intros Hthere Hparse Hls Hthreads.
  set (w2 := with_line (GroupedChunks 0) (with_line (FoundFiles 0) w)).
  assert (Hsetup : download_all_files_setup chk fs gcs_path destination_folder
                     max_size_mb w = (inr (bucket_name, []), w2)).
  { rewrite (download_all_files_setup_steps chk fs _ _ _ w w),
      Hparse, Hls; [reflexivity|].
    apply ensure_folder_there, Hthere. }
  split.
  - apply (daf_returns chk fs _ _ _ _ w bucket_name [] w2 []
             (pool_init [] w2) Hsetup Hthreads eq_refl).
    intros i f Hf. destruct i; discriminate Hf.
  - intros r w' Hrun. inversion Hrun; subst; rewrite Hsetup in *;
      try discriminate.
    + lia.
    + match goal with H : (_, _) = (_, _) |- _ => inversion H; subst end.
      split; [reflexivity|].
      match goal with
      | H : pool_run _ _ _ _ ?s _ = Some _ |- _ =>
          destruct s as [|[i|i|i] s]; simpl in H;
          [inversion H; reflexivity|discriminate..]
      end.
Qed.

Lemma download_all_files_size_failure_stops_before_transfers_witness :
  path_exists demo_world "/data" = true
  /\ parse_gcs_path (fun _ => inr tt) "gs://bkt/" = inr ("bkt", EmptyString)
  /\ list_blobs stale_fs "bkt" EmptyString = inr ["bkt/a"; "bkt/gone"]
  /\ In "bkt/gone" ["bkt/a"; "bkt/gone"]
  /\ get_blob_size stale_fs "bkt/gone" = inl (FileNotFoundError "bkt/gone")
  /\ exists e',
       group_blobs_by_size stale_fs ["bkt/a"; "bkt/gone"] 50 = inl e'
       /\ download_all_files (fun _ => inr tt) stale_fs "gs://bkt/" "/data"
            50 16 demo_world (inl e')
            (with_line (FoundFiles (length ["bkt/a"; "bkt/gone"])) demo_world)
       /\ forall r w',
            download_all_files (fun _ => inr tt) stale_fs "gs://bkt/" "/data"
              50 16 demo_world r w' ->
            r = inl e'
            /\ w' = with_line (FoundFiles (length ["bkt/a"; "bkt/gone"]))
                      demo_world.
Proof.
  assert (H1 : path_exists demo_world "/data" = true)
    by (vm_compute; reflexivity).
  assert (H2 : parse_gcs_path (fun _ => inr tt) "gs://bkt/"
               = inr ("bkt", EmptyString)) by (vm_compute; reflexivity).
  assert (H3 : list_blobs stale_fs "bkt" EmptyString
               = inr ["bkt/a"; "bkt/gone"]) by reflexivity.
  assert (H4 : In "bkt/gone" ["bkt/a"; "bkt/gone"]) by (simpl; auto).
  assert (H5 : get_blob_size stale_fs "bkt/gone"
               = inl (FileNotFoundError "bkt/gone")) by reflexivity.
  split; [exact H1|]. split; [exact H2|]. split; [exact H3|].
  split; [exact H4|]. split; [exact H5|].
  exact (download_all_files_size_failure_stops_before_transfers
           (fun _ => inr tt) stale_fs "gs://bkt/" "/data" 50 16 demo_world
           "bkt" EmptyString _ _ _ H1 H2 H3 H4 H5).
Defined.

Lemma download_all_files_empty_listing_witness :
  path_exists demo_world "/data" = true
  /\ parse_gcs_path (fun _ => inr tt) "gs://bkt/none" = inr ("bkt", "none")
  /\ list_blobs demo_fs "bkt" "none" = inr []
  /\ 0 < 16
  /\ download_all_files (fun _ => inr tt) demo_fs "gs://bkt/none" "/data"
       50 16 demo_world (inr tt)
       (with_line (GroupedChunks 0) (with_line (FoundFiles 0) demo_world))
  /\ forall r w',
       download_all_files (fun _ => inr tt) demo_fs "gs://bkt/none" "/data"
         50 16 demo_world r w' ->
       r = inr tt
       /\ w' = with_line (GroupedChunks 0)
                 (with_line (FoundFiles 0) demo_world).
Proof.
  assert (H1 : path_exists demo_world "/data" = true)
    by (vm_compute; reflexivity).
  assert (H2 : parse_gcs_path (fun _ => inr tt) "gs://bkt/none"
               = inr ("bkt", "none")) by (vm_compute; reflexivity).
  assert (H3 : list_blobs demo_fs "bkt" "none" = inr [])
    by (vm_compute; reflexivity).
  assert (H4 : 0 < 16) by lia.
  split; [exact H1|]. split; [exact H2|]. split; [exact H3|].
  split; [exact H4|].
  exact (download_all_files_empty_listing
           (fun _ => inr tt) demo_fs "gs://bkt/none" "/data" 50 16 demo_world
           "bkt" "none" H1 H2 H3 H4).
Defined.

(** ** The pool and the local files *)

(** Objects at different places of a grouping whose images under [f] are
    all different. *)
Lemma apart_concat {A B} (f : A -> B) (gs : list (list A)) :
  NoDup (map f (concat gs)) ->
  forall i j gi gj x y,
    gs !! i = Some gi -> gs !! j = Some gj -> i <> j ->
    In x gi -> In y gj -> f x <> f y.
Proof.
  induction gs as [|g gs IH]; intros Hnd i j gi gj x y Hi Hj Hne Hx Hy Heq.
  - rewrite lookup_nil in Hi. discriminate.
  - simpl in Hnd. rewrite map_app in Hnd.
    apply NoDup_app in Hnd. destruct Hnd as (_ & Hcross & Hrest).
    assert (Hin : forall k gk z, gs !! k = Some gk -> In z gk ->
              f z ∈ map f (concat gs)).
    { intros k gk z Hk Hz. apply list_elem_of_In, in_map, in_concat.
      exists gk. split; [|exact Hz].
      apply list_elem_of_In. eapply list_elem_of_lookup_2; eauto. }
    destruct i as [|i], j as [|j]; simpl in Hi, Hj.
    + congruence.
    + inversion Hi; subst gi. apply (Hcross (f x)).
      * apply list_elem_of_In, in_map, Hx.
      * rewrite Heq. eapply Hin; eauto.
    + inversion Hj; subst gj. apply (Hcross (f y)).
      * apply list_elem_of_In, in_map, Hy.
      * rewrite <- Heq. eapply Hin; eauto.
    + apply (IH Hrest i j gi gj x y); auto.
Qed.

Lemma apart_group {A B} (f : A -> B) (gs : list (list A)) :
  NoDup (map f (concat gs)) ->
  forall i before x after y,
    gs !! i = Some (before ++ x :: after) ->
    In y before -> f y <> f x.
Proof.
  induction gs as [|g gs IH]; intros Hnd i before x after y Hi Hy Heq.
  - rewrite lookup_nil in Hi. discriminate.
  - simpl in Hnd. rewrite map_app in Hnd.
    apply NoDup_app in Hnd. destruct Hnd as (Hg & _ & Hrest).
    destruct i as [|i]; simpl in Hi.
    + inversion Hi; subst g. rewrite map_app in Hg.
      apply NoDup_app in Hg. destruct Hg as (_ & Hcross & _).
      apply (Hcross (f y)).
      * apply list_elem_of_In, in_map, Hy.
      * rewrite Heq. simpl. left.
    + apply (IH Hrest i before x after y); auto.
Qed.

Section PoolFiles.
Variable fs : GCSFileSystem.
Variables bucket_name destination_folder : string.
Variable num_threads : Z.
Variable grouped_blobs : list (list string).
Variable w0 : World.
Hypothesis distinct_files :
  NoDup (map (dest_key w0 bucket_name destination_folder)
             (concat grouped_blobs)).

Local Abbreviation do_ :=
  (pool_do fs bucket_name destination_folder num_threads).
Local Abbreviation run_ :=
  (pool_run fs bucket_name destination_folder num_threads).
Local Abbreviation inv_ :=
  (pool_inv fs bucket_name destination_folder grouped_blobs w0).
Local Abbreviation files_ :=
  (disk_inv fs bucket_name destination_folder w0).
Local Abbreviation there_ :=
  (on_disk fs bucket_name destination_folder w0).

(** What a task has transferred is part of its group. *)
Lemma transferred_sub group f blob :
  future_of fs bucket_name destination_folder group f ->
  In blob (transferred f) -> In blob group.
Proof.
  destruct f as [g|att todo|att [e|u]]; simpl.
  - contradiction.
  - intros -> H. apply in_or_app. left. exact H.
  - intros (before & b & todo & w & w' & Hatt & Hg & _) H.
    subst att group. rewrite removelast_last in H.
    apply in_or_app. left. apply in_or_app. left. exact H.
  - intros -> H. exact H.
Qed.

Lemma on_disk_nodes w w' blob :
  nodes w' = nodes w -> there_ w blob -> there_ w' blob.
Proof.
  intros Hn (name & src & Hname & Hsrc & Hne & Hfile).
  exists name, src. rewrite Hn. auto.
Qed.

(** The transfer of [blob] keeps on disk every object that a task has
    transferred before. *)
Lemma on_disk_kept p i attempted blob todo j f other :
  inv_ p -> files_ p ->
  futures p !! i = Some (Running attempted (blob :: todo)) ->
  futures p !! j = Some f ->
  In other (transferred f) ->
  there_ (snd (download_one fs bucket_name destination_folder blob
                 (pool_world p))) other.
Proof.
  intros Hinv [Hcwd Hdisk] Hi Hj Hother.
  pose proof (inv_futures _ _ _ _ _ _ Hinv) as Hall.
  destruct (Forall2_lookup_r _ _ _ _ _ Hall Hi) as (gi & Hgi & Hfi).
  destruct (Forall2_lookup_r _ _ _ _ _ Hall Hj) as (gj & Hgj & Hfj).
  simpl in Hfi. subst gi.
  assert (Hapart : dest_key w0 bucket_name destination_folder other
                   <> dest_key w0 bucket_name destination_folder blob).
  { destruct (decide (j = i)) as [->|Hne].
    - rewrite Hi in Hj. inversion Hj; subst f. simpl in Hother.
      eapply apart_group; eauto.
    - eapply (apart_concat _ _ distinct_files j i); eauto.
      + eapply transferred_sub; eauto.
      + apply in_or_app. right. left. reflexivity. }
  destruct (Hdisk j f other Hj Hother) as (name & src & Hname & Hsrc & Hne & Hfile).
  pose proof (download_one_kept fs bucket_name destination_folder blob
                (pool_world p)) as (_ & _ & Hkeep).
  exists name, src. repeat split; try assumption.
  apply Hkeep; [|exact Hfile].
  rewrite (dest_key_cwd _ _ w0 (pool_world p) blob Hcwd).
  intros Heq. apply Hapart. rewrite Heq.
  unfold dest_key. rewrite Hname. reflexivity.
Qed.

Lemma disk_inv_insert p i f' w' :
  cwd w' = cwd w0 ->
  (i < length (futures p))%nat ->
  (forall blob, In blob (transferred f') -> there_ w' blob) ->
  (forall j f blob, j <> i -> futures p !! j = Some f ->
                    In blob (transferred f) -> there_ w' blob) ->
  files_ {| pool_world := w'; futures := <[i := f']> (futures p);
            collected := collected p |}.
Proof.
  intros Hcwd Hlen Hnew Hold. split; [exact Hcwd|]. simpl.
  intros j f blob Hj Hblob. destruct (decide (j = i)) as [->|Hne].
  - rewrite list_lookup_insert_eq in Hj by exact Hlen.
    inversion Hj; subst f. apply Hnew, Hblob.
  - rewrite list_lookup_insert_ne in Hj by auto. eapply Hold; eauto.
Qed.

Lemma disk_inv_step a p p' :
  inv_ p -> files_ p -> do_ a p = Some p' -> files_ p'.
Proof.
  intros Hinv Hfiles Hdo. pose proof Hfiles as [Hcwd Hdisk].
  destruct a as [i|i|i]; simpl in Hdo;
    destruct (futures p !! i) as [[group|att todo|att r]|] eqn:Hi;
    try discriminate;
    pose proof (lookup_lt_Some _ _ _ Hi) as Hlen.
  - destruct (_ && _); [|discriminate]. inversion Hdo; subst p'.
    apply disk_inv_insert; auto.
    + intros blob [].
    + intros j f blob _. apply Hdisk.
  - destruct todo as [|blob todo].
    + inversion Hdo; subst p'. apply disk_inv_insert; auto.
      * intros blob. apply (Hdisk i _ blob Hi).
      * intros j f blob _. apply Hdisk.
    + pose proof (fun j f other =>
                    on_disk_kept p i att blob todo j f other Hinv Hfiles Hi)
        as Hkept.
      pose proof (download_one_kept fs bucket_name destination_folder blob
                    (pool_world p)) as ([Hc _] & _).
      destruct (download_one fs bucket_name destination_folder blob
                  (pool_world p)) as [[e|[]] w'] eqn:Hone;
        inversion Hdo; subst p'; simpl in Hc, Hkept.
      * apply disk_inv_insert; auto; [congruence| |].
        -- simpl. rewrite removelast_last. intros other Hother.
           apply (Hkept i _ other Hi Hother).
        -- intros j f other _. apply Hkept.
      * apply disk_inv_insert; auto; [congruence| |].
        -- simpl. intros other Hother. apply in_app_or in Hother.
           destruct Hother as [Hother|[<-|[]]];
             [apply (Hkept i _ other Hi Hother)|].
           destruct (download_one_ok _ _ _ _ _ _ Hone)
             as (name & src & Hname & Hsrc & Hne & Hfile & _ & _).
           unfold resolve in Hne, Hfile. rewrite Hcwd in Hname, Hne, Hfile.
           exists name, src. auto.
        -- intros j f other _. apply Hkept.
  - destruct (bool_decide (i ∈ collected p)); [discriminate|].
    inversion Hdo; subst p'. split; simpl.
    + rewrite <- Hcwd. destruct r; reflexivity.
    + intros j f blob Hj Hblob.
      apply (on_disk_nodes (pool_world p)); [destruct r; reflexivity|].
      eapply Hdisk; eauto.
Qed.

Lemma disk_inv_run schedule : forall p p',
  inv_ p -> files_ p -> run_ schedule p = Some p' -> files_ p'.
Proof.
  induction schedule as [|a rest IH]; intros p p' Hinv Hfiles Hrun;
    simpl in Hrun.
  - inversion Hrun; subst. exact Hfiles.
  - destruct (do_ a p) as [p1|] eqn:Hdo; [|discriminate].
    eapply IH; [| |exact Hrun].
    + eapply pool_inv_step; eauto.
    + eapply disk_inv_step; eauto.
Qed.

Lemma disk_inv_init : files_ (pool_init grouped_blobs w0).
Proof.
  split; [reflexivity|]. simpl. intros i f blob Hi Hblob.
  rewrite list_lookup_fmap in Hi.
  destruct (grouped_blobs !! i); inversion Hi; subst f. contradiction.
Qed.

Lemma disk_inv_reached schedule p :
  run_ schedule (pool_init grouped_blobs w0) = Some p -> files_ p.
Proof.
  intros Hrun. eapply disk_inv_run; [| |exact Hrun].
  - apply pool_inv_init.
  - apply disk_inv_init.
Qed.

(** An object that is on disk can be read back under its file name. *)
Lemma on_disk_read w blob :
  cwd w = cwd w0 ->
  there_ w blob ->
  exists destination_file_name src,
    destination_of (cwd w0) bucket_name destination_folder blob
    = inr destination_file_name
    /\ fs_open_rb fs blob = inr src
    /\ read_file w destination_file_name = Some (rf_content src).
Proof.
  intros Hcwd (name & src & Hname & Hsrc & Hne & Hfile).
  exists name, src. split; [exact Hname|]. split; [exact Hsrc|].
  unfold read_file, node_at, resolve in *. rewrite Hcwd.
  destruct (posixpath.abs_comps (cwd w0) name); [congruence|].
  rewrite Hfile. reflexivity.
Qed.

End PoolFiles.

(** An object that a task of the pool has finished transferring is in its
    local file at every later point of the run, whatever the other tasks
    have done in between and whichever of them failed, provided no two of
    the listed objects have the same local file.  In particular every
    object of a group whose task returned is on disk. *)
Theorem transferred_objects_stay_on_disk
    fs bucket_name destination_folder num_threads grouped_blobs w0
    schedule p i f blob :
  NoDup (map (dest_key w0 bucket_name destination_folder)
             (concat grouped_blobs)) ->
  pool_run fs bucket_name destination_folder num_threads schedule
    (pool_init grouped_blobs w0) = Some p ->
  futures p !! i = Some f ->
  In blob (transferred f) ->
  exists destination_file_name src,
    destination_of (cwd w0) bucket_name destination_folder blob
    = inr destination_file_name
    /\ fs_open_rb fs blob = inr src
    /\ read_file (pool_world p) destination_file_name = Some (rf_content src).
Proof.
  intros Hdistinct Hrun Hi Hblob.
  destruct (disk_inv_reached fs bucket_name destination_folder num_threads
              grouped_blobs w0 Hdistinct schedule p Hrun) as [Hcwd Hdisk].
  apply on_disk_read; [exact Hcwd|]. eapply Hdisk; eauto.
Qed.

Lemma transferred_objects_stay_on_disk_witness :
  NoDup (map (dest_key demo_world "bkt" "/data") (concat demo_groups))
  /\ pool_run demo_fs "bkt" "/data" 1 demo_schedule
       (pool_init demo_groups demo_world) = Some demo_pool_final
  /\ futures demo_pool_final !! 1%nat = Some (Finished ["bkt/a"] (inr tt))
  /\ In "bkt/a" (transferred (Finished ["bkt/a"] (inr tt)))
  /\ exists destination_file_name src,
       destination_of (cwd demo_world) "bkt" "/data" "bkt/a"
       = inr destination_file_name
       /\ fs_open_rb demo_fs "bkt/a" = inr src
       /\ read_file (pool_world demo_pool_final) destination_file_name
          = Some (rf_content src).
Proof.
  assert (H1 : NoDup (map (dest_key demo_world "bkt" "/data")
                          (concat demo_groups)))
    by (apply (bool_decide_unpack _); vm_compute; reflexivity).
  assert (H2 : pool_run demo_fs "bkt" "/data" 1 demo_schedule
                 (pool_init demo_groups demo_world) = Some demo_pool_final)
    by (unfold demo_pool_final; apply run_some; vm_compute; reflexivity).
  assert (H3 : futures demo_pool_final !! 1%nat
               = Some (Finished ["bkt/a"] (inr tt)))
    by (vm_compute; reflexivity).
  assert (H4 : In "bkt/a" (transferred (Finished ["bkt/a"] (inr tt))))
    by (simpl; auto).
  split; [exact H1|]. split; [exact H2|]. split; [exact H3|].
  split; [exact H4|].
  exact (transferred_objects_stay_on_disk
           demo_fs "bkt" "/data" 1 demo_groups demo_world demo_schedule
           demo_pool_final 1%nat _ "bkt/a" H1 H2 H3 H4).
Defined.

Section DriverFiles.
Variable check_bracketed_netloc : string -> try_ unit.
Variable fs : GCSFileSystem.

Lemma ensure_folder_cwd destination_folder w r w' :
  ensure_folder destination_folder w = (r, w') -> cwd w' = cwd w.
Proof.
  unfold ensure_folder. rewrite bind_run. unfold os_path_exists at 1.
  destruct (path_exists w destination_folder) eqn:Hthere.
  - intros H. inversion H. reflexivity.
  - unfold makedirs_new. rewrite bind_run. unfold os_path_exists.
    rewrite Hthere.
    pose proof (preserves_makedirs None destination_folder w) as ([Hc _] & _).
    intros H. rewrite H in Hc. exact Hc.
Qed.

Lemma download_all_files_setup_folder_raises
    gcs_path destination_folder max_size_mb w e w1 :
  ensure_folder destination_folder w = (inl e, w1) ->
  download_all_files_setup check_bracketed_netloc fs gcs_path
    destination_folder max_size_mb w = (inl e, w1).
Proof.
  intros Hfolder. unfold download_all_files_setup.
  unfold ensure_folder in Hfolder. rewrite bind_run in Hfolder.
  rewrite bind_run.
  destruct (os_path_exists destination_folder w) as [[e0|there] wf];
    [inversion Hfolder; reflexivity|].
  rewrite bind_run, Hfolder. reflexivity.
Qed.

(** What the setup has done when it returns. *)
Lemma download_all_files_setup_returned
    gcs_path destination_folder max_size_mb w bucket_name grouped_blobs w1 :
  download_all_files_setup check_bracketed_netloc fs gcs_path
    destination_folder max_size_mb w = (inr (bucket_name, grouped_blobs), w1) ->
  exists prefix blobs,
    parse_gcs_path check_bracketed_netloc gcs_path = inr (bucket_name, prefix)
    /\ list_blobs fs bucket_name prefix = inr blobs
    /\ group_blobs_by_size fs blobs max_size_mb = inr grouped_blobs
    /\ cwd w1 = cwd w.
Proof.
  intros Hsetup.
  destruct (ensure_folder destination_folder w) as [[e|[]] wf] eqn:Hfolder.
  - rewrite (download_all_files_setup_folder_raises _ _ _ _ _ _ Hfolder)
      in Hsetup. discriminate.
  - rewrite (download_all_files_setup_steps _ _ _ _ _ _ _ Hfolder) in Hsetup.
    apply ensure_folder_cwd in Hfolder.
    destruct (parse_gcs_path check_bracketed_netloc gcs_path)
      as [e|[b prefix]]; [discriminate|].
    destruct (list_blobs fs b prefix) as [e|blobs] eqn:Hls; [discriminate|].
    destruct (group_blobs_by_size fs blobs max_size_mb) as [e|groups] eqn:Hg;
      inversion Hsetup; subst.
    exists prefix, blobs. auto.
Qed.

End DriverFiles.

(** A failed group shows in the output: its error line is among those the
    main thread has printed once it has collected the future. *)
Lemma collected_failure_printed p i attempted e :
  futures p !! i = Some (Finished attempted (inl e)) ->
  i ∈ collected p ->
  In (ErrorDownloading e) (error_lines p).
Proof.
  intros Hi Hc. apply list_elem_of_In. unfold error_lines.
  apply list_elem_of_omap. exists i. split; [exact Hc|].
  rewrite Hi. reflexivity.
Qed.

(** A quiet run has transferred everything.  When [download_all_files]
    returns and the output holds no error line, every object of the
    listing is in its local file, provided no two of them have the same
    local file. *)
Theorem download_all_files_quiet_run_transfers_everything
    chk fs gcs_path destination_folder max_size_mb num_threads w w'
    bucket_name prefix blobs :
  parse_gcs_path chk gcs_path = inr (bucket_name, prefix) ->
  list_blobs fs bucket_name prefix = inr blobs ->
  NoDup (map (dest_key w bucket_name destination_folder) blobs) ->
  download_all_files chk fs gcs_path destination_folder max_size_mb
    num_threads w (inr tt) w' ->
  (forall e, ~ In (ErrorDownloading e) (stdout w')) ->
  forall blob, In blob blobs ->
    exists destination_file_name src,
      destination_of (cwd w) bucket_name destination_folder blob
      = inr destination_file_name
      /\ fs_open_rb fs blob = inr src
      /\ read_file w' destination_file_name = Some (rf_content src).
Proof.
  intros Hparse Hls Hdistinct Hrun Hquiet blob Hblob.
  inversion Hrun as [| |w_ b groups w1 schedule p Hsetup Hthreads Hpool Hdone];
    subst.
  destruct (download_all_files_setup_returned _ _ _ _ _ _ _ _ _ Hsetup)
    as (prefix' & blobs' & Hparse' & Hls' & Hgroups & Hcwd).
  rewrite Hparse in Hparse'. inversion Hparse'; subst b prefix'.
  rewrite Hls in Hls'. inversion Hls'; subst blobs'.
  pose proof (group_blobs_by_size_concat _ _ _ _ Hgroups) as Hconcat.
  assert (Hinv : pool_inv fs bucket_name destination_folder groups w1 p).
  { eapply pool_inv_run; [apply pool_inv_init|exact Hpool]. }
  assert (Hdistinct1 : NoDup (map (dest_key w1 bucket_name destination_folder)
                                  (concat groups))).
  { rewrite Hconcat.
    rewrite (map_ext _ (dest_key w bucket_name destination_folder));
      [exact Hdistinct|].
    intros a. apply dest_key_cwd, Hcwd. }
  destruct (disk_inv_reached fs bucket_name destination_folder num_threads
              groups w1 Hdistinct1 schedule p Hpool) as [Hcwdp Hdisk].
  rewrite <- Hconcat in Hblob. apply in_concat in Hblob.
  destruct Hblob as (group & Hgroup & Hblob).
  apply list_elem_of_In, list_elem_of_lookup_1 in Hgroup.
  destruct Hgroup as [i Hi].
  pose proof (pool_complete_finished _ _ _ _ _ _ Hinv Hdone) as Hfin.
  destruct (Forall2_lookup_l _ _ _ _ _ Hfin Hi)
    as (f & Hf & att & r & -> & Hout).
  rewrite <- Hcwd.
  apply (on_disk_read fs bucket_name destination_folder w1);
    [exact Hcwdp|].
  apply (Hdisk i _ blob Hf).
  destruct r as [e|[]]; simpl in *.
  - exfalso. apply (Hquiet e).
    rewrite (inv_stdout _ _ _ _ _ _ Hinv). apply in_or_app. right.
    eapply collected_failure_printed; eauto.
  - subst att. exact Hblob.
Qed.

Lemma demo_driver_run :
  download_all_files (fun _ => inr tt) demo_fs "gs://bkt/" "/data" 2 2
    demo_world (inr tt) (pool_world demo_driver_final).
Proof.
  apply (daf_returns (fun _ => inr tt) demo_fs "gs://bkt/" "/data" 2 2
           demo_world "bkt"
           [[]; ["bkt/big"]; ["bkt/a"; "bkt/b"]; ["bkt/c"]; ["bkt/pre/a.txt"]]
           (snd demo_driver_setup) demo_driver_schedule demo_driver_final).
  - unfold demo_driver_setup. apply run_result. vm_compute. reflexivity.
  - lia.
  - unfold demo_driver_final. apply run_some. vm_compute. reflexivity.
  - intros i f Hf.
    assert (Hc : collected demo_driver_final = [0; 1; 3; 2; 4]%nat)
      by (vm_compute; reflexivity).
    assert (Hn : length (futures demo_driver_final) = 5%nat)
      by (vm_compute; reflexivity).
    apply lookup_lt_Some in Hf. rewrite Hn in Hf. rewrite Hc.
    apply list_elem_of_In. simpl. lia.
Qed.

Lemma download_all_files_quiet_run_transfers_everything_witness :
  parse_gcs_path (fun _ => inr tt) "gs://bkt/" = inr ("bkt", EmptyString)
  /\ list_blobs demo_fs "bkt" EmptyString = inr (map fst demo_sizes)
  /\ NoDup (map (dest_key demo_world "bkt" "/data") (map fst demo_sizes))
  /\ download_all_files (fun _ => inr tt) demo_fs "gs://bkt/" "/data" 2 2
       demo_world (inr tt) (pool_world demo_driver_final)
  /\ (forall e,
        ~ In (ErrorDownloading e) (stdout (pool_world demo_driver_final)))
  /\ forall blob, In blob (map fst demo_sizes) ->
       exists destination_file_name src,
         destination_of (cwd demo_world) "bkt" "/data" blob
         = inr destination_file_name
         /\ fs_open_rb demo_fs blob = inr src
         /\ read_file (pool_world demo_driver_final) destination_file_name
            = Some (rf_content src).
Proof.
  assert (H1 : parse_gcs_path (fun _ => inr tt) "gs://bkt/"
               = inr ("bkt", EmptyString)) by (vm_compute; reflexivity).
  assert (H2 : list_blobs demo_fs "bkt" EmptyString = inr (map fst demo_sizes))
    by (vm_compute; reflexivity).
  assert (H3 : NoDup (map (dest_key demo_world "bkt" "/data")
                          (map fst demo_sizes)))
    by (apply (bool_decide_unpack _); vm_compute; reflexivity).
  assert (H5 : forall e,
             ~ In (ErrorDownloading e)
                  (stdout (pool_world demo_driver_final))).
  { intros e.
    assert (Hout : stdout (pool_world demo_driver_final)
                   = [FoundFiles 5; GroupedChunks 5])
      by (vm_compute; reflexivity).
    rewrite Hout. simpl. intros [H|[H|[]]]; discriminate H. }
  split; [exact H1|]. split; [exact H2|]. split; [exact H3|].
  split; [exact demo_driver_run|]. split; [exact H5|].
  exact (download_all_files_quiet_run_transfers_everything
           (fun _ => inr tt) demo_fs "gs://bkt/" "/data" 2 2 demo_world
           (pool_world demo_driver_final) "bkt" EmptyString
           (map fst demo_sizes) H1 H2 H3 demo_driver_run H5).
Defined.
